(** * Word-level audio censorship: a model of [app.py]

    The development embeds [is_toxic] and [censor_audio] of [app.py] and
    proves the properties the design description gives for the censorship
    aligner; it also embeds [allowed_file], the names of the generated
    files, the cleanup after a download and the [try] block of
    [upload_file].  The aligner is embedded twice: on clips as values,
    and on clips as objects that the interpreter creates and shares.
    Python values are modelled as the interpreter has them:
    integers as [Z], floats as IEEE binary64 values ([spec_float] with its
    round-to-nearest-even operations), strings as lists of code points,
    exceptions as an error result.  The classifier is an external,
    possibly stateful callable, so its state is threaded explicitly. *)

From Stdlib Require Import String Ascii.
From Stdlib Require Import ZArith List Bool Lia.
From Stdlib Require Import SpecFloat.
Import ListNotations.
Local Open Scope Z_scope.

(** ** Python exceptions and results *)

Inductive exn : Type :=
| ZeroDivisionError
| OverflowError
| ValueError
| TooManyMissingFrames.

Inductive res (A : Type) : Type :=
| Ok (a : A)
| Raise (e : exn).
Arguments Ok {A} a.
Arguments Raise {A} e.

(** ** Python floats (binary64) and integers *)

Module PyNum.

Definition prec : Z := 53.
Definition emax : Z := 1024.

Inductive pynum : Type :=
| PyInt (z : Z)
| PyFloat (f : spec_float).

(** [float(z)]: correctly rounded; too large an integer raises. *)
Definition float_of_int (z : Z) : res spec_float :=
  match binary_normalize prec emax z 0 false with
  | S754_infinity _ => Raise OverflowError
  | f => Ok f
  end.

(** [a * b] on numbers: exact on two integers, otherwise the integer
    operand is converted and the product is rounded. *)
Definition py_mul (a b : pynum) : res pynum :=
  match a, b with
  | PyInt x, PyInt y => Ok (PyInt (x * y))
  | PyInt x, PyFloat g =>
      match float_of_int x with
      | Ok f => Ok (PyFloat (SFmul prec emax f g))
      | Raise e => Raise e
      end
  | PyFloat f, PyInt y =>
      match float_of_int y with
      | Ok g => Ok (PyFloat (SFmul prec emax f g))
      | Raise e => Raise e
      end
  | PyFloat f, PyFloat g => Ok (PyFloat (SFmul prec emax f g))
  end.

(** [int(x)] on a float truncates toward zero. *)
Definition int_of_float (f : spec_float) : res Z :=
  match f with
  | S754_zero _ => Ok 0
  | S754_infinity _ => Raise OverflowError
  | S754_nan => Raise ValueError
  | S754_finite s m e => Ok (cond_Zopp s (Z.shiftl (Zpos m) e))
  end.

Definition py_int (x : pynum) : res Z :=
  match x with
  | PyInt z => Ok z
  | PyFloat f => int_of_float f
  end.

(** [math.floor(x)]: rounds toward minus infinity.  The source never
    calls it; the design description states the apportioned slices with
    it. *)
Definition py_floor (f : spec_float) : res Z :=
  match f with
  | S754_zero _ => Ok 0
  | S754_infinity _ => Raise OverflowError
  | S754_nan => Raise ValueError
  | S754_finite s m e => Ok (Z.shiftl (cond_Zopp s (Zpos m)) e)
  end.

(** [a / b] on two integers: the correctly rounded quotient. *)
Definition int_truediv (a b : Z) : res spec_float :=
  if b =? 0 then Raise ZeroDivisionError
  else
    let s := xorb (a <? 0) (b <? 0) in
    if a =? 0 then Ok (S754_zero s)
    else
      let '(mz, ez, lz) := SFdiv_core_binary prec emax (Z.abs a) 0 (Z.abs b) 0 in
      match binary_round_aux prec emax s mz ez lz with
      | S754_infinity _ => Raise OverflowError
      | f => Ok f
      end.

(** [x > y] on floats. *)
Definition float_gt (x y : spec_float) : bool := SFltb y x.

End PyNum.
Import PyNum.

(** ** Python strings *)

Module PyStr.

(** A string is its sequence of code points. *)
Definition pystr : Type := list N.

Definition py (s : string) : pystr :=
  List.map N_of_ascii (list_ascii_of_string s).
Arguments py s%_string.

Fixpoint eqb (s t : pystr) : bool :=
  match s, t with
  | [], [] => true
  | c :: s', d :: t' => N.eqb c d && eqb s' t'
  | _, _ => false
  end.

(** [str.isspace] on one code point. *)
Definition isspace (c : N) : bool :=
  (((9 <=? c) && (c <=? 13)) || ((28 <=? c) && (c <=? 32))
   || (c =? 133) || (c =? 160) || (c =? 5760)
   || ((8192 <=? c) && (c <=? 8202))
   || (c =? 8232) || (c =? 8233) || (c =? 8239) || (c =? 8287)
   || (c =? 12288))%N.

Fixpoint lstrip (s : pystr) : pystr :=
  match s with
  | [] => []
  | c :: r => if isspace c then lstrip r else s
  end.

Definition rstrip (s : pystr) : pystr := rev (lstrip (rev s)).

(** [s.strip()] *)
Definition strip (s : pystr) : pystr := rstrip (lstrip s).

(** [s.split()]: maximal runs of non-whitespace.  [cur] is the run being
    read, last character first. *)
Fixpoint split_from (cur : pystr) (s : pystr) : list pystr :=
  match s with
  | [] => match cur with [] => [] | _ => [rev cur] end
  | c :: r =>
      if isspace c then
        match cur with
        | [] => split_from [] r
        | _ => rev cur :: split_from [] r
        end
      else split_from (c :: cur) r
  end.

Definition split (s : pystr) : list pystr := split_from [] s.

(** Truth value of a string: non-empty. *)
Definition truthy (s : pystr) : bool :=
  match s with [] => false | _ => true end.

End PyStr.
Import PyStr.

(** ** Values exchanged with the collaborators *)

(** One entry of the recogniser's word list: [word['word']],
    [word['start_time']], [word['end_time']] (seconds). *)
Record word_timing : Type := {
  word : pystr;
  start_time : pynum;
  end_time : pynum
}.

(** A transcription that is neither a list nor a string: the recogniser's
    raw answer when it has no alternative. *)
Inductive py_other : Type :=
| PyNone
| PyDict (keys : list pystr).

(** [words_info], by the runtime type [censor_audio] inspects. *)
Inductive transcription : Type :=
| WordList (ws : list word_timing)
| Text (s : pystr)
| Other (o : py_other).

(** One entry of the classifier's answer: [result["label"]],
    [result["score"]]. *)
Record prediction : Type := {
  label : pystr;
  score : spec_float
}.

Inductive cls_outcome : Type :=
| ClsRaises
| ClsReturns (results : list prediction).

(** The threshold literal [0.7] as the interpreter reads it. *)
Definition threshold : spec_float := S754_finite false 6305039478318694 (-53).

(** What the design description calls a word span, with the toxicity
    decision taken for it. *)
Record span : Type := {
  span_toxic : bool;
  span_start : Z;
  span_end : Z
}.

(** ** Sample collaborators and inputs *)

Module Sample.

(** The float literals [0.9], [0.0], [1.0], [2.0], [3.0]. *)
Definition f0_9 : spec_float := S754_finite false 8106479329266893 (-53).
Definition f0 : spec_float := S754_zero false.
Definition f1 : spec_float := S754_finite false 4503599627370496 (-52).
Definition f2 : spec_float := S754_finite false 4503599627370496 (-51).
Definition f3 : spec_float := S754_finite false 6755399441055744 (-51).

(** A stateless classifier that finds the word "bad" toxic. *)
Definition classifier (w : pystr) (st : unit) : cls_outcome * unit :=
  if PyStr.eqb w (py "bad")
  then (ClsReturns [{| label := py "Toxic"; score := f0_9 |}], st)
  else (ClsReturns [{| label := py "Neutral"; score := f0_9 |}], st).

(** A classifier that raises on every call. *)
Definition failing (w : pystr) (st : unit) : cls_outcome * unit :=
  (ClsRaises, st).

(** A classifier whose answer alternates from call to call. *)
Definition flipping (w : pystr) (st : bool) : cls_outcome * bool :=
  (ClsReturns [{| label := if st then py "Toxic" else py "Neutral";
                  score := f0_9 |}], negb st).

(** One millisecond of silence, a 100 ms tone and a clip of [n] distinct
    milliseconds. *)
Definition silence : Z := 0.
Definition tone : list Z := repeat 0 100.
Definition clip (n : nat) : list Z := List.map Z.of_nat (seq 1 n).

Definition words : list word_timing :=
  [ {| word := py "bad"; start_time := PyFloat f0; end_time := PyFloat f1 |};
    {| word := py "cat"; start_time := PyFloat f1; end_time := PyFloat f2 |};
    {| word := py "run"; start_time := PyFloat f2; end_time := PyFloat f3 |} ].

Definition eleven_words : pystr := py "a b c d e f g h i j k".

(** A word timed from 1.5 s before the start of the clip to 0.8 s: the
    float literals [-1.5] and [0.8]. *)
Definition early_word : word_timing :=
  {| word := py "cat";
     start_time := PyFloat (S754_finite true 6755399441055744 (-52));
     end_time := PyFloat (S754_finite false 7205759403792794 (-53)) |}.

(** Two toxic words back to back over the first two seconds. *)
Definition bad_words : list word_timing :=
  [ {| word := py "bad"; start_time := PyFloat f0; end_time := PyFloat f1 |};
    {| word := py "bad"; start_time := PyFloat f1; end_time := PyFloat f2 |} ].

End Sample.

(** ** File names *)

Section FileNames.

(** [str.lower]: the interpreter's Unicode lowercase mapping. *)
Variable lower : pystr -> pystr.

Definition dot : N := 46.
Definition underscore : N := 95.

(** [c in s], for a one-character [c]. *)
Definition contains (c : N) (s : pystr) : bool := existsb (N.eqb c) s.

(** [s.startswith(prefix)] *)
Fixpoint startswith (s prefix : pystr) {struct prefix} : bool :=
  match prefix with
  | [] => true
  | p :: prefix' =>
      match s with
      | [] => false
      | c :: s' => N.eqb c p && startswith s' prefix'
      end
  end.

(** The parts of [s] before and after the last [c], if there is one. *)
Fixpoint rsplit_last (c : N) (s : pystr) : option (pystr * pystr) :=
  match s with
  | [] => None
  | x :: r =>
      match rsplit_last c r with
      | Some (a, b) => Some (x :: a, b)
      | None => if N.eqb x c then Some ([], r) else None
      end
  end.

(** [s.rsplit(c, 1)] *)
Definition rsplit1 (c : N) (s : pystr) : list pystr :=
  match rsplit_last c s with
  | Some (a, b) => [a; b]
  | None => [s]
  end.

(** The parts of [s] before and after the first [c], if there is one. *)
Fixpoint split_first (c : N) (s : pystr) : option (pystr * pystr) :=
  match s with
  | [] => None
  | x :: r =>
      if N.eqb x c then Some ([], r)
      else match split_first c r with
           | Some (a, b) => Some (x :: a, b)
           | None => None
           end
  end.

(** [s.split(c, 1)] *)
Definition split1 (c : N) (s : pystr) : list pystr :=
  match split_first c s with
  | Some (a, b) => [a; b]
  | None => [s]
  end.

Definition ALLOWED_EXTENSIONS : list pystr := [py "wav"].

(** [allowed_file]; [None] stands for the [IndexError] of the index
    [[1]]. *)
Definition allowed_file (filename : pystr) : option bool :=
  if contains dot filename then
    match nth_error (rsplit1 dot filename) 1 with
    | Some ext => Some (existsb (PyStr.eqb (lower ext)) ALLOWED_EXTENSIONS)
    | None => None
    end
  else Some false.

(** The name [create_audio_file] and [upload_file] give a file:
    [f"{prefix}{str(uuid.uuid4())}.wav"], the drawn identifier being
    [id]. *)
Definition generated_name (prefix id : pystr) : pystr :=
  prefix ++ id ++ py ".wav".

(** The counterpart that the cleanup after a download looks for; [None]
    stands for the [IndexError] of the index [[1]]. *)
Definition counterpart (filename : pystr) : option pystr :=
  let prefix :=
    if startswith filename (py "processed_") then py "original_"
    else py "processed_" in
  match nth_error (split1 underscore filename) 1 with
  | Some rest => Some (prefix ++ rest)
  | None => None
  end.

(** The upload folder: the names of the files in it. *)
Definition folder : Type := list pystr.

(** [os.path.exists] *)
Definition exists_in (name : pystr) (d : folder) : bool :=
  existsb (PyStr.eqb name) d.

(** [os.unlink]; [None] stands for the [FileNotFoundError]. *)
Definition unlink (name : pystr) (d : folder) : option folder :=
  if exists_in name d
  then Some (filter (fun other => negb (PyStr.eqb name other)) d)
  else None.

(** [cleanup], which [download_file] runs when the response is closed:
    the first exception ends it. *)
Definition cleanup (filename : pystr) (d : folder) : folder :=
  match unlink filename d with
  | None => d
  | Some d1 =>
      match counterpart filename with
      | None => d1
      | Some other =>
          if exists_in other d1
          then match unlink other d1 with
               | Some d2 => d2
               | None => d1
               end
          else d1
      end
  end.

End FileNames.

Section Aligner.

(** One millisecond of audio. *)
Variable frame : Type.
(** One millisecond of silence, with which a slice pads what it misses. *)
Variable silence : frame.
(** Internal state of the classification pipeline. *)
Variable cstate : Type.

(** A clip, at the granularity at which [len] and the slices address it:
    its sequence of milliseconds.  What a clip holds beyond its last whole
    millisecond is below that granularity; the statements speak of
    [audio[0:len(audio)]] where they mean the clip as the slices see it. *)
Definition AudioSegment : Type := list frame.

Definition len (a : AudioSegment) : Z := Z.of_nat (List.length a).

(** [AudioSegment.silent(duration=0)] *)
Definition silent0 : AudioSegment := [].

(** Python's normalisation of a slice bound on a sequence of [n] items. *)
Definition py_index (n i : Z) : Z :=
  if i <? 0 then Z.max 0 (i + n) else Z.min i n.

(** What [audio[start:stop]] returns when no bound lies below
    [-len(audio)]: both bounds are capped at the clip's length and a
    negative bound counts from the end.  [getitem] is the operation with
    its check. *)
Definition slice (a : AudioSegment) (start stop : Z) : AudioSegment :=
  let n := len a in
  let s := py_index n (Z.min start n) in
  let e := py_index n (Z.min stop n) in
  firstn (Z.to_nat (e - s)) (skipn (Z.to_nat s) a).

(** [audio[start:]], under the same condition. *)
Definition slice_from (a : AudioSegment) (start : Z) : AudioSegment :=
  slice a start (len a).

(** [_parse_position]: a negative position counts from the end, and
    stays negative when it lies before the start. *)
Definition parse_position (n val : Z) : Z :=
  if val <? 0 then n - Z.abs val else val.

(** [self._data[start:end]], Python's slice of the samples. *)
Definition data_slice (a : AudioSegment) (s e : Z) : AudioSegment :=
  let n := len a in
  firstn (Z.to_nat (py_index n e - py_index n s))
         (skipn (Z.to_nat (py_index n s)) a).

(** [audio[start:stop]], that is [AudioSegment.__getitem__] on a slice
    without step: the samples between the parsed positions; when fewer
    come back than the positions span, up to 2 ms are filled in with
    silence and more is an error. *)
Definition getitem (a : AudioSegment) (start stop : Z) : res AudioSegment :=
  let n := len a in
  let s := parse_position n (Z.min start n) in
  let e := parse_position n (Z.min stop n) in
  let data := data_slice a s e in
  let missing := (e - s) - len data in
  if missing =? 0 then Ok data
  else if missing >? 2 then Raise TooManyMissingFrames
  else Ok (data ++ match data with
                   | [] => []
                   | _ :: _ => repeat silence (Z.to_nat missing)
                   end).

(** [audio[start:]] *)
Definition getitem_from (a : AudioSegment) (start : Z) : res AudioSegment :=
  getitem a start (len a).

Definition pipeline : Type := pystr -> cstate -> cls_outcome * cstate.

(** Module globals, set once at import. *)
Variable toxicity_classifier : option pipeline.
Variable beep : option AudioSegment.

(** *** Computations: classifier state and exceptions *)

Definition M (A : Type) : Type := cstate -> res A * cstate.

Definition ret {A} (a : A) : M A := fun st => (Ok a, st).

Definition throw {A} (e : exn) : M A := fun st => (Raise e, st).

Definition bind {A B} (c : M A) (k : A -> M B) : M B :=
  fun st =>
    match c st with
    | (Ok a, st') => k a st'
    | (Raise e, st') => (Raise e, st')
    end.

Definition lift {A} (r : res A) : M A :=
  match r with
  | Ok a => ret a
  | Raise e => throw e
  end.

Notation "x <- c ;; k" := (bind c (fun x => k))
  (at level 61, c at next level, right associativity).
Notation "' pat <- c ;; k" := (bind c (fun x => match x with pat => k end))
  (at level 61, pat pattern, c at next level, right associativity).

(** [for x in xs: body], the loop variables carried in [acc]. *)
Fixpoint for_each {A B} (xs : list A) (acc : B) (body : B -> A -> M B) : M B :=
  match xs with
  | [] => ret acc
  | x :: rest => acc' <- body acc x ;; for_each rest acc' body
  end.

(** [enumerate(xs)], counting from [i]. *)
Fixpoint enumerate_from {A} (i : Z) (xs : list A) : list (Z * A) :=
  match xs with
  | [] => []
  | x :: rest => (i, x) :: enumerate_from (i + 1) rest
  end.

Definition enumerate {A} (xs : list A) : list (Z * A) := enumerate_from 0 xs.

(** *** [is_toxic] *)

Definition is_toxic (w : pystr) : cstate -> bool * cstate :=
  fun st =>
    if negb (truthy (strip w)) then (false, st)
    else
      match toxicity_classifier with
      | None => (false, st)
      | Some classify =>
          match classify w st with
          | (ClsRaises, st') => (false, st')
          | (ClsReturns [], st') => (false, st')
          | (ClsReturns (result :: _), st') =>
              (PyStr.eqb (label result) (py "Toxic")
               && float_gt (score result) threshold, st')
          end
      end.

Definition is_toxicM (w : pystr) : M bool :=
  fun st => let '(t, st') := is_toxic w st in (Ok t, st').

(** *** [censor_audio] *)

(** [int(t * 1000)] *)
Definition to_ms (t : pynum) : res Z :=
  match py_mul t (PyInt 1000) with
  | Ok x => py_int x
  | Raise e => Raise e
  end.

(** Body of the loop over the word list; the loop variables are
    [censored] and [last_end]. *)
Definition timed_word (audio tone : AudioSegment)
    (acc : AudioSegment * Z) (w : word_timing) : M (AudioSegment * Z) :=
  let '(censored, last_end) := acc in
  start <- lift (to_ms (start_time w)) ;;
  stop <- lift (to_ms (end_time w)) ;;
  censored <-
    (if last_end <? start
     then gap <- lift (getitem audio last_end start) ;; ret (censored ++ gap)
     else ret censored) ;;
  toxic <- is_toxicM (word w) ;;
  piece <- (if toxic then ret tone else lift (getitem audio start stop)) ;;
  ret (censored ++ piece, stop).

(** [int(i * duration)] *)
Definition boundary (i : Z) (duration : spec_float) : res Z :=
  match py_mul (PyInt i) (PyFloat duration) with
  | Ok x => py_int x
  | Raise e => Raise e
  end.

(** Body of the loop over the words of a plain transcript. *)
Definition plain_word (audio tone : AudioSegment) (duration : spec_float)
    (censored : AudioSegment) (iw : Z * pystr) : M AudioSegment :=
  let '(i, w) := iw in
  start <- lift (boundary i duration) ;;
  stop <- lift (boundary (i + 1) duration) ;;
  toxic <- is_toxicM w ;;
  piece <- (if toxic then ret tone else lift (getitem audio start stop)) ;;
  ret (censored ++ piece).

Definition censor_audio (words_info : transcription) (audio : AudioSegment)
  : M (option AudioSegment) :=
  match beep with
  | None => ret None
  | Some tone =>
      if len tone =? 0 then ret None
      else
        let censored := silent0 in
        let last_end := 0 in
        match words_info with
        | WordList ws =>
            '(censored, last_end) <-
              for_each ws (censored, last_end) (timed_word audio tone) ;;
            censored <-
              (if last_end <? len audio
               then rest <- lift (getitem_from audio last_end) ;;
                    ret (censored ++ rest)
               else ret censored) ;;
            ret (Some censored)
        | Text s =>
            let words := split s in
            duration <- lift (int_truediv (len audio) (Z.of_nat (List.length words))) ;;
            censored <-
              for_each (enumerate words) censored
                (plain_word audio tone duration) ;;
            ret (Some censored)
        | Other _ => ret (Some censored)
        end
  end.

(** *** The algorithm as the design description words it *)

(** Millisecond span of one timed word, both conversions in the loop's
    order. *)
Definition word_span (w : word_timing) : res (Z * Z) :=
  match to_ms (start_time w) with
  | Ok s =>
      match to_ms (end_time w) with
      | Ok e => Ok (s, e)
      | Raise x => Raise x
      end
  | Raise x => Raise x
  end.

Fixpoint word_spans (ws : list word_timing) : res (list (Z * Z)) :=
  match ws with
  | [] => Ok []
  | w :: rest =>
      match word_span w with
      | Ok se =>
          match word_spans rest with
          | Ok ses => Ok (se :: ses)
          | Raise x => Raise x
          end
      | Raise x => Raise x
      end
  end.

(** The toxicity decisions for a sequence of words, asked in order. *)
Fixpoint decisions (words : list pystr) (st : cstate) : list bool * cstate :=
  match words with
  | [] => ([], st)
  | w :: rest =>
      let '(t, st1) := is_toxic w st in
      let '(ts, st2) := decisions rest st1 in
      (t :: ts, st2)
  end.

Definition mk_spans (flags : list bool) (ses : list (Z * Z)) : list span :=
  List.map (fun p => {| span_toxic := fst p;
                        span_start := fst (snd p);
                        span_end := snd (snd p) |})
           (combine flags ses).

(** WordTimings case, steps 2 and 3: gap, then tone or original slice,
    for each span; trailing audio after the last one. *)
Fixpoint aligned (audio tone : AudioSegment) (last_end : Z) (spans : list span)
  : AudioSegment :=
  match spans with
  | [] =>
      if len audio >? last_end then slice audio last_end (len audio) else []
  | sp :: rest =>
      (if span_start sp >? last_end
       then slice audio last_end (span_start sp) else [])
      ++ (if span_toxic sp then tone
          else slice audio (span_start sp) (span_end sp))
      ++ aligned audio tone (span_end sp) rest
  end.

(** Every word replaced: gaps and tones only, then the trailing audio. *)
Fixpoint gaps_and_tones (audio tone : AudioSegment) (last_end : Z)
    (spans : list span) : AudioSegment :=
  match spans with
  | [] =>
      if len audio >? last_end then slice audio last_end (len audio) else []
  | sp :: rest =>
      (if span_start sp >? last_end
       then slice audio last_end (span_start sp) else [])
      ++ tone ++ gaps_and_tones audio tone (span_end sp) rest
  end.

(** Spans in timing order: non-negative, start <= end, non-overlapping,
    non-decreasing. *)
Fixpoint monotone (last_end : Z) (spans : list span) : bool :=
  match spans with
  | [] => true
  | sp :: rest =>
      (last_end <=? span_start sp) && (span_start sp <=? span_end sp)
      && monotone (span_end sp) rest
  end.

(** Spans that leave no gap between [last_end] and the end of the clip. *)
Fixpoint covering (audio : AudioSegment) (last_end : Z) (spans : list span)
  : bool :=
  match spans with
  | [] => len audio <=? last_end
  | sp :: rest =>
      (span_start sp =? last_end) && (span_start sp <=? span_end sp)
      && covering audio (span_end sp) rest
  end.

Definition all_toxic (spans : list span) : bool :=
  forallb span_toxic spans.

Definition none_toxic (spans : list span) : bool :=
  forallb (fun sp => negb (span_toxic sp)) spans.

Definition toxic_count (spans : list span) : Z :=
  Z.of_nat (List.length (filter span_toxic spans)).

(** Total duration of the audio under the toxic spans. *)
Fixpoint toxic_duration (audio : AudioSegment) (spans : list span) : Z :=
  match spans with
  | [] => 0
  | sp :: rest =>
      (if span_toxic sp
       then len (slice audio (span_start sp) (span_end sp)) else 0)
      + toxic_duration audio rest
  end.

(** PlainText case, step 3: [floor(i * duration)]. *)
Definition floor_boundary (i : Z) (duration : spec_float) : res Z :=
  match float_of_int i with
  | Ok f => py_floor (SFmul prec emax f duration)
  | Raise x => Raise x
  end.

(** The apportioned slices of the words [i], [i+1], ... ([k] of them). *)
Fixpoint apportioned (i : Z) (k : nat) (duration : spec_float)
  : res (list (Z * Z)) :=
  match k with
  | O => Ok []
  | S k' =>
      match floor_boundary i duration with
      | Ok lo =>
          match floor_boundary (i + 1) duration with
          | Ok hi =>
              match apportioned (i + 1) k' duration with
              | Ok rest => Ok ((lo, hi) :: rest)
              | Raise x => Raise x
              end
          | Raise x => Raise x
          end
      | Raise x => Raise x
      end
  end.

(** PlainText case, step 4: each slice kept, or replaced by the tone. *)
Definition replaced (audio tone : AudioSegment) (spans : list span)
  : AudioSegment :=
  flat_map (fun sp => if span_toxic sp then tone
                      else slice audio (span_start sp) (span_end sp))
           spans.

(** The part of a list between two positions. *)
Definition between (a : AudioSegment) (i j : nat) : AudioSegment :=
  firstn (j - i) (skipn i a).

(** A float that is zero, or positive and below [2^k]. *)
Definition small_nonneg (k : Z) (f : spec_float) : Prop :=
  match f with
  | S754_zero _ => True
  | S754_finite false m e => Zpos (digits2_pos m) + e <= k
  | _ => False
  end.

(** The tone is there: [not beep] is false. *)
Definition tone_available (tone : AudioSegment) : Prop :=
  beep = Some tone /\ len tone <> 0.

(** The classifier is missing or raises whenever it is called. *)
Definition classifier_always_throws : Prop :=
  forall classify, toxicity_classifier = Some classify ->
    forall w st, fst (classify w st) = ClsRaises.

(** The toxicity predicate answers the same whatever the pipeline's
    internal state. *)
Definition deterministic_predicate : Prop :=
  forall w st1 st2, fst (is_toxic w st1) = fst (is_toxic w st2).

Definition whitespace_only (w : pystr) : Prop :=
  forallb isspace w = true.

(** Cursor of a shifted mantissa: its digits, counted with the [k]
    shifts already done, stay within [d]. *)
Definition shifted (d k : Z) (x : shr_record) : Prop :=
  0 <= shr_m x /\ (shr_m x = 0 \/ Zdigits2 (shr_m x) + k <= d).

(** A computation whose result does not depend on the pipeline's
    state. *)
Definition state_blind {A} (c : M A) : Prop :=
  forall st1 st2, fst (c st1) = fst (c st2).

(** The remainder lost by [n] shifts of [m0], as the record's round and
    sticky bits locate it. *)
Definition located (m0 n : Z) (x : shr_record) : Prop :=
  0 <= shr_m x /\
  exists rem,
    m0 = shr_m x * 2 ^ n + rem /\ 0 <= rem < 2 ^ n /\
    match loc_of_shr_record x with
    | loc_Exact => rem = 0
    | loc_Inexact Lt => 0 < 2 * rem < 2 ^ n
    | loc_Inexact Eq => 2 * rem = 2 ^ n
    | loc_Inexact Gt => 2 ^ n < 2 * rem
    end.

(** [R] is [X] rounded to the nearest multiple of [P], ties to the even
    multiple. *)
Definition rne_to (P X R : Z) : Prop :=
  exists Q r,
    X = Q * P + r /\ 0 <= r < P /\ 0 <= Q /\
    ((2 * r < P /\ R = Q * P) \/
     (P < 2 * r /\ R = (Q + 1) * P) \/
     (2 * r = P /\ R = (if Z.even Q then Q else Q + 1) * P)).

(** The non-negative float [f] is [m * 2^e]. *)
Definition represents (f : spec_float) (m e : Z) : Prop :=
  ((exists s, f = S754_zero s) /\ m = 0) \/
  (exists p, f = S754_finite false p e /\ m = Zpos p).

(** [m1 * 2^e1 <= m2 * 2^e2], on the finer of the two scales. *)
Definition val_le (m1 e1 m2 e2 : Z) : Prop :=
  m1 * 2 ^ (e1 - Z.min e1 e2) <= m2 * 2 ^ (e2 - Z.min e1 e2).

(** The remainder of [T] over the divisor [D] after [n] shifts of the
    quotient, as the record's round and sticky bits locate it. *)
Definition located_by (D T n : Z) (x : shr_record) : Prop :=
  0 <= shr_m x /\
  exists rem,
    T = shr_m x * (D * 2 ^ n) + rem /\ 0 <= rem < D * 2 ^ n /\
    match loc_of_shr_record x with
    | loc_Exact => rem = 0
    | loc_Inexact Lt => 0 < 2 * rem < D * 2 ^ n
    | loc_Inexact Eq => 2 * rem = D * 2 ^ n
    | loc_Inexact Gt => D * 2 ^ n < 2 * rem
    end.

(** No bound of the spans lies below [-len(audio)]: every slice of the
    clip at these bounds is there. *)
Definition in_range (audio : AudioSegment) (ses : list (Z * Z)) : bool :=
  forallb (fun se => (- len audio <=? fst se) && (- len audio <=? snd se)) ses.

(** Slices that follow one another from [lo] to [hi]: each starts where
    the one before ended and none runs backwards. *)
Fixpoint chain (lo hi : Z) (bounds : list (Z * Z)) : Prop :=
  match bounds with
  | [] => lo = hi
  | se :: rest => fst se = lo /\ lo <= snd se /\ chain (snd se) hi rest
  end.

(** *** [upload_file], once the upload is saved *)

(** Truth value of the transcription. *)
Definition truthy_info (words_info : transcription) : bool :=
  match words_info with
  | WordList ws => match ws with [] => false | _ => true end
  | Text s => truthy s
  | Other PyNone => false
  | Other (PyDict keys) => match keys with [] => false | _ => true end
  end.

(** Truth value of the clip that [load_and_transcribe_audio] returns:
    [None], or a clip, which is true unless it lasts 0 ms. *)
Definition truthy_clip (audio : option AudioSegment) : bool :=
  match audio with
  | None => false
  | Some a => negb (len a =? 0)
  end.

(** How the [try] block of [upload_file] ends. *)
Inductive upload_outcome : Type :=
| ErrorProcessing
  (** [flash('Error processing audio')] *)
| ErrorGenerating
  (** [flash('Error generating censored audio')] *)
| ErrorRaised (e : exn)
  (** [flash(f'Error: {str(e)}')] *)
| Processed (censored : AudioSegment)
  (** [create_audio_file(censored, "processed_")] is reached *).

(** The [try] block of [upload_file], from the pair that
    [load_and_transcribe_audio] returned. *)
Definition upload_try (words_info : transcription)
    (audio : option AudioSegment) : cstate -> upload_outcome * cstate :=
  fun st =>
    if negb (truthy_info words_info) || negb (truthy_clip audio)
    then (ErrorProcessing, st)
    else
      match audio with
      | None => (ErrorProcessing, st)
      | Some a =>
          match censor_audio words_info a st with
          | (Raise e, st') => (ErrorRaised e, st')
          | (Ok None, st') => (ErrorGenerating, st')
          | (Ok (Some censored), st') =>
              if len censored =? 0 then (ErrorGenerating, st')
              else (Processed censored, st')
          end
      end.

(** *** The clips as objects *)

(** The clip objects that exist, in the order of their creation; a
    reference to one is its index.  No operation of the library that
    [censor_audio] uses writes to an object: a slice, a sum and
    [AudioSegment.silent] each make a new one. *)
Definition heap : Type := list AudioSegment.

Definition deref (h : heap) (r : nat) : AudioSegment := nth r h [].

(** Computations on objects: they read and create clips, ask the
    classifier and may raise. *)
Definition MO (A : Type) : Type := heap * cstate -> res A * (heap * cstate).

Definition retO {A} (a : A) : MO A := fun w => (Ok a, w).

Definition bindO {A B} (c : MO A) (k : A -> MO B) : MO B :=
  fun w =>
    match c w with
    | (Ok a, w') => k a w'
    | (Raise e, w') => (Raise e, w')
    end.

Definition liftO {A} (r : res A) : MO A := fun w => (r, w).

Notation "x <~ c ;; k" := (bindO c (fun x => k))
  (at level 61, c at next level, right associativity).
Notation "' pat <~ c ;; k" := (bindO c (fun x => match x with pat => k end))
  (at level 61, pat pattern, c at next level, right associativity).

(** [_spawn]: a new object with the given samples. *)
Definition spawn (data : AudioSegment) : MO nat :=
  fun w => (Ok (List.length (fst w)), (fst w ++ [data], snd w)).

(** [AudioSegment.silent(duration=0)] *)
Definition silent_obj : MO nat := spawn silent0.

(** [len(a)] *)
Definition len_obj (a : nat) : MO Z :=
  fun w => (Ok (len (deref (fst w) a)), w).

(** [a[start:stop]] *)
Definition getitem_obj (a : nat) (start stop : Z) : MO nat :=
  fun w =>
    match getitem (deref (fst w) a) start stop with
    | Ok data => spawn data w
    | Raise e => (Raise e, w)
    end.

(** [a[start:]] *)
Definition getitem_from_obj (a : nat) (start : Z) : MO nat :=
  fun w => getitem_obj a start (len (deref (fst w) a)) w.

(** [a + b], which [censored += b] evaluates before it rebinds
    [censored]. *)
Definition add_obj (a b : nat) : MO nat :=
  fun w => spawn (deref (fst w) a ++ deref (fst w) b) w.

Definition is_toxic_obj (w : pystr) : MO bool :=
  fun '(h, st) => let '(t, st') := is_toxic w st in (Ok t, (h, st')).

Fixpoint for_each_obj {A B} (xs : list A) (acc : B) (body : B -> A -> MO B)
  : MO B :=
  match xs with
  | [] => retO acc
  | x :: rest => acc' <~ body acc x ;; for_each_obj rest acc' body
  end.

(** Body of the loop over the word list, on objects. *)
Definition timed_word_obj (audio tone : nat) (acc : nat * Z) (w : word_timing)
  : MO (nat * Z) :=
  let '(censored, last_end) := acc in
  start <~ liftO (to_ms (start_time w)) ;;
  stop <~ liftO (to_ms (end_time w)) ;;
  censored <~
    (if last_end <? start
     then gap <~ getitem_obj audio last_end start ;; add_obj censored gap
     else retO censored) ;;
  toxic <~ is_toxic_obj (word w) ;;
  piece <~ (if toxic then retO tone else getitem_obj audio start stop) ;;
  censored <~ add_obj censored piece ;;
  retO (censored, stop).

(** Body of the loop over the words of a plain transcript, on objects. *)
Definition plain_word_obj (audio tone : nat) (duration : spec_float)
    (censored : nat) (iw : Z * pystr) : MO nat :=
  let '(i, w) := iw in
  start <~ liftO (boundary i duration) ;;
  stop <~ liftO (boundary (i + 1) duration) ;;
  toxic <~ is_toxic_obj w ;;
  piece <~ (if toxic then retO tone else getitem_obj audio start stop) ;;
  add_obj censored piece.

(** [censor_audio] on objects: [beep_obj] is what the module global
    [beep] refers to, [audio] the clip object passed in. *)
Definition censor_audio_obj (beep_obj : option nat) (words_info : transcription)
    (audio : nat) : MO (option nat) :=
  match beep_obj with
  | None => retO None
  | Some tone =>
      n <~ len_obj tone ;;
      if n =? 0 then retO None
      else
        censored <~ silent_obj ;;
        let last_end := 0 in
        match words_info with
        | WordList ws =>
            '(censored, last_end) <~
              for_each_obj ws (censored, last_end) (timed_word_obj audio tone) ;;
            n <~ len_obj audio ;;
            censored <~
              (if last_end <? n
               then rest <~ getitem_from_obj audio last_end ;;
                    add_obj censored rest
               else retO censored) ;;
            retO (Some censored)
        | Text s =>
            let words := split s in
            n <~ len_obj audio ;;
            duration <~ liftO (int_truediv n (Z.of_nat (List.length words))) ;;
            censored <~
              for_each_obj (enumerate words) censored
                (plain_word_obj audio tone duration) ;;
            retO (Some censored)
        | Other _ => retO (Some censored)
        end
  end.

(** The heap [h] holds the objects of [h0], unchanged, and maybe more. *)
Definition extends (h0 h : heap) : Prop := exists new, h = h0 ++ new.

(** The reference [r] is to an object of [h] with the samples [v]. *)
Definition holds (h : heap) (r : nat) (v : AudioSegment) : Prop :=
  (r < List.length h)%nat /\ deref h r = v.

(** A run on objects and a run on values agree, from the heap and the
    classifier state [w]: the objects that exist are unchanged, the
    classifier is left in the same state, and the results are the same
    exception or related by [R] in the final heap. *)
Definition sim {A B} (R : heap -> A -> B -> Prop) (w : heap * cstate)
    (c : MO A) (c' : M B) : Prop :=
  extends (fst w) (fst (snd (c w))) /\
  snd (snd (c w)) = snd (c' (snd w)) /\
  match fst (c w), fst (c' (snd w)) with
  | Ok a, Ok b => R (fst (snd (c w))) a b
  | Raise e, Raise e' => e = e'
  | _, _ => False
  end.

(** A reference made since [h0] to an object with the samples [v]. *)
Definition fresh (h0 : heap) (h : heap) (r : nat) (v : AudioSegment) : Prop :=
  (List.length h0 <= r)%nat /\ holds h r v.

(** What a run keeps: the heap still extends the first one, and the
    input clip and the tone are where they were. *)
Definition kept (h0 : heap) (audio tone : nat) (va vt : AudioSegment)
    (h : heap) : Prop :=
  extends h0 h /\ holds h audio va /\ holds h tone vt.

(** ** The loop over timed words *)

(** Run the first bound computation, whose result [H] gives. *)
Ltac run_bind H := unfold bind at 1; rewrite H; cbn [lift ret].

Lemma word_spans_cons w ws ses :
  word_spans (w :: ws) = Ok ses ->
  exists s e rest,
    ses = (s, e) :: rest /\ to_ms (start_time w) = Ok s /\
    to_ms (end_time w) = Ok e /\ word_spans ws = Ok rest.
Proof.
  simpl. unfold word_span.
  destruct (to_ms (start_time w)) as [s|]; [|discriminate].
  destruct (to_ms (end_time w)) as [e|]; [|discriminate].
  destruct (word_spans ws) as [rest|]; [|discriminate].
  intros H. injection H as <-. now exists s, e, rest.
Qed.

(** In range, the checked slice is the slice. *)
Lemma getitem_in_range a s e :
  - len a <= s -> - len a <= e -> getitem a s e = Ok (slice a s e).
Proof.
  intros Hs He. unfold getitem, slice, data_slice.
  assert (0 <= len a) as Hn by (unfold len; lia).
  assert (forall v, - len a <= v ->
            parse_position (len a) (Z.min v (len a))
            = py_index (len a) (Z.min v (len a)) /\
            0 <= py_index (len a) (Z.min v (len a)) <= len a) as Hp.
  { intros v Hv. unfold parse_position, py_index.
    destruct (Z.ltb_spec (Z.min v (len a)) 0); lia. }
  destruct (Hp s Hs) as [-> Hs'], (Hp e He) as [-> He'].
  set (S := py_index (len a) (Z.min s (len a))) in *.
  set (E := py_index (len a) (Z.min e (len a))) in *.
  assert (forall v, 0 <= v <= len a -> py_index (len a) v = v) as Hid.
  { intros v Hv. unfold py_index. destruct (Z.ltb_spec v 0); lia. }
  rewrite (Hid S Hs'), (Hid E He').
  set (data := firstn (Z.to_nat (E - S)) (skipn (Z.to_nat S) a)).
  assert (len data = Z.max 0 (E - S)) as Hlen.
  { unfold len, data in *. rewrite length_firstn, length_skipn. lia. }
  rewrite Hlen.
  destruct (Z.eqb_spec (E - S - Z.max 0 (E - S)) 0) as [_|Hm]; [reflexivity|].
  destruct (Z.gtb_spec (E - S - Z.max 0 (E - S)) 2) as [Hg|_]; [lia|].
  replace (Z.to_nat (E - S - Z.max 0 (E - S))) with 0%nat by lia.
  destruct data; cbn [repeat]; now rewrite app_nil_r.
Qed.

Lemma in_range_cons audio s e ses :
  in_range audio ((s, e) :: ses) = true <->
  (- len audio <= s /\ - len audio <= e) /\ in_range audio ses = true.
Proof.
  unfold in_range. cbn [forallb fst snd].
  rewrite !andb_true_iff, !Z.leb_le. tauto.
Qed.

Lemma in_range_app audio pre ses :
  in_range audio (pre ++ ses) = in_range audio pre && in_range audio ses.
Proof. apply forallb_app. Qed.

(** The accumulating loop followed by the trailing append is the
    recursive description started at the loop's current cursor. *)
Lemma timed_loop_aligned audio tone ws :
  forall ses censored last_end st,
    word_spans ws = Ok ses ->
    in_range audio ses = true -> - len audio <= last_end ->
    bind (for_each ws (censored, last_end) (timed_word audio tone))
         (fun acc =>
            censored <-
              (if snd acc <? len audio
               then rest <- lift (getitem_from audio (snd acc)) ;;
                    ret (fst acc ++ rest)
               else ret (fst acc)) ;;
            ret (Some censored)) st
    = (Ok (Some (censored ++
                 aligned audio tone last_end
                   (mk_spans (fst (decisions (List.map word ws) st)) ses))),
       snd (decisions (List.map word ws) st)).
Proof.
  assert (0 <= len audio) as Hn by (unfold len; lia).
  induction ws as [|w ws IH]; intros ses censored last_end st Hs Hr Hl.
  - simpl in Hs. injection Hs as <-.
    cbn [for_each List.map decisions fst snd mk_spans combine aligned].
    unfold bind at 1. cbn [ret fst snd].
    rewrite Z.gtb_ltb. unfold getitem_from, slice_from.
    destruct (last_end <? len audio).
    + unfold bind. rewrite getitem_in_range by lia. reflexivity.
    + unfold bind. cbn [ret]. now rewrite app_nil_r.
  - destruct (word_spans_cons _ _ _ Hs) as (s & e & rest & -> & Hst & Hen & Hrest).
    apply in_range_cons in Hr. destruct Hr as [[Hs0 He0] Hr].
    specialize (IH rest).
    cbn [for_each List.map decisions].
    unfold bind at 1 2. unfold timed_word at 1.
    run_bind Hst.
    run_bind Hen.
    assert ((if last_end <? s
             then gap <- lift (getitem audio last_end s) ;; ret (censored ++ gap)
             else ret censored) st
            = (Ok (censored ++ (if last_end <? s
                                then slice audio last_end s else [])), st))
      as Hgap.
    { destruct (last_end <? s).
      - unfold bind. now rewrite getitem_in_range by lia.
      - cbn [ret]. now rewrite app_nil_r. }
    unfold bind at 1. rewrite Hgap.
    unfold bind at 1. unfold is_toxicM.
    destruct (is_toxic (word w) st) as [t st1].
    assert ((if t then ret tone else lift (getitem audio s e)) st1
            = (Ok (if t then tone else slice audio s e), st1)) as Hpiece.
    { destruct t; [reflexivity|]. now rewrite getitem_in_range by lia. }
    unfold bind at 1. rewrite Hpiece. cbn [ret].
    match goal with
    | |- context [for_each ws (?c, ?l) _ st1] =>
        specialize (IH c l st1 Hrest Hr He0)
    end.
    unfold bind at 1 in IH.
    destruct (for_each ws _ (timed_word audio tone) st1) as [[acc|x] st2].
    + rewrite IH.
      destruct (decisions (List.map word ws) st1) as [ts st3].
      cbn [fst snd mk_spans combine List.map aligned span_start span_end span_toxic].
      rewrite Z.gtb_ltb.
      destruct (last_end <? s); now rewrite <- ?app_assoc.
    + discriminate IH.
Qed.

Lemma bind_ext {A B} (c : M A) (f g : A -> M B) st :
  (forall a st', f a st' = g a st') -> bind c f st = bind c g st.
Proof.
  intros H. unfold bind. destruct (c st) as [[a|x] st']; [apply H|reflexivity].
Qed.

Lemma censor_word_list tone ws ses audio st :
  tone_available tone ->
  word_spans ws = Ok ses ->
  in_range audio ses = true ->
  censor_audio (WordList ws) audio st
  = (Ok (Some (aligned audio tone 0
                 (mk_spans (fst (decisions (List.map word ws) st)) ses))),
     snd (decisions (List.map word ws) st)).
Proof.
  intros [Hb Hl] Hs Hr. unfold censor_audio. rewrite Hb.
  apply Z.eqb_neq in Hl. rewrite Hl.
  assert (- len audio <= 0) as H0 by (unfold len; lia).
  pose proof (timed_loop_aligned audio tone ws ses silent0 0 st Hs Hr H0) as H.
  cbn [silent0 app] in H. etransitivity; [|exact H].
  apply bind_ext. intros [c l] st'. reflexivity.
Qed.

(** ** Slices of a clip *)

Lemma firstn_plus (i j : nat) (l : AudioSegment) :
  firstn (i + j) l = firstn i l ++ firstn j (skipn i l).
Proof.
  revert l. induction i as [|i IH]; intros [|x l]; simpl; try reflexivity.
  - now rewrite firstn_nil.
  - now rewrite IH.
Qed.

Lemma between_app a (i j k : nat) :
  (i <= j <= k)%nat -> between a i j ++ between a j k = between a i k.
Proof.
  intros H. unfold between.
  replace (k - i)%nat with ((j - i) + (k - j))%nat by lia.
  rewrite firstn_plus, skipn_skipn.
  now replace (j - i + i)%nat with j by lia.
Qed.

Lemma between_length a (i j : nat) :
  (j <= List.length a)%nat -> List.length (between a i j) = (j - i)%nat.
Proof.
  intros H. unfold between. rewrite length_firstn, length_skipn. lia.
Qed.

Lemma between_all a : between a 0 (List.length a) = a.
Proof.
  unfold between. simpl. rewrite Nat.sub_0_r. apply firstn_all.
Qed.

(** On non-negative bounds a slice is the part between the capped
    bounds. *)
Lemma slice_between a s e :
  0 <= s -> 0 <= e ->
  slice a s e
  = between a (Z.to_nat (Z.min s (len a))) (Z.to_nat (Z.min e (len a))).
Proof.
  intros Hs He. unfold slice, between, py_index, len.
  set (n := Z.of_nat (List.length a)).
  assert (0 <= n) by (subst n; lia).
  destruct (Z.ltb_spec (Z.min s n) 0); [lia|].
  destruct (Z.ltb_spec (Z.min e n) 0); [lia|].
  replace (Z.min (Z.min s n) n) with (Z.min s n) by lia.
  replace (Z.min (Z.min e n) n) with (Z.min e n) by lia.
  f_equal. lia.
Qed.

Lemma slice_app a s m e :
  0 <= s <= m -> 0 <= e -> Z.min m (len a) <= Z.min e (len a) ->
  slice a s m ++ slice a m e = slice a s e.
Proof.
  intros H1 H2 H3. rewrite !slice_between by lia.
  apply between_app. lia.
Qed.

Lemma slice_nil a s e : 0 <= s -> 0 <= e -> e <= s -> slice a s e = [].
Proof.
  intros Hs He H. rewrite slice_between by lia. unfold between.
  replace (Z.to_nat (Z.min e (len a)) - Z.to_nat (Z.min s (len a)))%nat
    with O by lia.
  reflexivity.
Qed.

Lemma slice_past_end a s e : len a <= s -> 0 <= e -> slice a s e = [].
Proof.
  intros Hs He. unfold len in *. rewrite slice_between by lia. unfold between, len.
  replace (Z.to_nat (Z.min e (Z.of_nat (List.length a)))
           - Z.to_nat (Z.min s (Z.of_nat (List.length a))))%nat
    with O by lia.
  reflexivity.
Qed.

Lemma slice_all a : slice a 0 (len a) = a.
Proof.
  unfold len. rewrite slice_between by lia. unfold len.
  rewrite Z.min_l by lia. rewrite Z.min_id, Nat2Z.id. apply between_all.
Qed.

Lemma len_app a b : len (a ++ b) = len a + len b.
Proof. unfold len. rewrite length_app. lia. Qed.

Lemma len_slice a s e :
  0 <= s -> 0 <= e ->
  len (slice a s e) = Z.max 0 (Z.min e (len a) - Z.min s (len a)).
Proof.
  intros Hs He. rewrite slice_between by lia. unfold len.
  rewrite between_length; lia.
Qed.

(** The gap the loop appends, guarded or not, is the slice itself. *)
Lemma gap_slice a last s :
  0 <= last <= s ->
  (if s >? last then slice a last s else []) = slice a last s.
Proof.
  intros H. rewrite Z.gtb_ltb. destruct (Z.ltb_spec last s); [reflexivity|].
  symmetry. apply slice_nil; lia.
Qed.

Lemma trailing_slice a last :
  0 <= last ->
  (if len a >? last then slice a last (len a) else []) = slice a last (len a).
Proof.
  intros H. rewrite Z.gtb_ltb. destruct (Z.ltb_spec last (len a)); [reflexivity|].
  symmetry. apply slice_past_end; unfold len in *; lia.
Qed.

(** ** Consequences for the word-timings path *)

Lemma monotone_cons last sp rest :
  monotone last (sp :: rest) = true ->
  last <= span_start sp /\ span_start sp <= span_end sp /\
  monotone (span_end sp) rest = true.
Proof.
  simpl. rewrite !andb_true_iff, !Z.leb_le. tauto.
Qed.

Lemma aligned_none_toxic audio tone spans :
  forall last,
    0 <= last -> monotone last spans = true -> none_toxic spans = true ->
    aligned audio tone last spans = slice audio last (len audio).
Proof.
  induction spans as [|sp rest IH]; intros last Hl Hm Hn.
  - simpl. now apply trailing_slice.
  - apply monotone_cons in Hm. destruct Hm as (H1 & H2 & Hm).
    simpl in Hn. apply andb_true_iff in Hn. destruct Hn as [Ht Hn].
    apply negb_true_iff in Ht.
    simpl. rewrite Ht, gap_slice by lia.
    rewrite IH by (trivial; lia).
    assert (0 <= len audio) by (unfold len; lia).
    rewrite (slice_app audio (span_start sp)) by lia.
    apply slice_app; lia.
Qed.

Lemma toxic_count_cons sp rest :
  toxic_count (sp :: rest)
  = (if span_toxic sp then 1 else 0) + toxic_count rest.
Proof.
  unfold toxic_count. cbn [filter].
  destruct (span_toxic sp); cbn [List.length]; lia.
Qed.

Lemma aligned_length audio tone spans :
  forall last,
    0 <= last -> monotone last spans = true ->
    len (aligned audio tone last spans) + toxic_duration audio spans
    = len audio - Z.min last (len audio) + toxic_count spans * len tone.
Proof.
  induction spans as [|sp rest IH]; intros last Hl Hm.
  - simpl. rewrite trailing_slice by lia.
    assert (0 <= len audio) by (unfold len; lia).
    rewrite len_slice by lia. unfold toxic_count. simpl. lia.
  - apply monotone_cons in Hm. destruct Hm as (H1 & H2 & Hm).
    specialize (IH (span_end sp) ltac:(lia) Hm).
    simpl. rewrite gap_slice by lia.
    rewrite toxic_count_cons, !len_app, len_slice by lia.
    rewrite Z.mul_add_distr_r.
    destruct (span_toxic sp); rewrite len_slice by lia; lia.
Qed.

Lemma aligned_all_toxic audio tone spans :
  forall last,
    all_toxic spans = true ->
    aligned audio tone last spans = gaps_and_tones audio tone last spans.
Proof.
  induction spans as [|sp rest IH]; intros last Ha; [reflexivity|].
  simpl in Ha. apply andb_true_iff in Ha. destruct Ha as [Ht Ha].
  simpl. now rewrite Ht, IH.
Qed.

Lemma gaps_and_tones_covering audio tone spans :
  forall last,
    covering audio last spans = true ->
    gaps_and_tones audio tone last spans
    = concat (repeat tone (List.length spans)).
Proof.
  induction spans as [|sp rest IH]; intros last Hc; simpl in Hc.
  - apply Z.leb_le in Hc. simpl. rewrite Z.gtb_ltb.
    destruct (Z.ltb_spec last (len audio)); [lia|reflexivity].
  - rewrite !andb_true_iff in Hc. destruct Hc as [[H1 H2] Hc].
    apply Z.eqb_eq in H1. simpl. rewrite H1, Z.gtb_ltb, Z.ltb_irrefl.
    simpl. now rewrite (IH _ Hc).
Qed.

(** ** Magnitude of rounded floats *)

Lemma digits2_spec (p : positive) :
  2 ^ (Zpos (digits2_pos p) - 1) <= Zpos p < 2 ^ Zpos (digits2_pos p).
Proof.
  induction p as [p IH|p IH|]; cbn [digits2_pos].
  - rewrite Pos2Z.inj_succ. change (Zpos p~1) with (2 * Zpos p + 1).
    set (d := Zpos (digits2_pos p)) in *.
    replace (Z.succ d - 1) with (Z.succ (d - 1)) by lia.
    rewrite (Z.pow_succ_r 2 d), (Z.pow_succ_r 2 (d - 1)) by lia. lia.
  - rewrite Pos2Z.inj_succ. change (Zpos p~0) with (2 * Zpos p).
    set (d := Zpos (digits2_pos p)) in *.
    replace (Z.succ d - 1) with (Z.succ (d - 1)) by lia.
          rewrite (Z.pow_succ_r 2 d), (Z.pow_succ_r 2 (d - 1)) by lia. lia.
  - simpl. lia.
Qed.

Lemma Zdigits2_nonneg m : 0 <= Zdigits2 m.
Proof. destruct m; simpl; lia. Qed.

Lemma Zdigits2_le m k : 0 <= m < 2 ^ k -> 0 <= k -> Zdigits2 m <= k.
Proof.
  intros [H0 H1] Hk. destruct m as [|p|p]; simpl; [lia| |lia].
  destruct (digits2_spec p) as [Hlo _].
  assert (2 ^ (Zpos (digits2_pos p) - 1) < 2 ^ k) as H by lia.
  apply Z.pow_lt_mono_r_iff in H; lia.
Qed.

Lemma Zdigits2_lt_pow m : 0 <= m -> m < 2 ^ Zdigits2 m.
Proof.
  intros H. destruct m as [|p|p]; simpl; [lia| |lia].
  apply digits2_spec.
Qed.

Lemma shr_1_shifted d k x : shifted d k x -> shifted d (k + 1) (shr_1 x).
Proof.
  unfold shifted. destruct x as [m r s]. cbn [shr_m].
  intros [H0 H1]. destruct m as [|[p|p|]|p]; cbn [shr_1 shr_m]; try lia.
  - split; [lia|]. right. destruct H1 as [H1|H1]; [lia|].
    cbn [Zdigits2 digits2_pos] in *. lia.
  - split; [lia|]. right. destruct H1 as [H1|H1]; [lia|].
    cbn [Zdigits2 digits2_pos] in *. lia.
Qed.

Lemma iter_pos_shifted d (p : positive) :
  forall k x, shifted d k x -> shifted d (k + Zpos p) (iter_pos shr_1 p x).
Proof.
  induction p as [p IH|p IH|]; intros k x H; cbn [iter_pos].
  - replace (k + Zpos p~1) with (k + 1 + Zpos p + Zpos p) by lia.
    apply IH, IH, shr_1_shifted, H.
  - replace (k + Zpos p~0) with (k + Zpos p + Zpos p) by lia.
    apply IH, IH, H.
  - apply shr_1_shifted, H.
Qed.

Lemma shr_record_of_loc_m m l : shr_m (shr_record_of_loc m l) = m.
Proof. destruct l as [|[| |]]; reflexivity. Qed.

Lemma shr_shifted d x e n :
  shifted d 0 x ->
  shifted d (Z.max 0 n) (fst (shr x e n)) /\ snd (shr x e n) = e + Z.max 0 n.
Proof.
  intros H. unfold shr. destruct n as [|p|p]; cbn [fst snd].
  - split; [exact H|lia].
  - split; [|lia].
    replace (Z.max 0 (Zpos p)) with (0 + Zpos p) by lia.
    now apply iter_pos_shifted.
  - split; [exact H|lia].
Qed.

Lemma round_nearest_even_bound m l :
  0 <= m ->
  0 <= round_nearest_even m l /\
  Zdigits2 (round_nearest_even m l) <= Zdigits2 m + 1.
Proof.
  intros H.
  assert (Zdigits2 (m + 1) <= Zdigits2 m + 1) as Hs.
  { pose proof (Zdigits2_nonneg m). pose proof (Zdigits2_lt_pow m H).
    apply Zdigits2_le; [|lia].
    rewrite Z.pow_add_r, Z.pow_1_r by lia. lia. }
  unfold round_nearest_even.
  destruct l as [|[| |]]; try (split; lia).
  destruct (Z.even m); split; lia.
Qed.

(** Rounding a non-negative mantissa below [2^k] gives zero or a finite
    float of the given sign, at most [2^k]: no overflow while [k] is far
    from the largest exponent. *)
Lemma binary_round_aux_bounded sx mx ex lx k :
  0 <= mx -> Zdigits2 mx + ex <= k -> -1074 <= k <= 960 ->
  match binary_round_aux prec emax sx mx ex lx with
  | S754_zero s => s = sx
  | S754_finite s m e => s = sx /\ Zpos (digits2_pos m) + e <= k + 1
  | _ => False
  end.
Proof.
  intros H0 Hk Hb. unfold binary_round_aux, shr_fexp.
  pose proof (Zdigits2_nonneg mx) as Hd.
  set (n1 := fexp prec emax (Zdigits2 mx + ex) - ex).
  assert (shifted (Zdigits2 mx) 0 (shr_record_of_loc mx lx)) as Hi.
  { unfold shifted. rewrite shr_record_of_loc_m. split; [lia|right; lia]. }
  destruct (shr_shifted _ _ ex n1 Hi) as [[Hm1 Hs1] He1].
  destruct (shr (shr_record_of_loc mx lx) ex n1) as [mrs1 e1].
  cbn [fst snd] in Hm1, Hs1, He1.
  destruct (round_nearest_even_bound (shr_m mrs1) (loc_of_shr_record mrs1) Hm1)
    as [Hm2 Hd2].
  set (m2 := round_nearest_even (shr_m mrs1) (loc_of_shr_record mrs1)) in *.
  set (n2 := fexp prec emax (Zdigits2 m2 + e1) - e1).
  assert (shifted (Zdigits2 m2) 0 (shr_record_of_loc m2 loc_Exact)) as Hj.
  { unfold shifted. rewrite shr_record_of_loc_m. split; [lia|right; lia]. }
  destruct (shr_shifted _ _ e1 n2 Hj) as [[Hm3 Hs3] He3].
  destruct (shr (shr_record_of_loc m2 loc_Exact) e1 n2) as [mrs2 e2].
  cbn [fst snd] in Hm3, Hs3, He3.
  pose proof (Zdigits2_nonneg (shr_m mrs1)) as Hd1.
  assert (Zdigits2 (shr_m mrs1) + e1 <= k /\ e1 <= k) as [Ha Hb1].
  { subst n1. unfold fexp, emin, prec, emax in *.
    assert (Zdigits2 (shr_m mrs1) = 0 \/
            Zdigits2 (shr_m mrs1) + Z.max 0 (Z.max (Zdigits2 mx + ex - 53) (3 - 1024 - 53) - ex) <= Zdigits2 mx) as Hc.
    { destruct Hs1 as [Hs1|Hs1]; [left; now rewrite Hs1|right; exact Hs1]. }
    lia. }
  destruct (shr_m mrs2) as [|m|m] eqn:Em; [reflexivity| |lia].
  assert (Zpos (digits2_pos m) + e2 <= k + 1 /\ e2 <= emax - prec) as [Hr He].
  { subst n2. unfold fexp, emin, prec, emax in *.
    destruct Hs3 as [Hs3|Hs3]; [discriminate|].
    cbn [Zdigits2] in Hs3. lia. }
  apply Z.leb_le in He. rewrite He. split; [reflexivity|exact Hr].
Qed.

Lemma digits2_iter_xO m (d : positive) :
  Zpos (digits2_pos (Pos.iter xO m d)) = Zpos (digits2_pos m) + Zpos d.
Proof.
  induction d as [|d IH] using Pos.peano_ind.
  - cbn [Pos.iter digits2_pos]. lia.
  - rewrite Pos.iter_succ. cbn [digits2_pos]. lia.
Qed.

Lemma shl_align_digits mx ex ex' :
  Zpos (digits2_pos (fst (shl_align mx ex ex'))) + snd (shl_align mx ex ex')
  = Zpos (digits2_pos mx) + ex.
Proof.
  unfold shl_align. destruct (ex' - ex) as [|d|d] eqn:E; cbn [fst snd]; try lia.
  rewrite digits2_iter_xO. lia.
Qed.

Lemma rounded_small sx mx ex lx k :
  sx = false -> 0 <= mx -> Zdigits2 mx + ex <= k -> -1074 <= k <= 960 ->
  small_nonneg (k + 1) (binary_round_aux prec emax sx mx ex lx).
Proof.
  intros -> H0 Hk Hb.
  pose proof (binary_round_aux_bounded false mx ex lx k H0 Hk Hb) as H.
  destruct (binary_round_aux prec emax false mx ex lx) as [s|s| |s m e];
    cbn [small_nonneg]; try tauto.
  destruct H as [-> H]. exact H.
Qed.

Lemma float_of_int_small i :
  0 <= i < 2 ^ 63 ->
  exists f, float_of_int i = Ok f /\ small_nonneg 64 f.
Proof.
  intros Hi. unfold float_of_int, binary_normalize.
  destruct i as [|p|p]; [now exists (S754_zero false)| |lia].
  unfold binary_round.
  pose proof (shl_align_digits p 0 (fexp prec emax (Zpos (digits2_pos p) + 0))) as Ha.
  destruct (shl_align p 0 (fexp prec emax (Zpos (digits2_pos p) + 0))) as [mz ez].
  cbn [fst snd] in Ha.
  assert (Zdigits2 (Zpos p) <= 63) as Hd by (apply Zdigits2_le; lia).
  cbn [Zdigits2] in Hd.
  pose proof (rounded_small false (Zpos mz) ez loc_Exact 63 eq_refl) as H.
  cbn [Zdigits2] in H. specialize (H ltac:(lia) ltac:(lia) ltac:(lia)).
  destruct (binary_round_aux prec emax false (Zpos mz) ez loc_Exact) as [s|s| |s m e];
    cbn [small_nonneg] in H; try tauto; eexists; split; try reflexivity; exact H.
Qed.

Lemma div_core_bound m1 m2 :
  0 < m1 -> 0 < m2 ->
  0 <= fst (fst (SFdiv_core_binary prec emax m1 0 m2 0)) /\
  Zdigits2 (fst (fst (SFdiv_core_binary prec emax m1 0 m2 0)))
  + snd (fst (SFdiv_core_binary prec emax m1 0 m2 0)) <= Zdigits2 m1.
Proof.
  intros H1 H2. unfold SFdiv_core_binary. cbv zeta.
  set (e' := Z.min (fexp prec emax (Zdigits2 m1 + 0 - (Zdigits2 m2 + 0))) (0 - 0)).
  assert (e' <= 0) as He by (subst e'; lia).
  set (m' := match 0 - 0 - e' with
             | 0 => m1
             | Zpos _ => Z.shiftl m1 (0 - 0 - e')
             | Zneg _ => 0
             end).
  pose proof (Zdigits2_nonneg m1) as Hd.
  pose proof (Zdigits2_lt_pow m1 ltac:(lia)) as Hp.
  assert (0 <= m' < 2 ^ (Zdigits2 m1 - e')) as Hm.
  { subst m'. destruct (0 - 0 - e') as [|s|s] eqn:Es.
    - replace e' with 0 by lia. rewrite Z.sub_0_r. lia.
    - rewrite Z.shiftl_mul_pow2 by lia.
      replace (Zdigits2 m1 - e') with (Zdigits2 m1 + Zpos s) by lia.
      rewrite Z.pow_add_r by lia.
      assert (0 < 2 ^ Zpos s) by (apply Z.pow_pos_nonneg; lia).
      nia.
    - lia. }
  destruct (Z.div_eucl m' m2) as [q r] eqn:E. cbn [fst snd].
  assert (q = m' / m2) as -> by (unfold Z.div; now rewrite E).
  assert (0 <= m' / m2) as Hq by (apply Z.div_pos; lia).
  assert (m' / m2 <= m') as Hle.
  { apply Z.div_le_upper_bound; [lia|nia]. }
  split; [exact Hq|].
  assert (Zdigits2 (m' / m2) <= Zdigits2 m1 - e'); [|lia].
  apply Zdigits2_le; lia.
Qed.

Lemma int_truediv_small a b :
  0 <= a < 2 ^ 63 -> 0 < b ->
  exists d, int_truediv a b = Ok d /\ small_nonneg 64 d.
Proof.
  intros Ha Hb. unfold int_truediv.
  destruct (Z.eqb_spec b 0); [lia|].
  replace (a <? 0) with false by (symmetry; apply Z.ltb_ge; lia).
  replace (b <? 0) with false by (symmetry; apply Z.ltb_ge; lia).
  cbn [xorb].
  destruct (Z.eqb_spec a 0); [now exists (S754_zero false)|].
  rewrite !Z.abs_eq by lia.
  destruct (div_core_bound a b ltac:(lia) Hb) as [Hq Hd].
  destruct (SFdiv_core_binary prec emax a 0 b 0) as [[mz ez] lz].
  cbn [fst snd] in Hq, Hd.
  assert (Zdigits2 a <= 63) as Hda by (apply Zdigits2_le; lia).
  pose proof (rounded_small false mz ez lz 63 eq_refl Hq ltac:(lia) ltac:(lia)) as H.
  destruct (binary_round_aux prec emax false mz ez lz) as [s|s| |s m e];
    cbn [small_nonneg] in H; try tauto; eexists; split; try reflexivity; exact H.
Qed.

Lemma SFmul_small f g :
  small_nonneg 64 f -> small_nonneg 64 g ->
  small_nonneg 129 (SFmul prec emax f g).
Proof.
  intros Hf Hg.
  destruct f as [sf|sf| |sf mf ef], g as [sg|sg| |sg mg eg];
    cbn [small_nonneg SFmul] in *; try tauto.
  destruct sf, sg; try tauto. cbn [xorb].
  change 129 with (128 + 1).
  apply rounded_small; [reflexivity|lia| |lia].
  assert (Zdigits2 (Zpos (mf * mg))
          <= Zpos (digits2_pos mf) + Zpos (digits2_pos mg)); [|lia].
  apply Zdigits2_le; [|lia].
  rewrite Z.pow_add_r by lia.
  pose proof (digits2_spec mf). pose proof (digits2_spec mg).
  rewrite Pos2Z.inj_mul. nia.
Qed.

(** On such floats truncation and floor agree, and give a position that
    is not negative. *)
Lemma int_of_float_floor k f :
  small_nonneg k f ->
  exists z, int_of_float f = Ok z /\ py_floor f = Ok z /\ 0 <= z.
Proof.
  destruct f as [s|s| |s m e]; cbn [small_nonneg]; try tauto.
  - intros _. exists 0. repeat split; lia.
  - destruct s; [tauto|]. intros _.
    exists (Z.shiftl (Zpos m) e). cbn [int_of_float py_floor cond_Zopp].
    repeat split. apply Z.shiftl_nonneg. lia.
Qed.

Lemma boundary_floor i d :
  0 <= i < 2 ^ 63 -> small_nonneg 64 d ->
  exists z, boundary i d = Ok z /\ floor_boundary i d = Ok z /\ 0 <= z.
Proof.
  intros Hi Hd. unfold boundary, floor_boundary, py_mul.
  destruct (float_of_int_small i Hi) as (f & -> & Hf).
  cbn [py_int].
  exact (int_of_float_floor 129 _ (SFmul_small f d Hf Hd)).
Qed.

(** ** Rounding is monotone *)

Lemma shr_1_located m0 n x :
  0 <= n -> located m0 n x -> located m0 (n + 1) (shr_1 x).
Proof.
  intros Hn (H0 & rem & Hm & Hr & Hl).
  assert (0 < 2 ^ n) as HP by (apply Z.pow_pos_nonneg; lia).
  unfold located. rewrite Z.pow_add_r, Z.pow_1_r by lia.
  set (P := 2 ^ n) in *.
  destruct x as [m r s]. cbn [shr_m] in *.
  destruct m as [|[p|p|]|p]; try lia;
    destruct r, s; cbn [shr_1 shr_m loc_of_shr_record orb] in *;
    (split; [lia|]).
  all: try (exists rem; lia).
  all: try (exists (P + rem); lia).
Qed.

Lemma iter_pos_located m0 (p : positive) :
  forall n x, 0 <= n -> located m0 n x ->
              located m0 (n + Zpos p) (iter_pos shr_1 p x).
Proof.
  induction p as [p IH|p IH|]; intros n x Hn H; cbn [iter_pos].
  - replace (n + Zpos p~1) with (n + 1 + Zpos p + Zpos p) by lia.
    apply IH; [lia|]. apply IH; [lia|]. now apply shr_1_located.
  - replace (n + Zpos p~0) with (n + Zpos p + Zpos p) by lia.
    apply IH; [lia|]. now apply IH.
  - now apply shr_1_located.
Qed.

Lemma shr_located m e n :
  0 <= m ->
  located m (Z.max 0 n) (fst (shr (shr_record_of_loc m loc_Exact) e n)).
Proof.
  intros H.
  assert (located m 0 (shr_record_of_loc m loc_Exact)) as H0.
  { split; [exact H|]. exists 0. cbn. lia. }
  unfold shr. destruct n as [|p|p]; cbn [fst]; try exact H0.
  replace (Z.max 0 (Zpos p)) with (0 + Zpos p) by lia.
  apply iter_pos_located; [lia|exact H0].
Qed.

Lemma Zdigits2_unique m d :
  0 < m -> 2 ^ (d - 1) <= m < 2 ^ d -> Zdigits2 m = d.
Proof.
  intros Hm [Hlo Hhi].
  assert (0 <= d).
  { destruct (Z.le_gt_cases 0 d); [trivial|].
    rewrite Z.pow_neg_r in Hhi by lia. lia. }
  pose proof (Zdigits2_le m d ltac:(lia) ltac:(lia)).
  pose proof (Zdigits2_lt_pow m ltac:(lia)) as Hp.
  pose proof (Zdigits2_nonneg m).
  destruct (Z.eq_dec d 0) as [->|Hd]; [simpl in Hhi; lia|].
  assert (2 ^ (d - 1) < 2 ^ Zdigits2 m) as Hlt by lia.
  apply Z.pow_lt_mono_r_iff in Hlt; lia.
Qed.

Lemma Zdigits2_pos_spec m :
  0 < m -> 2 ^ (Zdigits2 m - 1) <= m < 2 ^ Zdigits2 m.
Proof.
  intros H. destruct m as [|p|p]; try lia. apply digits2_spec.
Qed.

Lemma Zdigits2_succ q :
  0 < q ->
  Zdigits2 (q + 1) = Zdigits2 q \/
  (Zdigits2 (q + 1) = Zdigits2 q + 1 /\ q + 1 = 2 ^ Zdigits2 q).
Proof.
  intros Hq. pose proof (Zdigits2_pos_spec q Hq) as [Hlo Hhi].
  assert (0 < Zdigits2 q) by (destruct q; simpl; lia).
  destruct (Z.eq_dec (q + 1) (2 ^ Zdigits2 q)) as [E|E].
  - right. split; [|exact E]. apply Zdigits2_unique; [lia|].
    replace (Zdigits2 q + 1 - 1) with (Zdigits2 q) by lia.
    rewrite Z.pow_add_r, Z.pow_1_r by lia. lia.
  - left. apply Zdigits2_unique; lia.
Qed.

Lemma fexp_le a b : a <= b -> fexp prec emax a <= fexp prec emax b.
Proof. unfold fexp, emin, prec, emax. lia. Qed.

Lemma fexp_succ a : fexp prec emax (a + 1) <= fexp prec emax a + 1.
Proof. unfold fexp, emin, prec, emax. lia. Qed.

Lemma fexp_small a e :
  fexp prec emax a <= e -> fexp prec emax (1 + e) <= e.
Proof. unfold fexp, emin, prec, emax. lia. Qed.

Lemma round_nearest_even_cases q l :
  round_nearest_even q l = q \/ round_nearest_even q l = q + 1.
Proof.
  unfold round_nearest_even. destruct l as [|[| |]]; auto.
  destruct (Z.even q); auto.
Qed.

Lemma digits_after_round q m2 a b :
  0 <= q -> (q = 0 \/ Zdigits2 q + a <= b) ->
  fexp prec emax b <= a ->
  m2 = q \/ m2 = q + 1 ->
  fexp prec emax (Zdigits2 m2 + a) <= a \/
  (fexp prec emax (Zdigits2 m2 + a) = a + 1 /\ Z.even m2 = true).
Proof.
  intros Hq Hd Hf Hm.
  destruct (Z.eq_dec q 0) as [->|Hq0].
  - left. destruct Hm as [->| ->];
      [change (Zdigits2 0) with 0|change (Zdigits2 (0 + 1)) with 1];
      revert Hf; unfold fexp, emin, prec, emax; lia.
  - destruct Hd as [Hd|Hd]; [lia|].
    destruct Hm as [->| ->].
    + left. pose proof (fexp_le (Zdigits2 q + a) b Hd). lia.
    + destruct (Zdigits2_succ q ltac:(lia)) as [E|[E Hp]]; rewrite E.
      * left. pose proof (fexp_le (Zdigits2 q + a) b Hd). lia.
      * pose proof (fexp_le (Zdigits2 q + a + 1) (b + 1) ltac:(lia)).
        pose proof (fexp_succ b).
        replace (Zdigits2 q + 1 + a) with (Zdigits2 q + a + 1) by lia.
        destruct (Z.le_gt_cases (fexp prec emax (Zdigits2 q + a + 1)) a);
          [left; lia|right].
        split; [lia|]. rewrite Hp.
        assert (0 < Zdigits2 q) by (destruct q; simpl; lia).
        rewrite Z.even_pow by lia. reflexivity.
Qed.

Lemma round_first mx ex c :
  0 <= mx -> c <= ex -> c <= fexp prec emax (Zdigits2 mx + ex) ->
  exists m2,
    m2 = round_nearest_even
           (shr_m (fst (shr_fexp prec emax mx ex loc_Exact)))
           (loc_of_shr_record (fst (shr_fexp prec emax mx ex loc_Exact))) /\
    snd (shr_fexp prec emax mx ex loc_Exact)
    = Z.max ex (fexp prec emax (Zdigits2 mx + ex)) /\
    0 <= m2 /\
    rne_to (2 ^ (fexp prec emax (Zdigits2 mx + ex) - c)) (mx * 2 ^ (ex - c))
           (m2 * 2 ^ (Z.max ex (fexp prec emax (Zdigits2 mx + ex)) - c)) /\
    (fexp prec emax (Zdigits2 m2 + Z.max ex (fexp prec emax (Zdigits2 mx + ex)))
     <= Z.max ex (fexp prec emax (Zdigits2 mx + ex)) \/
     (fexp prec emax (Zdigits2 m2 + Z.max ex (fexp prec emax (Zdigits2 mx + ex)))
      = Z.max ex (fexp prec emax (Zdigits2 mx + ex)) + 1 /\
      Z.even m2 = true)).
Proof.
  intros H0 Hc1 Hc2. unfold shr_fexp.
  set (F := fexp prec emax (Zdigits2 mx + ex)) in *.
  set (n1 := F - ex).
  pose proof (Zdigits2_nonneg mx) as Hd.
  destruct (shr_located mx ex n1 H0) as (Hq & rem & Hm & Hr & Hl).
  assert (shifted (Zdigits2 mx) 0 (shr_record_of_loc mx loc_Exact)) as Hi.
  { unfold shifted. rewrite shr_record_of_loc_m. split; [lia|right; lia]. }
  destruct (shr_shifted _ _ ex n1 Hi) as [[_ Hs] He].
  destruct (shr (shr_record_of_loc mx loc_Exact) ex n1) as [x1 e1].
  cbn [fst snd] in *.
  eexists. split; [reflexivity|].
  pose proof (round_nearest_even_bound (shr_m x1) (loc_of_shr_record x1) Hq)
    as [Hm2 _].
  pose proof (round_nearest_even_cases (shr_m x1) (loc_of_shr_record x1)) as Hcases.
  set (m2 := round_nearest_even (shr_m x1) (loc_of_shr_record x1)) in *.
  set (q := shr_m x1) in *.
  assert (e1 = Z.max ex F) as -> by (subst n1; lia).
  split; [reflexivity|]. split; [exact Hm2|].
  split.
  - destruct (Z.le_gt_cases n1 0) as [Hn|Hn].
    + (* no shift: the mantissa is kept *)
      rewrite Z.max_l in Hm, Hr, Hl by lia. rewrite Z.pow_0_r in *.
      assert (rem = 0) as -> by lia.
      assert (m2 = mx) as ->.
      { subst m2. destruct (loc_of_shr_record x1) as [|[| |]];
          cbn [round_nearest_even]; lia. }
      rewrite Z.max_l by (subst n1; lia).
      exists (mx * 2 ^ (ex - F)), 0.
      assert (0 < 2 ^ (F - c)) by (apply Z.pow_pos_nonneg; lia).
      assert (0 <= 2 ^ (ex - F)) by (apply Z.pow_nonneg; lia).
      replace (ex - c) with ((ex - F) + (F - c)) by lia.
      rewrite Z.pow_add_r by (subst n1; lia).
      repeat split; try lia; try nia.
    + (* a shift by [n1] *)
      rewrite Z.max_r in Hm, Hr, Hl by lia.
      rewrite Z.max_r by (subst n1; lia).
      exists q, (rem * 2 ^ (ex - c)).
      assert (0 < 2 ^ (ex - c)) as HS by (apply Z.pow_pos_nonneg; lia).
      replace (F - c) with (n1 + (ex - c)) by (subst n1; lia).
      rewrite Z.pow_add_r by lia.
      set (S := 2 ^ (ex - c)) in *. set (T := 2 ^ n1) in *.
      split; [rewrite Hm; ring|]. split; [nia|]. split; [lia|].
      subst m2. destruct (loc_of_shr_record x1) as [|[| |]];
        cbn [round_nearest_even].
      * left. split; [nia|reflexivity].
      * right. right. split; [nia|reflexivity].
      * left. split; [nia|reflexivity].
      * right. left. split; [nia|reflexivity].
  - apply (digits_after_round q m2 (Z.max ex F) (Z.max (Zdigits2 mx + ex) (Z.max ex F + 0))).
    + exact Hq.
    + destruct Hs as [Hs|Hs]; [left; exact Hs|right]. subst n1. lia.
    + subst F. unfold fexp, emin, prec, emax. lia.
    + exact Hcases.
Qed.

Lemma second_shift_exact m2 e1 :
  0 <= m2 ->
  (fexp prec emax (Zdigits2 m2 + e1) <= e1 \/
   (fexp prec emax (Zdigits2 m2 + e1) = e1 + 1 /\ Z.even m2 = true)) ->
  0 <= shr_m (fst (shr_fexp prec emax m2 e1 loc_Exact)) /\
  e1 <= snd (shr_fexp prec emax m2 e1 loc_Exact) /\
  shr_m (fst (shr_fexp prec emax m2 e1 loc_Exact))
  * 2 ^ (snd (shr_fexp prec emax m2 e1 loc_Exact) - e1) = m2.
Proof.
  intros H0 [H|[H He]]; unfold shr_fexp, shr.
  - destruct (fexp prec emax (Zdigits2 m2 + e1) - e1) as [|p|p] eqn:E;
      try lia; cbn [fst snd shr_record_of_loc shr_m];
      rewrite Z.sub_diag; simpl; lia.
  - replace (fexp prec emax (Zdigits2 m2 + e1) - e1) with 1 by lia.
    cbn [iter_pos fst snd shr_record_of_loc].
    replace (e1 + 1 - e1) with 1 by lia.
    destruct m2 as [|[p|p|]|p]; try discriminate; try lia;
      cbn [shr_1 shr_m]; lia.
Qed.

(** The float a non-negative exact mantissa rounds to, as an integer
    rounding on any scale [2^c] fine enough for the input and the
    result. *)
Lemma round_exact_rne mx ex k c :
  0 <= mx -> Zdigits2 mx + ex <= k -> -1074 <= k <= 960 ->
  c <= ex -> c <= fexp prec emax (Zdigits2 mx + ex) ->
  exists m e,
    represents (binary_round_aux prec emax false mx ex loc_Exact) m e /\
    c <= e /\
    rne_to (2 ^ (fexp prec emax (Zdigits2 mx + ex) - c))
           (mx * 2 ^ (ex - c)) (m * 2 ^ (e - c)).
Proof.
  intros H0 Hk Hb Hc1 Hc2.
  pose proof (binary_round_aux_bounded false mx ex loc_Exact k H0 Hk Hb) as Hbd.
  destruct (round_first mx ex c H0 Hc1 Hc2) as (m2 & Em2 & He1 & Hm2 & Hrne & Hex).
  unfold binary_round_aux in *.
  destruct (shr_fexp prec emax mx ex loc_Exact) as [x1 e1].
  cbn [fst snd] in Em2, He1. rewrite <- Em2 in *. subst e1.
  set (E := Z.max ex (fexp prec emax (Zdigits2 mx + ex))) in *.
  destruct (second_shift_exact m2 E Hm2 Hex) as (Hm & He & Hval).
  destruct (shr_fexp prec emax m2 E loc_Exact) as [x2 e2].
  cbn [fst snd] in Hm, He, Hval.
  exists (shr_m x2), e2.
  assert (shr_m x2 * 2 ^ (e2 - c) = m2 * 2 ^ (E - c)) as Hsame.
  { replace (e2 - c) with ((e2 - E) + (E - c)) by lia.
    rewrite Z.pow_add_r by lia. rewrite Z.mul_assoc, Hval. reflexivity. }
  rewrite Hsame. split; [|split; [lia|exact Hrne]].
  destruct (shr_m x2) as [|p|p]; [left; split; [now eexists|reflexivity]| |lia].
  right. exists p. destruct (e2 <=? emax - prec); [now split|contradiction].
Qed.

Lemma val_le_scale m1 e1 m2 e2 c :
  c <= e1 -> c <= e2 ->
  (val_le m1 e1 m2 e2 <-> m1 * 2 ^ (e1 - c) <= m2 * 2 ^ (e2 - c)).
Proof.
  intros H1 H2. unfold val_le. set (mn := Z.min e1 e2).
  replace (e1 - c) with ((e1 - mn) + (mn - c)) by lia.
  replace (e2 - c) with ((e2 - mn) + (mn - c)) by lia.
  rewrite !Z.pow_add_r by lia.
  assert (0 < 2 ^ (mn - c)) by (apply Z.pow_pos_nonneg; lia).
  rewrite !Z.mul_assoc. split; intros H3; nia.
Qed.

Lemma rne_to_bounds P X R :
  0 < P -> rne_to P X R ->
  exists Q r, X = Q * P + r /\ 0 <= r < P /\ 0 <= Q /\
              Q * P <= R <= (Q + 1) * P /\
              (r = 0 -> R = Q * P) /\
              (R = Q * P -> 2 * r <= P) /\ (R = (Q + 1) * P -> P <= 2 * r) /\
              (R = Q * P \/ R = (Q + 1) * P) /\
              (2 * r = P -> R = (if Z.even Q then Q else Q + 1) * P).
Proof.
  intros HP (Q & r & HX & Hr & HQ & Hc). exists Q, r.
  repeat split; try lia;
    destruct Hc as [[? ->]|[[? ->]|[? ->]]]; destruct (Z.even Q); try nia;
      auto; try (intros; lia).
Qed.

Lemma rne_to_mono P X Y R S :
  0 < P -> X <= Y -> rne_to P X R -> rne_to P Y S -> R <= S.
Proof.
  intros HP Hle HX HY.
  destruct (rne_to_bounds P X R HP HX)
    as (Qx & rx & EX & Hrx & HQx & HRx & _ & Hdx & Hux & Hcx & Htx).
  destruct (rne_to_bounds P Y S HP HY)
    as (Qy & ry & EY & Hry & HQy & HRy & _ & Hdy & Huy & Hcy & Hty).
  assert (Qx <= Qy) as HQ by nia.
  destruct (Z.eq_dec Qx Qy) as [->|Hne].
  - assert (rx <= ry) by nia.
    destruct Hcx as [Hx|Hx], Hcy as [Hy|Hy]; lia.
  - nia.
Qed.

Lemma rne_to_multiple P N : 0 < P -> 0 <= N -> rne_to P (N * P) (N * P).
Proof.
  intros HP HN. exists N, 0. repeat split; lia.
Qed.

Lemma represents_nonneg f m e : represents f m e -> 0 <= m.
Proof. intros [[_ ->]|(p & _ & ->)]; lia. Qed.

Lemma fexp_eq a : fexp prec emax a = Z.max (a - 53) (-1074).
Proof. reflexivity. Qed.

Lemma rne_to_exact P N R : 0 < P -> 0 <= N -> rne_to P (N * P) R -> R = N * P.
Proof.
  intros HP HN H.
  destruct (rne_to_bounds P (N * P) R HP H)
    as (Q & r & EX & Hr & HQ & _ & Hz & _).
  assert (Q = N) as ->.
  { destruct (Z.lt_trichotomy Q N) as [Hlt|[Heq|Hgt]]; [|exact Heq|].
    - assert ((Q + 1) * P <= N * P) by nia. lia.
    - assert ((N + 1) * P <= Q * P) by nia. lia. }
  apply Hz. lia.
Qed.

(** A positive mantissa on the scale [2^c] lies in its binade. *)
Lemma binade_scaled m e c :
  0 < m -> c <= e ->
  2 ^ (Zdigits2 m + e - 1 - c) <= m * 2 ^ (e - c) < 2 ^ (Zdigits2 m + e - c).
Proof.
  intros Hm Hc. pose proof (Zdigits2_pos_spec m Hm) as [Hlo Hhi].
  assert (0 < Zdigits2 m) as Hd by (destruct m; simpl; lia).
  replace (Zdigits2 m + e - 1 - c) with ((Zdigits2 m - 1) + (e - c)) by lia.
  replace (Zdigits2 m + e - c) with (Zdigits2 m + (e - c)) by lia.
  rewrite !Z.pow_add_r by lia.
  assert (0 < 2 ^ (e - c)) as HS by (apply Z.pow_pos_nonneg; lia).
  revert Hlo Hhi HS.
  generalize (2 ^ (Zdigits2 m - 1)) (2 ^ Zdigits2 m) (2 ^ (e - c)).
  intros a b s Hlo Hhi HS. split.
  - apply Z.mul_le_mono_nonneg_r; lia.
  - apply Z.mul_lt_mono_pos_r; lia.
Qed.

Lemma pow2_lt_inv a b : 2 ^ a < 2 ^ b -> 0 <= a -> a < b.
Proof.
  intros H Ha. destruct (Z.lt_ge_cases a b) as [Hlt|Hge]; [exact Hlt|].
  exfalso. assert (2 ^ b <= 2 ^ a); [|lia].
  destruct (Z.le_gt_cases 0 b) as [Hb|Hb].
  - apply Z.pow_le_mono_r; lia.
  - rewrite (Z.pow_neg_r 2 b) by lia. apply Z.pow_nonneg. lia.
Qed.

Lemma pow2_multiple a b :
  0 <= b -> b <= a -> exists N, 0 <= N /\ 2 ^ a = N * 2 ^ b.
Proof.
  intros Hb Hab. exists (2 ^ (a - b)). split; [apply Z.pow_nonneg; lia|].
  rewrite <- Z.pow_add_r by lia. f_equal. lia.
Qed.

(** Rounding is monotone on exact non-negative inputs. *)
Lemma round_exact_mono mx ex my ey k :
  0 <= mx -> 0 <= my ->
  Zdigits2 mx + ex <= k -> Zdigits2 my + ey <= k -> -1074 <= k <= 960 ->
  val_le mx ex my ey ->
  exists m1 e1 m2 e2,
    represents (binary_round_aux prec emax false mx ex loc_Exact) m1 e1 /\
    represents (binary_round_aux prec emax false my ey loc_Exact) m2 e2 /\
    val_le m1 e1 m2 e2.
Proof.
  intros Hx Hy Hkx Hky Hk Hle.
  pose proof (fexp_eq (Zdigits2 mx + ex)) as HFx.
  pose proof (fexp_eq (Zdigits2 my + ey)) as HFy.
  set (Fx := fexp prec emax (Zdigits2 mx + ex)) in *.
  set (Fy := fexp prec emax (Zdigits2 my + ey)) in *.
  assert (exists c, c <= ex /\ c <= ey /\ c <= Fx /\ c <= Fy)
    as (c & Hcx & Hcy & HcFx & HcFy).
  { exists (Z.min (Z.min ex ey) (Z.min Fx Fy)). lia. }
  destruct (round_exact_rne mx ex k c Hx Hkx Hk Hcx HcFx)
    as (m1 & e1 & Hr1 & Hc1 & Hn1).
  destruct (round_exact_rne my ey k c Hy Hky Hk Hcy HcFy)
    as (m2 & e2 & Hr2 & Hc2 & Hn2).
  fold Fx in Hn1. fold Fy in Hn2.
  exists m1, e1, m2, e2. split; [exact Hr1|]. split; [exact Hr2|].
  apply (val_le_scale _ _ _ _ c); [exact Hc1|exact Hc2|].
  apply (val_le_scale _ _ _ _ c) in Hle; [|exact Hcx|exact Hcy].
  pose proof (represents_nonneg _ _ _ Hr2) as Hm2.
  assert (0 < 2 ^ (Fx - c)) as HPx by (apply Z.pow_pos_nonneg; lia).
  assert (0 < 2 ^ (Fy - c)) as HPy by (apply Z.pow_pos_nonneg; lia).
  assert (0 <= m2 * 2 ^ (e2 - c)) as HR2.
  { apply Z.mul_nonneg_nonneg; [exact Hm2|apply Z.pow_nonneg; lia]. }
  destruct (Z.eq_dec mx 0) as [E0|E0].
  - (* zero rounds to zero *)
    rewrite E0, Z.mul_0_l in Hn1.
    apply (rne_to_exact _ 0) in Hn1; [|exact HPx|lia].
    rewrite Hn1. exact HR2.
  - assert (0 < mx) as Hpx by lia.
    pose proof (binade_scaled mx ex c Hpx Hcx) as [HXlo HXhi].
    assert (0 < my) as Hpy.
    { destruct (Z.eq_dec my 0) as [E|E]; [|lia].
      rewrite E, Z.mul_0_l in Hle.
      assert (0 < 2 ^ (Zdigits2 mx + ex - 1 - c)); [|lia].
      apply Z.pow_pos_nonneg; [lia|].
      assert (0 < Zdigits2 mx) by (destruct mx; simpl; lia). lia. }
    pose proof (binade_scaled my ey c Hpy Hcy) as [HYlo HYhi].
    assert (0 < Zdigits2 mx) as Hdx by (destruct mx; simpl; lia).
    assert (0 < Zdigits2 my) as Hdy by (destruct my; simpl; lia).
    assert (Zdigits2 mx + ex <= Zdigits2 my + ey) as Hmag.
    { assert (Zdigits2 mx + ex - 1 - c < Zdigits2 my + ey - c); [|lia].
      apply pow2_lt_inv; lia. }
    destruct (Z.eq_dec Fx Fy) as [EF|NF].
    + rewrite <- EF in Hn2. exact (rne_to_mono _ _ _ _ _ HPx Hle Hn1 Hn2).
    + (* different binades: the power of two between them *)
      assert (Fx < Fy) as HF by lia.
      assert (Zdigits2 mx + ex <= Zdigits2 my + ey - 1) as Hmag1 by lia.
      assert (2 ^ (Zdigits2 mx + ex - c) <= 2 ^ (Zdigits2 my + ey - 1 - c)) as HB
        by (apply Z.pow_le_mono_r; lia).
      destruct (pow2_multiple (Zdigits2 my + ey - 1 - c) (Fx - c))
        as (Nx & HNx & ENx); [lia|lia|].
      destruct (pow2_multiple (Zdigits2 my + ey - 1 - c) (Fy - c))
        as (Ny & HNy & ENy); [lia|lia|].
      revert Hle Hn1 Hn2 HXhi HYlo HB ENx ENy HPx HPy.
      generalize (2 ^ (Zdigits2 my + ey - 1 - c)) (mx * 2 ^ (ex - c))
        (my * 2 ^ (ey - c)) (m1 * 2 ^ (e1 - c)) (m2 * 2 ^ (e2 - c))
        (2 ^ (Fx - c)) (2 ^ (Fy - c)) (2 ^ (Zdigits2 mx + ex - c)).
      intros B X Y R1 R2 Px Py U Hle Hn1 Hn2 HXhi HYlo HB ENx ENy HPx HPy.
      assert (R1 <= B).
      { apply (rne_to_mono Px X B R1 B HPx ltac:(lia) Hn1).
        rewrite ENx. now apply rne_to_multiple. }
      assert (B <= R2); [|lia].
      apply (rne_to_mono Py B Y B R2 HPy HYlo); [|exact Hn2].
      rewrite ENy. now apply rne_to_multiple.
Qed.

Lemma iter_xO_value m (d : positive) :
  Zpos (Pos.iter xO m d) = Zpos m * 2 ^ Zpos d.
Proof.
  induction d as [|d IH] using Pos.peano_ind.
  - cbn [Pos.iter]. rewrite Z.pow_1_r. lia.
  - rewrite Pos.iter_succ, Pos2Z.inj_succ, Z.pow_succ_r by lia.
    change (Zpos (Pos.iter xO m d)~0) with (2 * Zpos (Pos.iter xO m d)).
    rewrite IH. ring.
Qed.

Lemma shl_align_value mx ex ex' :
  snd (shl_align mx ex ex') <= ex /\
  Zpos (fst (shl_align mx ex ex'))
  = Zpos mx * 2 ^ (ex - snd (shl_align mx ex ex')).
Proof.
  unfold shl_align. destruct (ex' - ex) as [|d|d] eqn:E; cbn [fst snd].
  - rewrite Z.sub_diag. simpl. lia.
  - rewrite Z.sub_diag. simpl. lia.
  - split; [lia|]. rewrite iter_xO_value. f_equal. f_equal. lia.
Qed.

(** Conversion of integers to floats is monotone. *)
Lemma float_of_int_mono i j :
  0 <= i <= j -> j < 2 ^ 63 ->
  exists fi fj mi ei mj ej,
    float_of_int i = Ok fi /\ float_of_int j = Ok fj /\
    small_nonneg 64 fi /\ small_nonneg 64 fj /\
    represents fi mi ei /\ represents fj mj ej /\ val_le mi ei mj ej.
Proof.
  intros Hij Hj.
  destruct (float_of_int_small i ltac:(lia)) as (fi & Hfi & Hsi).
  destruct (float_of_int_small j ltac:(lia)) as (fj & Hfj & Hsj).
  exists fi, fj.
  assert (forall p, Zpos p < 2 ^ 63 ->
            exists mz ez,
              binary_normalize prec emax (Zpos p) 0 false
              = binary_round_aux prec emax false (Zpos mz) ez loc_Exact /\
              ez <= 0 /\ Zpos mz = Zpos p * 2 ^ (0 - ez) /\
              Zdigits2 (Zpos mz) + ez <= 63) as Hnorm.
  { intros p Hp. cbn [binary_normalize]. unfold binary_round.
    pose proof (shl_align_value p 0 (fexp prec emax (Zpos (digits2_pos p) + 0)))
      as [H1 H2].
    pose proof (shl_align_digits p 0 (fexp prec emax (Zpos (digits2_pos p) + 0)))
      as H3.
    destruct (shl_align p 0 (fexp prec emax (Zpos (digits2_pos p) + 0)))
      as [mz ez].
    cbn [fst snd] in *. exists mz, ez. repeat split; trivial.
    assert (Zdigits2 (Zpos p) <= 63) as Hd by (apply Zdigits2_le; lia).
    cbn [Zdigits2] in *. lia. }
  destruct i as [|pi|pi]; [|
    destruct j as [|pj|pj]; [lia| |lia] |lia].
  - (* zero is below everything *)
    assert (fi = S754_zero false) as -> by (cbv in Hfi; congruence).
    destruct j as [|pj|pj]; [| |lia].
    + assert (fj = S754_zero false) as -> by (cbv in Hfj; congruence).
      exists 0, 0, 0, 0. repeat split; trivial;
        try (left; split; [now eexists|reflexivity]).
      unfold val_le. lia.
    + destruct (Hnorm pj Hj) as (mz & ez & En & Hez & Hv & Hd).
      destruct (round_exact_rne (Zpos mz) ez 63 (Z.min ez (fexp prec emax (Zdigits2 (Zpos mz) + ez))))
        as (m & e & Hr & _ & _); try lia.
      assert (fj = binary_round_aux prec emax false (Zpos mz) ez loc_Exact) as ->.
      { pose proof Hfj as Hfj'. unfold float_of_int in Hfj'. rewrite En in Hfj'.
        destruct (binary_round_aux prec emax false (Zpos mz) ez loc_Exact);
          congruence. }
      exists 0, 0, m, e. repeat split; trivial;
        try (left; split; [now eexists|reflexivity]).
      pose proof (represents_nonneg _ _ _ Hr).
      unfold val_le.
      assert (0 <= 2 ^ (e - Z.min 0 e)) by (apply Z.pow_nonneg; lia). nia.
  - destruct (Hnorm pi ltac:(lia)) as (mzi & ezi & Eni & Hezi & Hvi & Hdi).
    destruct (Hnorm pj Hj) as (mzj & ezj & Enj & Hezj & Hvj & Hdj).
    destruct (round_exact_mono (Zpos mzi) ezi (Zpos mzj) ezj 63)
      as (m1 & e1 & m2 & e2 & Hr1 & Hr2 & Hle); try lia.
    { apply (val_le_scale _ _ _ _ (Z.min ezi ezj)); [lia|lia|].
      rewrite Hvi, Hvj. rewrite <- !Z.mul_assoc, <- !Z.pow_add_r by lia.
      replace (0 - ezi + (ezi - Z.min ezi ezj)) with (- Z.min ezi ezj) by lia.
      replace (0 - ezj + (ezj - Z.min ezi ezj)) with (- Z.min ezi ezj) by lia.
      assert (0 < 2 ^ (- Z.min ezi ezj)) by (apply Z.pow_pos_nonneg; lia).
      nia. }
    assert (fi = binary_round_aux prec emax false (Zpos mzi) ezi loc_Exact) as ->.
    { pose proof Hfi as Hfi'. unfold float_of_int in Hfi'. rewrite Eni in Hfi'.
      destruct (binary_round_aux prec emax false (Zpos mzi) ezi loc_Exact);
        congruence. }
    assert (fj = binary_round_aux prec emax false (Zpos mzj) ezj loc_Exact) as ->.
    { pose proof Hfj as Hfj'. unfold float_of_int in Hfj'. rewrite Enj in Hfj'.
      destruct (binary_round_aux prec emax false (Zpos mzj) ezj loc_Exact);
        congruence. }
    exists m1, e1, m2, e2. repeat split; trivial.
Qed.

Lemma val_le_zero m e e0 : 0 <= m -> val_le 0 e0 m e.
Proof.
  intros H. unfold val_le.
  assert (0 <= 2 ^ (e - Z.min e0 e)) by (apply Z.pow_nonneg; lia). nia.
Qed.

Lemma represents_zero s e : represents (S754_zero s) 0 e.
Proof. left. split; [now exists s|reflexivity]. Qed.

(** Multiplication by a fixed non-negative float is monotone. *)
Lemma SFmul_mono fi fj d mi ei mj ej :
  small_nonneg 64 fi -> small_nonneg 64 fj -> small_nonneg 64 d ->
  represents fi mi ei -> represents fj mj ej -> val_le mi ei mj ej ->
  exists a1 b1 a2 b2,
    represents (SFmul prec emax fi d) a1 b1 /\
    represents (SFmul prec emax fj d) a2 b2 /\
    val_le a1 b1 a2 b2.
Proof.
  intros Hsi Hsj Hsd Hri Hrj Hle.
  destruct d as [sd|sd| |sd md ed]; cbn [small_nonneg] in Hsd; try tauto.
  - (* times zero *)
    destruct fi as [si|si| |si pi xi], fj as [sj|sj| |sj pj xj];
      cbn [small_nonneg] in Hsi, Hsj; try tauto; cbn [SFmul];
      exists 0, 0, 0, 0; repeat split;
        try apply represents_zero; apply val_le_zero; lia.
  - destruct sd; [tauto|].
    assert (forall p x,
              Zpos (digits2_pos p) + x <= 64 ->
              Zdigits2 (Zpos (p * md)) + (x + ed) <= 128) as Hdig.
    { intros p x Hp.
      assert (Zdigits2 (Zpos (p * md))
              <= Zpos (digits2_pos p) + Zpos (digits2_pos md)); [|lia].
      apply Zdigits2_le; [|lia].
      rewrite Z.pow_add_r by lia.
      pose proof (digits2_spec p). pose proof (digits2_spec md).
      rewrite Pos2Z.inj_mul. nia. }
    destruct fi as [si|si| |si pi xi]; cbn [small_nonneg] in Hsi; try tauto.
    + (* zero times d *)
      destruct fj as [sj|sj| |sj pj xj]; cbn [small_nonneg] in Hsj; try tauto.
      * cbn [SFmul]. exists 0, 0, 0, 0. repeat split;
          try apply represents_zero. apply val_le_zero; lia.
      * destruct sj; [tauto|]. cbn [SFmul xorb].
        destruct (round_exact_rne (Zpos (pj * md)) (xj + ed) 128
                    (Z.min (xj + ed)
                       (fexp prec emax (Zdigits2 (Zpos (pj * md)) + (xj + ed)))))
          as (m & e & Hr & _ & _); try lia.
        { now apply Hdig. }
        exists 0, 0, m, e. repeat split; [apply represents_zero|exact Hr|].
        apply val_le_zero. exact (represents_nonneg _ _ _ Hr).
    + destruct si; [tauto|].
      destruct Hri as [[[s Hs] _]|(p & Hp & ->)]; [discriminate|].
      injection Hp as <- <-.
      destruct fj as [sj|sj| |sj pj xj]; cbn [small_nonneg] in Hsj; try tauto.
      * (* a positive float is not below zero *)
        destruct Hrj as [[_ ->]|(p & Hp & _)]; [|discriminate].
        exfalso. unfold val_le in Hle.
        assert (0 < 2 ^ (xi - Z.min xi ej)) by (apply Z.pow_pos_nonneg; lia).
        nia.
      * destruct sj; [tauto|].
        destruct Hrj as [[[s Hs] _]|(p & Hp & ->)]; [discriminate|].
        injection Hp as <- <-.
        cbn [SFmul xorb].
        apply (round_exact_mono _ _ _ _ 128); try lia;
          try (now apply Hdig).
        unfold val_le in *.
        replace (Z.min (xi + ed) (xj + ed)) with (Z.min xi xj + ed) by lia.
        replace (xi + ed - (Z.min xi xj + ed)) with (xi - Z.min xi xj) by lia.
        replace (xj + ed - (Z.min xi xj + ed)) with (xj - Z.min xi xj) by lia.
        rewrite !Pos2Z.inj_mul. nia.
Qed.

Lemma shiftl_scaled m e c :
  c <= e -> c <= 0 -> Z.shiftl m e = (m * 2 ^ (e - c)) / 2 ^ (- c).
Proof.
  intros H1 H2.
  assert (0 < 2 ^ (- c)) by (apply Z.pow_pos_nonneg; lia).
  destruct (Z.le_gt_cases 0 e) as [He|He].
  - rewrite Z.shiftl_mul_pow2 by lia.
    replace (e - c) with (e + - c) by lia.
    rewrite Z.pow_add_r, Z.mul_assoc, Z.div_mul by lia. reflexivity.
  - rewrite Z.shiftl_div_pow2 by lia.
    replace (- c) with (- e + (e - c)) by lia.
    rewrite Z.pow_add_r by lia.
    assert (0 < 2 ^ (e - c)) by (apply Z.pow_pos_nonneg; lia).
    rewrite Z.div_mul_cancel_r by lia. reflexivity.
Qed.

Lemma shiftl_mono m1 e1 m2 e2 :
  val_le m1 e1 m2 e2 -> Z.shiftl m1 e1 <= Z.shiftl m2 e2.
Proof.
  intros H. set (c := Z.min (Z.min e1 e2) 0).
  apply (val_le_scale _ _ _ _ c) in H; [|lia|lia].
  rewrite (shiftl_scaled m1 e1 c), (shiftl_scaled m2 e2 c) by lia.
  apply Z.div_le_mono; [|exact H]. apply Z.pow_pos_nonneg; lia.
Qed.

Lemma int_of_float_represents f m e :
  represents f m e -> small_nonneg 129 f ->
  int_of_float f = Ok (Z.shiftl m e).
Proof.
  intros [[[s ->] ->]|(p & -> & ->)] Hs.
  - now rewrite Z.shiftl_0_l.
  - reflexivity.
Qed.

(** The boundaries [int(i * duration)] do not decrease with [i]. *)
Lemma boundary_mono i j d :
  0 <= i <= j -> j < 2 ^ 63 -> small_nonneg 64 d ->
  exists zi zj,
    boundary i d = Ok zi /\ boundary j d = Ok zj /\ zi <= zj.
Proof.
  intros Hij Hj Hd.
  destruct (float_of_int_mono i j Hij Hj)
    as (fi & fj & mi & ei & mj & ej & Hfi & Hfj & Hsi & Hsj & Hri & Hrj & Hle).
  destruct (SFmul_mono fi fj d mi ei mj ej Hsi Hsj Hd Hri Hrj Hle)
    as (a1 & b1 & a2 & b2 & H1 & H2 & Hab).
  exists (Z.shiftl a1 b1), (Z.shiftl a2 b2).
  unfold boundary, py_mul. rewrite Hfi, Hfj. cbn [py_int].
  rewrite (int_of_float_represents _ _ _ H1 (SFmul_small fi d Hsi Hd)).
  rewrite (int_of_float_represents _ _ _ H2 (SFmul_small fj d Hsj Hd)).
  repeat split. now apply shiftl_mono.
Qed.

(** ** The last boundary is within one millisecond *)

Lemma shr_1_located_by D T n x :
  0 < D -> 0 <= n -> located_by D T n x -> located_by D T (n + 1) (shr_1 x).
Proof.
  intros HD Hn (H0 & rem & Hm & Hr & Hl).
  assert (0 < 2 ^ n) as HP by (apply Z.pow_pos_nonneg; lia).
  unfold located_by. rewrite Z.pow_add_r, Z.pow_1_r by lia.
  assert (0 < D * 2 ^ n) as HDP by nia.
  replace (D * (2 ^ n * 2)) with (2 * (D * 2 ^ n)) by ring.
  set (P := D * 2 ^ n) in *.
  destruct x as [m r s]. cbn [shr_m] in *.
  destruct m as [|[p|p|]|p]; try lia;
    destruct r, s; cbn [shr_1 shr_m loc_of_shr_record orb] in *;
    (split; [lia|]).
  all: try (exists rem; lia).
  all: try (exists (P + rem); lia).
Qed.

Lemma iter_pos_located_by D T (p : positive) :
  0 < D ->
  forall n x, 0 <= n -> located_by D T n x ->
              located_by D T (n + Zpos p) (iter_pos shr_1 p x).
Proof.
  intros HD.
  induction p as [p IH|p IH|]; intros n x Hn H; cbn [iter_pos].
  - replace (n + Zpos p~1) with (n + 1 + Zpos p + Zpos p) by lia.
    apply IH; [lia|]. apply IH; [lia|]. now apply shr_1_located_by.
  - replace (n + Zpos p~0) with (n + Zpos p + Zpos p) by lia.
    apply IH; [lia|]. now apply IH.
  - now apply shr_1_located_by.
Qed.

Lemma new_location_spec D r :
  0 < D -> 0 <= r < D ->
  match new_location D r with
  | loc_Exact => r = 0
  | loc_Inexact Lt => 0 < 2 * r < D
  | loc_Inexact Eq => 2 * r = D
  | loc_Inexact Gt => D < 2 * r
  end.
Proof.
  intros HD Hr. unfold new_location, new_location_even, new_location_odd.
  destruct (Z.even D) eqn:Ev.
  - destruct (Z.eqb_spec r 0); [trivial|].
    destruct (Z.compare_spec (2 * r) D); lia.
  - destruct (Z.eqb_spec r 0); [trivial|].
    assert (D <> 2 * r).
    { intros E. rewrite E, Z.even_mul in Ev. discriminate. }
    destruct (Z.compare_spec (2 * r + 1) D); lia.
Qed.

Lemma loc_of_shr_record_of_loc m l :
  loc_of_shr_record (shr_record_of_loc m l) = l.
Proof. destruct l as [|[| |]]; reflexivity. Qed.

Lemma shr_located_by D T q r e n :
  0 < D -> 0 <= q -> T = q * D + r -> 0 <= r < D ->
  located_by D T (Z.max 0 n)
    (fst (shr (shr_record_of_loc q (new_location D r)) e n)).
Proof.
  intros HD Hq HT Hr.
  assert (located_by D T 0 (shr_record_of_loc q (new_location D r))) as H0.
  { split; [now rewrite shr_record_of_loc_m|]. exists r.
    rewrite shr_record_of_loc_m, loc_of_shr_record_of_loc, Z.pow_0_r, Z.mul_1_r.
    repeat split; try lia. now apply new_location_spec. }
  unfold shr. destruct n as [|p|p]; cbn [fst]; try exact H0.
  replace (Z.max 0 (Zpos p)) with (0 + Zpos p) by lia.
  apply iter_pos_located_by; [exact HD|lia|exact H0].
Qed.

(** The float a quotient with its remainder rounds to: within half a
    unit in the last place, counted on the quotient's own scale. *)
Lemma round_quotient D T q r e' k :
  0 < D -> 0 <= q -> T = q * D + r -> 0 <= r < D ->
  Zdigits2 q + e' <= k -> -1074 <= k <= 960 ->
  exists m e,
    represents (binary_round_aux prec emax false q e' (new_location D r)) m e /\
    Z.max e' (fexp prec emax (Zdigits2 q + e')) <= e /\
    2 * Z.abs (D * (m * 2 ^ (e - e')) - T)
    <= D * 2 ^ (Z.max e' (fexp prec emax (Zdigits2 q + e')) - e').
Proof.
  intros HD Hq HT Hr Hk Hb.
  pose proof (binary_round_aux_bounded false q e' (new_location D r) k Hq Hk Hb)
    as Hbd.
  unfold binary_round_aux, shr_fexp in *.
  pose proof (fexp_eq (Zdigits2 q + e')) as HF.
  set (F := fexp prec emax (Zdigits2 q + e')) in *.
  set (n1 := F - e') in *.
  pose proof (Zdigits2_nonneg q) as Hdq.
  destruct (shr_located_by D T q r e' n1 HD Hq HT Hr)
    as (Hq1 & rem & Hm & Hrem & Hl).
  assert (shifted (Zdigits2 q) 0 (shr_record_of_loc q (new_location D r))) as Hi.
  { unfold shifted. rewrite shr_record_of_loc_m. split; [lia|right; lia]. }
  destruct (shr_shifted _ _ e' n1 Hi) as [[_ Hs] He].
  destruct (shr (shr_record_of_loc q (new_location D r)) e' n1) as [x1 e1].
  cbn [fst snd] in *.
  assert (e1 = Z.max e' F) as -> by (subst n1; lia).
  replace (Z.max 0 n1) with (Z.max e' F - e') in * by (subst n1; lia).
  set (E := Z.max e' F) in *.
  pose proof (round_nearest_even_bound (shr_m x1) (loc_of_shr_record x1) Hq1)
    as [Hm2 _].
  pose proof (round_nearest_even_cases (shr_m x1) (loc_of_shr_record x1)) as Hcases.
  assert (0 < 2 ^ (E - e')) as HP2 by (apply Z.pow_pos_nonneg; lia).
  assert (2 * Z.abs (round_nearest_even (shr_m x1) (loc_of_shr_record x1)
                     * (D * 2 ^ (E - e')) - T) <= D * 2 ^ (E - e')) as Herr.
  { set (P := D * 2 ^ (E - e')) in *.
    destruct (loc_of_shr_record x1) as [|[| |]]; cbn [round_nearest_even];
      try destruct (Z.even (shr_m x1)); lia. }
  set (m2 := round_nearest_even (shr_m x1) (loc_of_shr_record x1)) in *.
  assert (fexp prec emax (Zdigits2 m2 + E) <= E \/
          (fexp prec emax (Zdigits2 m2 + E) = E + 1 /\ Z.even m2 = true)) as Hex.
  { apply (digits_after_round (shr_m x1) m2 E (Z.max (Zdigits2 q + e') E)).
    - exact Hq1.
    - destruct Hs as [Hs|Hs]; [left; exact Hs|right; lia].
    - subst E. rewrite fexp_eq. lia.
    - exact Hcases. }
  destruct (second_shift_exact m2 E Hm2 Hex) as (Hm' & He' & Hval).
  destruct (shr_fexp prec emax m2 E loc_Exact) as [x2 e2] eqn:E2.
  unfold shr_fexp in E2. rewrite E2 in Hbd |- *.
  cbn [fst snd] in Hm', He', Hval.
  exists (shr_m x2), e2.
  assert (D * (shr_m x2 * 2 ^ (e2 - e')) = m2 * (D * 2 ^ (E - e'))) as Hsame.
  { replace (e2 - e') with ((e2 - E) + (E - e')) by lia.
    rewrite Z.pow_add_r by lia. rewrite <- Hval. ring. }
  rewrite Hsame. split; [|split; [lia|exact Herr]].
  destruct (shr_m x2) as [|p|p]; [left; split; [now eexists|reflexivity]| |lia].
  right. exists p. destruct (e2 <=? emax - prec); [now split|contradiction].
Qed.

Lemma div_core_spec L n :
  0 < L -> 0 < n ->
  exists q r e',
    SFdiv_core_binary prec emax L 0 n 0 = (q, e', new_location n r) /\
    e' = Z.min (fexp prec emax (Zdigits2 L - Zdigits2 n)) 0 /\
    L * 2 ^ (- e') = q * n + r /\ 0 <= r < n /\ 0 <= q.
Proof.
  intros HL Hn. unfold SFdiv_core_binary. cbv zeta.
  replace (Zdigits2 L + 0 - (Zdigits2 n + 0)) with (Zdigits2 L - Zdigits2 n) by lia.
  change (0 - 0) with 0.
  set (e' := Z.min (fexp prec emax (Zdigits2 L - Zdigits2 n)) 0).
  assert (e' <= 0) as He by (subst e'; lia).
  set (m' := match 0 - e' with
             | 0 => L
             | Zpos _ => Z.shiftl L (0 - e')
             | Zneg _ => 0
             end).
  assert (m' = L * 2 ^ (- e')) as Hm.
  { subst m'. destruct (0 - e') as [|s|s] eqn:Es.
    - replace (- e') with 0 by lia. rewrite Z.pow_0_r. lia.
    - rewrite Z.shiftl_mul_pow2 by lia. f_equal. f_equal. lia.
    - lia. }
  pose proof (Z_div_mod m' n ltac:(lia)) as Hdm.
  destruct (Z.div_eucl m' n) as [q r]. destruct Hdm as [Hdm Hr].
  exists q, r, e'. repeat split; try lia.
  assert (0 < 2 ^ (- e')) by (apply Z.pow_pos_nonneg; lia).
  assert (0 <= m') by nia. nia.
Qed.

(** [L / n] as Python computes it is within 2^-53, relatively, of the
    quotient: [n * (L / n)] is that close to [L]. *)
Lemma int_truediv_accurate L n :
  0 < L < 2 ^ 53 -> 0 < n < 2 ^ 63 ->
  exists d m e s,
    int_truediv L n = Ok d /\ small_nonneg 64 d /\ represents d m e /\
    0 <= s /\ - s <= e /\
    2 ^ 53 * Z.abs (n * (m * 2 ^ (e + s)) - L * 2 ^ s) <= L * 2 ^ s.
Proof.
  intros HL Hn.
  destruct (int_truediv_small L n ltac:(lia) ltac:(lia)) as (d & Hd & Hsmall).
  exists d.
  pose proof Hd as Hd'. unfold int_truediv in Hd'.
  destruct (Z.eqb_spec n 0); [lia|].
  replace (L <? 0) with false in Hd' by (symmetry; apply Z.ltb_ge; lia).
  replace (n <? 0) with false in Hd' by (symmetry; apply Z.ltb_ge; lia).
  cbn [xorb] in Hd'.
  destruct (Z.eqb_spec L 0); [lia|].
  rewrite !Z.abs_eq in Hd' by lia.
  destruct (div_core_spec L n ltac:(lia) ltac:(lia))
    as (q & r & e' & Hcore & He' & HT & Hr & Hq).
  rewrite Hcore in Hd'.
  pose proof (Zdigits2_pos_spec L ltac:(lia)) as [HLlo HLhi].
  pose proof (Zdigits2_pos_spec n ltac:(lia)) as [Hnlo Hnhi].
  assert (0 < Zdigits2 L <= 53) as HdL.
  { split; [destruct L; simpl; lia|apply Zdigits2_le; lia]. }
  assert (0 < Zdigits2 n <= 63) as Hdn.
  { split; [destruct n; simpl; lia|apply Zdigits2_le; lia]. }
  rewrite fexp_eq in He'.
  assert (e' = Zdigits2 L - Zdigits2 n - 53 /\ e' <= 0) as [Ee' Hneg] by lia.
  set (T := L * 2 ^ (- e')) in *.
  (* the quotient has at least 53 digits *)
  assert (2 ^ 52 * (n + 1) <= T) as HTbig.
  { subst T.
    replace (- e') with ((53 - Zdigits2 L) + Zdigits2 n) by lia.
    rewrite Z.pow_add_r by lia.
    assert (2 ^ 52 <= L * 2 ^ (53 - Zdigits2 L)).
    { replace 52 with ((Zdigits2 L - 1) + (53 - Zdigits2 L)) at 1 by lia.
      rewrite Z.pow_add_r by lia.
      assert (0 < 2 ^ (53 - Zdigits2 L)) by (apply Z.pow_pos_nonneg; lia).
      nia. }
    nia. }
  assert (2 ^ 52 <= q) as Hqbig by nia.
  assert (53 <= Zdigits2 q) as Hdq.
  { pose proof (Zdigits2_lt_pow q ltac:(lia)) as Hlt.
    assert (2 ^ 52 < 2 ^ Zdigits2 q) as Hp by lia.
    apply Z.pow_lt_mono_r_iff in Hp; [lia|lia|apply Zdigits2_nonneg]. }
  assert (Zdigits2 q + e' <= 63) as Hmag.
  { pose proof (div_core_bound L n ltac:(lia) ltac:(lia)) as [_ Hb].
    rewrite Hcore in Hb. cbn [fst snd] in Hb. lia. }
  destruct (round_quotient n T q r e' 63 ltac:(lia) Hq HT Hr Hmag ltac:(lia))
    as (m & e & Hrep & HE & Herr).
  assert (d = binary_round_aux prec emax false q e' (new_location n r)) as Ed.
  { destruct (binary_round_aux prec emax false q e' (new_location n r));
      congruence. }
  rewrite <- Ed in Hrep.
  rewrite fexp_eq in HE, Herr.
  replace (Z.max e' (Z.max (Zdigits2 q + e' - 53) (-1074)))
    with (Zdigits2 q + e' - 53) in * by lia.
  exists m, e, (- e'). split; [exact Hd|]. split; [exact Hsmall|].
  split; [exact Hrep|]. split; [lia|]. split; [lia|].
  replace (e + - e') with (e - e') by lia. fold T.
  replace (Zdigits2 q + e' - 53 - e') with (Zdigits2 q - 53) in Herr by lia.
  pose proof (Zdigits2_pos_spec q ltac:(lia)) as [Hqlo _].
  assert (n * 2 ^ (Zdigits2 q - 53) * 2 ^ 52 <= T) as Hrel.
  { rewrite <- Z.mul_assoc, <- Z.pow_add_r by lia.
    replace (Zdigits2 q - 53 + 52) with (Zdigits2 q - 1) by lia. nia. }
  change (2 ^ 53) with (2 * 2 ^ 52). lia.
Qed.

Lemma shl_align_exp mx ex ex' : snd (shl_align mx ex ex') = Z.min ex ex'.
Proof.
  unfold shl_align. destruct (ex' - ex) eqn:E; cbn [snd]; lia.
Qed.

(** An integer below 2^53 converts to a float without rounding. *)
Lemma float_of_int_exact n :
  0 < n < 2 ^ 53 ->
  exists p e z,
    float_of_int n = Ok (S754_finite false p e) /\
    Zpos (digits2_pos p) + e <= 64 /\
    z <= 0 /\ z <= e /\ Zpos p * 2 ^ (e - z) = n * 2 ^ (- z).
Proof.
  intros Hn.
  destruct (float_of_int_small n ltac:(lia)) as (f & Hf & Hsmall).
  destruct n as [|pn|pn]; try lia.
  pose proof Hf as Hf'. unfold float_of_int in Hf'.
  cbn [binary_normalize] in Hf'. unfold binary_round in Hf'.
  pose proof (shl_align_value pn 0 (fexp prec emax (Zpos (digits2_pos pn) + 0)))
    as [H1 H2].
  pose proof (shl_align_digits pn 0 (fexp prec emax (Zpos (digits2_pos pn) + 0)))
    as H3.
  pose proof (shl_align_exp pn 0 (fexp prec emax (Zpos (digits2_pos pn) + 0)))
    as H4.
  destruct (shl_align pn 0 (fexp prec emax (Zpos (digits2_pos pn) + 0)))
    as [mz ez].
  cbn [fst snd] in *.
  assert (Zdigits2 (Zpos pn) <= 53) as Hd by (apply Zdigits2_le; lia).
  cbn [Zdigits2] in Hd. rewrite fexp_eq in H4.
  assert (fexp prec emax (Zdigits2 (Zpos mz) + ez) = ez) as HF.
  { rewrite fexp_eq. cbn [Zdigits2]. lia. }
  destruct (round_exact_rne (Zpos mz) ez 63 ez) as (m & e & Hr & He & Hrne);
    try lia.
  { cbn [Zdigits2]. lia. }
  rewrite HF, Z.sub_diag, Z.pow_0_r in Hrne.
  apply (rne_to_exact 1 (Zpos mz)) in Hrne; [|lia|lia].
  rewrite Z.mul_1_r in Hrne.
  assert (f = binary_round_aux prec emax false (Zpos mz) ez loc_Exact) as Ef.
  { destruct (binary_round_aux prec emax false (Zpos mz) ez loc_Exact);
      congruence. }
  rewrite <- Ef in Hr.
  destruct Hr as [[_ ->]|(p & -> & ->)].
  - assert (0 <= 2 ^ (e - ez)) by (apply Z.pow_nonneg; lia). lia.
  - exists p, e, ez. cbn [small_nonneg] in Hsmall.
    repeat split; trivial; try lia.
    rewrite Hrne, H2. replace (0 - ez) with (- ez) by lia. reflexivity.
Qed.

Lemma rne_to_half P X R :
  0 < P -> rne_to P X R -> 2 * Z.abs (R - X) <= P.
Proof.
  intros HP H.
  destruct (rne_to_bounds P X R HP H)
    as (Q & r & EX & Hr & HQ & _ & _ & Hd & Hu & Hc & _).
  destruct Hc as [E|E]; [specialize (Hd E)|specialize (Hu E)]; lia.
Qed.

(** Two relative errors of 2^-53 move a value below 2^50 by less than
    one. *)
Lemma two_roundings_within_one L S X R P :
  0 < S -> 0 < L < 2 ^ 50 ->
  2 ^ 53 * Z.abs (X - L * S) <= L * S ->
  2 * Z.abs (R - X) <= P -> 2 ^ 52 * P <= X ->
  (L - 1) * S < R < (L + 1) * S.
Proof.
  intros HS HL HX HR HP.
  assert (S <= L * S < 2 ^ 50 * S) as HL'.
  { split.
    - rewrite <- (Z.mul_1_l S) at 1. apply Z.mul_le_mono_nonneg_r; lia.
    - apply Z.mul_lt_mono_pos_r; lia. }
  rewrite !Z.mul_add_distr_r, !Z.mul_sub_distr_r, !Z.mul_1_l.
  revert HX HL'. generalize (L * S). intros L' HX HL'.
  change (2 ^ 53) with 9007199254740992 in *.
  change (2 ^ 52) with 4503599627370496 in *.
  change (2 ^ 50) with 1125899906842624 in *.
  clear HL. lia.
Qed.

Lemma div_between L S R :
  0 < S -> (L - 1) * S < R < (L + 1) * S -> L - 1 <= R / S <= L.
Proof.
  intros HS [Hlo Hhi]. split.
  - apply Z.div_le_lower_bound; [exact HS|]. rewrite Z.mul_comm. lia.
  - apply Z.lt_succ_r. apply Z.div_lt_upper_bound; [exact HS|].
    rewrite Z.mul_comm. exact Hhi.
Qed.

(** The last boundary [int(n * (L / n))] is [L] or [L - 1]. *)
Lemma last_boundary_accurate L n :
  0 < L < 2 ^ 50 -> 0 < n < 2 ^ 53 ->
  exists d last,
    int_truediv L n = Ok d /\ small_nonneg 64 d /\
    boundary n d = Ok last /\ L - 1 <= last <= L.
Proof.
  intros HL Hn.
  destruct (int_truediv_accurate L n)
    as (d & md & ed & s & Hd & Hsmall & Hrep & Hs & Hes & Hacc); [lia|lia|].
  destruct (float_of_int_exact n Hn) as (pn & en & z & Hfn & Hdn & Hz & Hze & Hval).
  exists d.
  assert (0 < 2 ^ s) as H2s by (apply Z.pow_pos_nonneg; lia).
  assert (0 < L * 2 ^ s) as HT by (apply Z.mul_pos_pos; lia).
  destruct Hrep as [[_ ->]|(pd & -> & ->)].
  { rewrite Z.mul_0_l, Z.mul_0_r, Z.sub_0_l, Z.abs_opp, Z.abs_eq in Hacc by lia.
    revert Hacc HT. generalize (L * 2 ^ s). intros; lia. }
  cbn [small_nonneg] in Hsmall.
  unfold boundary, py_mul. rewrite Hfn. cbn [py_int SFmul xorb].
  assert (Zdigits2 (Zpos (pn * pd)) + (en + ed) <= 128) as Hk.
  { assert (Zdigits2 (Zpos (pn * pd))
            <= Zpos (digits2_pos pn) + Zpos (digits2_pos pd)); [|lia].
    apply Zdigits2_le; [|lia].
    rewrite Z.pow_add_r by lia.
    pose proof (digits2_spec pn) as [_ H1]. pose proof (digits2_spec pd) as [_ H2].
    rewrite Pos2Z.inj_mul. split; [lia|].
    apply Z.mul_lt_mono_nonneg; lia. }
  pose proof (fexp_eq (Zdigits2 (Zpos (pn * pd)) + (en + ed))) as HF.
  set (mag := Zdigits2 (Zpos (pn * pd)) + (en + ed)) in *.
  set (F := fexp prec emax mag) in *.
  assert (exists c, c <= en + ed /\ c <= F /\ c <= z - s)
    as (c & Hc1 & Hc2 & Hc3).
  { exists (Z.min (Z.min (en + ed) F) (z - s)). lia. }
  destruct (round_exact_rne (Zpos (pn * pd)) (en + ed) 128 c)
    as (m & e & Hr & Hce & Hrne); try lia; [exact Hc2|].
  fold mag in Hrne. fold F in Hrne.
  rewrite (int_of_float_represents _ m e Hr).
  2:{ change 129 with (128 + 1). apply rounded_small; [reflexivity|lia|exact Hk|lia]. }
  exists (Z.shiftl m e). split; [exact Hd|]. split; [exact Hsmall|].
  split; [reflexivity|].
  rewrite (shiftl_scaled m e c) by lia.
  assert (0 < 2 ^ (- c)) as HS by (apply Z.pow_pos_nonneg; lia).
  assert (0 < 2 ^ (F - c)) as HPF by (apply Z.pow_pos_nonneg; lia).
  pose proof (rne_to_half _ _ _ HPF Hrne) as Hhalf.
  pose proof (binade_scaled (Zpos (pn * pd)) (en + ed) c ltac:(lia) Hc1)
    as [HXlo HXhi].
  fold mag in HXlo, HXhi.
  (* the exact product is [n * d] on the scale [2^c] *)
  assert (0 < 2 ^ (- s - c)) as HW by (apply Z.pow_pos_nonneg; lia).
  assert (Zpos (pn * pd) * 2 ^ (en + ed - c)
          = n * (Zpos pd * 2 ^ (ed + s)) * 2 ^ (- s - c)) as EX.
  { replace (en + ed - c) with ((en - z) + ((ed + s) + (z - s - c))) by lia.
    rewrite !Z.pow_add_r by lia. rewrite Pos2Z.inj_mul.
    transitivity ((Zpos pn * 2 ^ (en - z)) * (Zpos pd * 2 ^ (ed + s))
                  * 2 ^ (z - s - c)); [ring|].
    rewrite Hval.
    transitivity (n * (Zpos pd * 2 ^ (ed + s)) * (2 ^ (- z) * 2 ^ (z - s - c)));
      [ring|].
    rewrite <- Z.pow_add_r by lia. do 2 f_equal. lia. }
  assert (L * 2 ^ (- c) = L * 2 ^ s * 2 ^ (- s - c)) as ES.
  { rewrite <- Z.mul_assoc, <- Z.pow_add_r by lia. do 2 f_equal. lia. }
  assert (2 ^ 53 * Z.abs (Zpos (pn * pd) * 2 ^ (en + ed - c) - L * 2 ^ (- c))
          <= L * 2 ^ (- c)) as HXL.
  { rewrite EX, ES. revert Hacc HW.
    generalize (n * (Zpos pd * 2 ^ (ed + s))) (2 ^ (- s - c)) (L * 2 ^ s).
    intros A W T Hacc HW.
    replace (A * W - T * W) with ((A - T) * W) by ring.
    rewrite Z.abs_mul, (Z.abs_eq W), Z.mul_assoc by lia.
    apply Z.mul_le_mono_nonneg_r; [lia|exact Hacc]. }
  clear EX ES Hacc Hval.
  (* the product is a normal number: its binade starts 52 bits up *)
  assert (2 ^ 52 * 2 ^ (F - c) <= Zpos (pn * pd) * 2 ^ (en + ed - c)) as Hrel.
  { assert (0 <= mag) as Hmag.
    { assert (- c < mag - c + 1); [|lia].
      apply pow2_lt_inv; [|lia].
      destruct (Z.le_gt_cases 0 (mag - c)) as [Hge|Hneg].
      - rewrite Z.pow_add_r, Z.pow_1_r by lia.
        assert (2 ^ (- c) <= L * 2 ^ (- c)) as H1.
        { rewrite <- (Z.mul_1_l (2 ^ (- c))) at 1.
          apply Z.mul_le_mono_nonneg_r; lia. }
        revert HXL HXhi H1 HS.
        generalize (Zpos (pn * pd) * 2 ^ (en + ed - c)) (L * 2 ^ (- c))
          (2 ^ (- c)) (2 ^ (mag - c)).
        change (2 ^ 53) with 9007199254740992.
        intros; lia.
      - exfalso. rewrite (Z.pow_neg_r 2 (mag - c)) in HXhi by assumption.
        assert (0 <= Zpos (pn * pd) * 2 ^ (en + ed - c)); [|lia].
        apply Z.mul_nonneg_nonneg; [lia|apply Z.pow_nonneg; lia]. }
    rewrite <- Z.pow_add_r by lia.
    replace (52 + (F - c)) with (mag - 1 - c) by lia. exact HXlo. }
  apply div_between; [exact HS|].
  exact (two_roundings_within_one L (2 ^ (- c))
           (Zpos (pn * pd) * 2 ^ (en + ed - c)) (m * 2 ^ (e - c))
           (2 ^ (F - c)) HS HL HXL Hhalf Hrel).
Qed.

Lemma boundary_of_zero n s :
  0 <= n < 2 ^ 63 -> boundary n (S754_zero s) = Ok 0.
Proof.
  intros Hn. unfold boundary, py_mul.
  destruct (float_of_int_small n Hn) as (f & -> & Hf).
  destruct f as [sf|sf| |sf m e]; cbn [small_nonneg] in Hf; try tauto;
    reflexivity.
Qed.

(** ** The loop over the words of a plain transcript *)

(** The piece a word contributes, its slice being in range. *)
Lemma piece_in_range audio tone lo hi (t : bool) (st : cstate) :
  - len audio <= lo -> - len audio <= hi ->
  (if t then ret tone else lift (getitem audio lo hi)) st
  = (Ok (if t then tone else slice audio lo hi), st).
Proof.
  intros Hlo Hhi. destruct t; [reflexivity|].
  now rewrite getitem_in_range.
Qed.

Lemma plain_loop_replaced audio tone d words :
  forall i censored st,
    0 <= i -> i + Z.of_nat (List.length words) < 2 ^ 63 ->
    small_nonneg 64 d ->
    exists bounds,
      apportioned i (List.length words) d = Ok bounds /\
      for_each (enumerate_from i words) censored (plain_word audio tone d) st
      = (Ok (censored ++
             replaced audio tone (mk_spans (fst (decisions words st)) bounds)),
         snd (decisions words st)).
Proof.
  induction words as [|w words IH]; intros i censored st Hi Hn Hd.
  - exists []. split; [reflexivity|]. cbn. now rewrite app_nil_r.
  - cbn [List.length] in Hn. rewrite Nat2Z.inj_succ in Hn.
    destruct (boundary_floor i d ltac:(lia) Hd) as (lo & Hlo & Hflo & Hlo0).
    destruct (boundary_floor (i + 1) d ltac:(lia) Hd) as (hi & Hhi & Hfhi & Hhi0).
    cbn [List.length apportioned enumerate_from for_each decisions].
    rewrite Hflo, Hfhi.
    unfold bind at 1. unfold plain_word at 1.
    run_bind Hlo.
    run_bind Hhi.
    unfold bind at 1. unfold is_toxicM.
    destruct (is_toxic w st) as [t st1].
    unfold bind at 1.
    rewrite (piece_in_range audio tone lo hi t st1) by (unfold len; lia).
    cbn [ret].
    match goal with
    | |- context [for_each _ ?c _ st1] =>
        destruct (IH (i + 1) c st1 ltac:(lia) ltac:(lia) Hd)
          as (rest & Hrest & Hrun)
    end.
    exists ((lo, hi) :: rest). rewrite Hrest. split; [reflexivity|].
    rewrite Hrun.
    destruct (decisions words st1) as [ts st2].
    cbn [fst snd mk_spans combine List.map replaced flat_map
         span_toxic span_start span_end].
    now rewrite <- app_assoc.
Qed.

Lemma censor_text tone s audio st :
  tone_available tone ->
  0 < Z.of_nat (List.length (split s)) < 2 ^ 63 ->
  len audio < 2 ^ 63 ->
  exists duration bounds,
    int_truediv (len audio) (Z.of_nat (List.length (split s))) = Ok duration /\
    apportioned 0 (List.length (split s)) duration = Ok bounds /\
    censor_audio (Text s) audio st
    = (Ok (Some (replaced audio tone
                   (mk_spans (fst (decisions (split s) st)) bounds))),
       snd (decisions (split s) st)).
Proof.
  intros [Hb Hl] Hn Ha. unfold censor_audio. rewrite Hb.
  apply Z.eqb_neq in Hl. rewrite Hl.
  assert (0 <= len audio) as H0 by (unfold len; lia).
  destruct (int_truediv_small (len audio) (Z.of_nat (List.length (split s))))
    as (d & Hd & Hsmall); [lia|lia|].
  destruct (plain_loop_replaced audio tone d (split s) 0 silent0 st)
    as (bounds & Hbounds & Hrun); [lia|lia|exact Hsmall|].
  exists d, bounds. split; [exact Hd|]. split; [exact Hbounds|].
  run_bind Hd.
  unfold bind at 1. unfold enumerate. rewrite Hrun. reflexivity.
Qed.

Lemma boundary_zero d : small_nonneg 64 d -> boundary 0 d = Ok 0.
Proof.
  destruct d as [s|s| |s m e]; cbn [small_nonneg]; try tauto; reflexivity.
Qed.

(** When no word is toxic the slices the loop appends join into one:
    the clip from the first boundary to the last. *)
Lemma plain_loop_prefix audio tone d words :
  (forall w st, fst (is_toxic w st) = false) ->
  forall i censored st,
    0 <= i -> i + Z.of_nat (List.length words) < 2 ^ 63 ->
    small_nonneg 64 d ->
    exists lo hi,
      boundary i d = Ok lo /\
      boundary (i + Z.of_nat (List.length words)) d = Ok hi /\
      0 <= lo <= hi /\
      for_each (enumerate_from i words) censored (plain_word audio tone d) st
      = (Ok (censored ++ slice audio lo hi), snd (decisions words st)).
Proof.
  intros Hnever. induction words as [|w words IH]; intros i censored st Hi Hn Hd.
  - destruct (boundary_floor i d ltac:(cbn [List.length] in Hn; lia) Hd)
      as (lo & Hlo & _ & H0).
    exists lo, lo. cbn [List.length Z.of_nat]. rewrite Z.add_0_r.
    repeat split; trivial; try lia.
    cbn [enumerate_from for_each decisions snd].
    rewrite slice_nil, app_nil_r by lia. reflexivity.
  - cbn [List.length] in Hn |- *. rewrite Nat2Z.inj_succ in Hn |- *.
    destruct (boundary_floor i d ltac:(lia) Hd) as (lo & Hlo & _ & H0).
    destruct (boundary_mono i (i + 1) d ltac:(lia) ltac:(lia) Hd)
      as (lo' & mid & Hlo' & Hmid & Hle).
    rewrite Hlo in Hlo'. injection Hlo' as <-.
    cbn [enumerate_from for_each decisions].
    unfold bind at 1. unfold plain_word at 1.
    run_bind Hlo.
    run_bind Hmid.
    unfold bind at 1. unfold is_toxicM.
    pose proof (Hnever w st) as Ht.
    destruct (is_toxic w st) as [t st1]. cbn [fst] in Ht. subst t.
    unfold bind at 1.
    rewrite (piece_in_range audio tone lo mid false st1) by (unfold len; lia).
    cbn [ret].
    match goal with
    | |- context [for_each _ ?c _ st1] =>
        destruct (IH (i + 1) c st1 ltac:(lia) ltac:(lia) Hd)
          as (mid' & hi & Hmid' & Hhi & Hmh & Hrun)
    end.
    rewrite Hmid in Hmid'. injection Hmid' as <-.
    exists lo, hi.
    replace (i + Z.succ (Z.of_nat (List.length words)))
      with (i + 1 + Z.of_nat (List.length words)) by lia.
    repeat split; trivial; try lia.
    rewrite Hrun. destruct (decisions words st1) as [ts st2]. cbn [snd].
    rewrite <- app_assoc, slice_app by lia. reflexivity.
Qed.

Lemma censor_text_never_toxic tone s audio st :
  tone_available tone ->
  (forall w st', fst (is_toxic w st') = false) ->
  0 < Z.of_nat (List.length (split s)) < 2 ^ 63 ->
  len audio < 2 ^ 63 ->
  exists duration last,
    int_truediv (len audio) (Z.of_nat (List.length (split s))) = Ok duration /\
    boundary (Z.of_nat (List.length (split s))) duration = Ok last /\
    0 <= last /\
    (Z.of_nat (List.length (split s)) < 2 ^ 53 -> len audio < 2 ^ 50 ->
     len audio - 1 <= last <= len audio) /\
    censor_audio (Text s) audio st
    = (Ok (Some (slice audio 0 last)), snd (decisions (split s) st)).
Proof.
  intros [Hb Hl] Hnever Hn Ha. unfold censor_audio. rewrite Hb.
  apply Z.eqb_neq in Hl. rewrite Hl.
  assert (0 <= len audio) as H0 by (unfold len; lia).
  destruct (int_truediv_small (len audio) (Z.of_nat (List.length (split s))))
    as (d & Hd & Hsmall); [lia|lia|].
  destruct (plain_loop_prefix audio tone d (split s) Hnever 0 silent0 st)
    as (lo & hi & Hlo & Hhi & Hle & Hrun); [lia|lia|exact Hsmall|].
  rewrite (boundary_zero d Hsmall) in Hlo. injection Hlo as <-.
  rewrite Z.add_0_l in Hhi.
  exists d, hi. split; [exact Hd|]. split; [exact Hhi|]. split; [lia|].
  split.
  - intros Hn53 Ha50.
    destruct (Z.eq_dec (len audio) 0) as [E0|E0].
    + rewrite E0 in Hd. unfold int_truediv in Hd.
      destruct (Z.eqb_spec (Z.of_nat (List.length (split s))) 0); [lia|].
      cbn [Z.eqb] in Hd. injection Hd as <-.
      rewrite boundary_of_zero in Hhi by lia. injection Hhi as <-. lia.
    + destruct (last_boundary_accurate (len audio)
                  (Z.of_nat (List.length (split s))))
        as (d' & last & Hd' & _ & Hlast & Hb'); [lia|lia|].
      rewrite Hd in Hd'. injection Hd' as <-.
      rewrite Hhi in Hlast. injection Hlast as <-. exact Hb'.
  - run_bind Hd.
    unfold bind at 1. unfold enumerate. rewrite Hrun. reflexivity.
Qed.

(** ** Blank words *)

Lemma lstrip_nil_iff s : lstrip s = [] <-> forallb isspace s = true.
Proof.
  induction s as [|c r IH]; simpl; [tauto|].
  destruct (isspace c); simpl; [exact IH|]. split; discriminate.
Qed.

Lemma lstrip_head s c r : lstrip s = c :: r -> isspace c = false.
Proof.
  induction s as [|x s IH]; simpl; [discriminate|].
  destruct (isspace x) eqn:E; [exact IH|].
  intros H. injection H as -> _. exact E.
Qed.

Lemma forallb_rev (f : N -> bool) s : forallb f (rev s) = forallb f s.
Proof.
  induction s as [|c r IH]; [reflexivity|]. simpl.
  rewrite forallb_app, IH. simpl. rewrite andb_true_r. apply andb_comm.
Qed.

Lemma strip_nil_iff w : strip w = [] <-> whitespace_only w.
Proof.
  unfold strip, rstrip, whitespace_only. split.
  - intros H. apply lstrip_nil_iff.
    destruct (lstrip w) as [|c r] eqn:E; [reflexivity|].
    apply lstrip_head in E.
    assert (lstrip (rev (c :: r)) = []) as H1.
    { destruct (lstrip (rev (c :: r))); [reflexivity|].
      apply (f_equal (@List.length N)) in H.
      rewrite length_rev in H. discriminate. }
    apply lstrip_nil_iff in H1. rewrite forallb_rev in H1.
    simpl in H1. rewrite E in H1. discriminate.
  - intros H. apply lstrip_nil_iff in H. rewrite H. reflexivity.
Qed.

Lemma truthy_strip w : truthy (strip w) = false <-> whitespace_only w.
Proof.
  rewrite <- strip_nil_iff. destruct (strip w); simpl; split;
    congruence.
Qed.

Lemma pystr_eqb_eq s t : PyStr.eqb s t = true <-> s = t.
Proof.
  revert t. induction s as [|c s IH]; intros [|d t]; simpl;
    try (split; congruence).
  rewrite andb_true_iff, N.eqb_eq, IH. split.
  - intros [-> ->]. reflexivity.
  - intros H. injection H as -> ->. tauto.
Qed.

(** ** Results that do not depend on the pipeline's state *)

Lemma state_blind_ret {A} (a : A) : state_blind (ret a).
Proof. intros st1 st2. reflexivity. Qed.

Lemma state_blind_lift {A} (r : res A) : state_blind (lift r).
Proof. intros st1 st2. destruct r; reflexivity. Qed.

Lemma state_blind_bind {A B} (c : M A) (k : A -> M B) :
  state_blind c -> (forall a, state_blind (k a)) -> state_blind (bind c k).
Proof.
  intros Hc Hk st1 st2. unfold bind. specialize (Hc st1 st2).
  destruct (c st1) as [[a1|x1] s1], (c st2) as [[a2|x2] s2];
    cbn [fst] in Hc; try discriminate.
  - injection Hc as ->. apply Hk.
  - injection Hc as ->. reflexivity.
Qed.

Lemma state_blind_for_each {A B} (body : B -> A -> M B) (xs : list A) :
  (forall acc x, state_blind (body acc x)) ->
  forall acc, state_blind (for_each xs acc body).
Proof.
  intros Hb. induction xs as [|x xs IH]; intros acc; cbn [for_each].
  - apply state_blind_ret.
  - apply state_blind_bind; [apply Hb|exact IH].
Qed.

Lemma state_blind_is_toxicM w :
  deterministic_predicate -> state_blind (is_toxicM w).
Proof.
  intros Hdet st1 st2. unfold is_toxicM. specialize (Hdet w st1 st2).
  destruct (is_toxic w st1), (is_toxic w st2). cbn [fst] in *. now subst.
Qed.

Lemma state_blind_if {A} (b : bool) (c1 c2 : M A) :
  state_blind c1 -> state_blind c2 -> state_blind (if b then c1 else c2).
Proof. now destruct b. Qed.

Create HintDb blind discriminated.

#[local] Hint Resolve state_blind_ret state_blind_lift state_blind_bind
  state_blind_for_each state_blind_is_toxicM state_blind_if : blind.

Lemma state_blind_censor_audio words_info audio :
  deterministic_predicate -> state_blind (censor_audio words_info audio).
Proof.
  intros Hdet. unfold censor_audio.
  destruct beep as [tone|]; [|auto with blind].
  destruct (len tone =? 0); [auto with blind|].
  destruct words_info as [ws|s|o]; [| |auto with blind].
  - apply state_blind_bind; [|intros [c l]; auto 8 with blind].
    apply state_blind_for_each. intros [c l] w. unfold timed_word.
    auto 14 with blind.
  - apply state_blind_bind; [auto with blind|]. intros d.
    apply state_blind_bind; [|auto with blind].
    apply state_blind_for_each. intros c [i w]. unfold plain_word.
    auto 12 with blind.
Qed.

(** ** The toxicity decision *)

Lemma is_toxic_blank w st : whitespace_only w -> is_toxic w st = (false, st).
Proof.
  intros H. apply truthy_strip in H. unfold is_toxic. now rewrite H.
Qed.

Lemma is_toxic_true_iff w st :
  fst (is_toxic w st) = true <->
  ~ whitespace_only w /\
  exists classify top others,
    toxicity_classifier = Some classify /\
    fst (classify w st) = ClsReturns (top :: others) /\
    label top = py "Toxic" /\ float_gt (score top) threshold = true.
Proof.
  unfold is_toxic.
  destruct (truthy (strip w)) eqn:Et; cbn [negb].
  - assert (~ whitespace_only w) as Hw.
    { intros H. apply truthy_strip in H. congruence. }
    destruct toxicity_classifier as [classify|].
    + destruct (classify w st) as [[|[|top others]] st'] eqn:Ec; cbn [fst].
      * split; [discriminate|].
        intros (_ & c & t & o & Hc & Hr & _). injection Hc as <-.
        rewrite Ec in Hr. discriminate.
      * split; [discriminate|].
        intros (_ & c & t & o & Hc & Hr & _). injection Hc as <-.
        rewrite Ec in Hr. discriminate.
      * rewrite andb_true_iff, pystr_eqb_eq. split.
        -- intros [Hl Hs]. split; [exact Hw|].
           exists classify, top, others. rewrite Ec. now repeat split.
        -- intros (_ & c & t & o & Hc & Hr & Hl & Hs). injection Hc as <-.
           rewrite Ec in Hr. cbn [fst] in Hr. injection Hr as <- <-.
           now split.
    + cbn [fst]. split; [discriminate|].
      intros (_ & c & _ & _ & Hc & _). discriminate.
  - cbn [fst]. split; [discriminate|].
    intros [Hw _]. exfalso. apply Hw. now apply truthy_strip.
Qed.

Lemma is_toxic_failure w st :
  (toxicity_classifier = None -> is_toxic w st = (false, st)) /\
  (forall classify, toxicity_classifier = Some classify ->
     fst (classify w st) = ClsRaises -> fst (is_toxic w st) = false).
Proof.
  unfold is_toxic. split.
  - intros ->. now destruct (negb (truthy (strip w))).
  - intros classify -> Hr. destruct (negb (truthy (strip w))); [reflexivity|].
    destruct (classify w st) as [o st']. cbn [fst] in Hr. now subst o.
Qed.

Lemma never_toxic_when_throwing :
  classifier_always_throws -> forall w st, fst (is_toxic w st) = false.
Proof.
  intros H w st. destruct toxicity_classifier as [classify|] eqn:E.
  - unfold is_toxic. rewrite E.
    destruct (negb (truthy (strip w))); [reflexivity|].
    specialize (H classify E w st).
    destruct (classify w st) as [o st']. cbn [fst] in H. now subst o.
  - unfold is_toxic. rewrite E. now destruct (negb (truthy (strip w))).
Qed.

Lemma decisions_never_toxic words :
  (forall w st, fst (is_toxic w st) = false) ->
  forall st ses, none_toxic (mk_spans (fst (decisions words st)) ses) = true.
Proof.
  intros H. induction words as [|w words IH]; intros st ses; [reflexivity|].
  cbn [decisions]. specialize (H w st).
  destruct (is_toxic w st) as [t st1]. cbn [fst] in H. subst t.
  specialize (IH st1). destruct (decisions words st1) as [ts st2].
  cbn [fst] in *. destruct ses as [|se ses]; [reflexivity|].
  unfold mk_spans. cbn [combine List.map none_toxic forallb span_toxic fst negb andb].
  apply IH.
Qed.

(** ** The properties of the aligner *)

Lemma decisions_cons w words st :
  decisions (w :: words) st
  = (fst (is_toxic w st) :: fst (decisions words (snd (is_toxic w st))),
     snd (decisions words (snd (is_toxic w st)))).
Proof.
  cbn [decisions]. destruct (is_toxic w st) as [t st1]. cbn [fst snd].
  now destruct (decisions words st1).
Qed.

Lemma decisions_length words :
  forall st, List.length (fst (decisions words st)) = List.length words.
Proof.
  induction words as [|w words IH]; intros st; [reflexivity|].
  rewrite decisions_cons. cbn [fst List.length]. now rewrite IH.
Qed.

Lemma word_spans_length ws :
  forall ses, word_spans ws = Ok ses -> List.length ses = List.length ws.
Proof.
  induction ws as [|w ws IH]; intros ses Hs.
  - simpl in Hs. now injection Hs as <-.
  - destruct (word_spans_cons _ _ _ Hs) as (a & b & rest & -> & _ & _ & Hr).
    cbn [List.length]. now rewrite (IH rest Hr).
Qed.

Lemma apportioned_length d :
  forall k i bounds, apportioned i k d = Ok bounds -> List.length bounds = k.
Proof.
  induction k as [|k IH]; intros i bounds H; cbn [apportioned] in H.
  - now injection H as <-.
  - destruct (floor_boundary i d); [|discriminate].
    destruct (floor_boundary (i + 1) d); [|discriminate].
    destruct (apportioned (i + 1) k d) as [rest|] eqn:E; [|discriminate].
    injection H as <-. cbn [List.length]. now rewrite (IH _ _ E).
Qed.

(** Monotone spans are in range. *)
Lemma monotone_in_range audio ses :
  forall flags last,
    0 <= last -> List.length flags = List.length ses ->
    monotone last (mk_spans flags ses) = true ->
    in_range audio ses = true.
Proof.
  assert (0 <= len audio) as Hn by (unfold len; lia).
  induction ses as [|[s e] ses IH]; intros flags last Hl Hlen Hm;
    [reflexivity|].
  destruct flags as [|t flags]; [discriminate|].
  unfold mk_spans in Hm. cbn [combine List.map] in Hm.
  apply monotone_cons in Hm. cbn [span_start span_end fst snd] in Hm.
  destruct Hm as (H1 & H2 & Hm).
  apply in_range_cons. split; [lia|].
  apply (IH flags e); [lia|now injection Hlen|exact Hm].
Qed.

Lemma decided_spans_in_range audio ws ses st :
  word_spans ws = Ok ses ->
  monotone 0 (mk_spans (fst (decisions (List.map word ws) st)) ses) = true ->
  in_range audio ses = true.
Proof.
  intros Hs Hm.
  apply (monotone_in_range audio ses
           (fst (decisions (List.map word ws) st)) 0); [lia| |exact Hm].
  now rewrite decisions_length, length_map, (word_spans_length ws ses Hs).
Qed.

(** C1. With the tone available, [censor_audio] on a word list whose
    timings convert to spans [ses] in range (none of their bounds below
    [-len(audio)], as with the monotone spans the claim is about) yields
    the clip the WordTimings algorithm describes: per span the gap
    [last_end, start) when [start > last_end], then the tone for a toxic
    word and the slice [start, end) otherwise, and after the last span the
    trailing audio.  On a 3000 ms clip with bad/cat/run at [0,1000),
    [1000,2000), [2000,3000) and only "bad" toxic the result is
    [tone ++ audio[1000:2000] ++ audio[2000:3000]]. *)
Theorem word_timings_alignment tone :
  tone_available tone ->
  (forall ws ses audio st,
      word_spans ws = Ok ses ->
      in_range audio ses = true ->
      List.length ses = List.length ws /\
      List.length (fst (decisions (List.map word ws) st)) = List.length ws /\
      fst (censor_audio (WordList ws) audio st)
      = Ok (Some (aligned audio tone 0
                    (mk_spans (fst (decisions (List.map word ws) st)) ses))))
  /\
  (forall audio st,
      len audio = 3000 ->
      (forall st', fst (is_toxic (py "bad") st') = true) ->
      (forall st', fst (is_toxic (py "cat") st') = false) ->
      (forall st', fst (is_toxic (py "run") st') = false) ->
      fst (censor_audio (WordList Sample.words) audio st)
      = Ok (Some (tone ++ slice audio 1000 2000 ++ slice audio 2000 3000))).
Proof.
  intros Ht. split.
  - intros ws ses audio st Hs Hr.
    rewrite (censor_word_list tone ws ses audio st Ht Hs Hr).
    rewrite decisions_length, length_map.
    now rewrite (word_spans_length ws ses Hs).
  - intros audio st Hlen Hbad Hcat Hrun.
    assert (word_spans Sample.words
            = Ok [(0, 1000); (1000, 2000); (2000, 3000)]) as Hs
      by (vm_compute; reflexivity).
    assert (in_range audio [(0, 1000); (1000, 2000); (2000, 3000)] = true)
      as Hr by (rewrite !in_range_cons; repeat split; unfold len; lia).
    rewrite (censor_word_list tone _ _ audio st Ht Hs Hr). cbn [fst].
    cbn [Sample.words List.map word].
    rewrite !decisions_cons. cbn [fst snd decisions].
    rewrite Hbad, Hcat, Hrun.
    cbn [mk_spans combine List.map fst snd aligned span_toxic span_start span_end].
    rewrite Hlen. cbn [Z.gtb Z.compare Pos.compare Pos.compare_cont app].
    now rewrite app_nil_r.
Qed.

(** C2. A word list with no entry gives the clip back, but a transcript
    string without any word makes [len(audio) / len(words)] raise
    [ZeroDivisionError]: the division is not guarded. *)
Theorem empty_transcript tone audio st :
  tone_available tone ->
  censor_audio (WordList []) audio st = (Ok (Some audio), st) /\
  (forall s, split s = [] ->
             censor_audio (Text s) audio st = (Raise ZeroDivisionError, st)).
Proof.
  intros Ht. split.
  - rewrite (censor_word_list tone [] [] audio st Ht eq_refl eq_refl).
    cbn [List.map decisions fst snd mk_spans combine aligned].
    rewrite trailing_slice by lia. now rewrite slice_all.
  - intros s Hs. destruct Ht as [Hb Hl]. unfold censor_audio. rewrite Hb.
    apply Z.eqb_neq in Hl. rewrite Hl, Hs. reflexivity.
Qed.

(** C3. [is_toxic] answers true exactly when the word is not blank, the
    classifier is there, its first result carries the label "Toxic" and
    its score is above 0.7; a missing or raising classifier gives false;
    a blank word gives false and leaves the classifier untouched. *)
Theorem is_toxic_decision w st :
  (fst (is_toxic w st) = true <->
   ~ whitespace_only w /\
   exists classify top others,
     toxicity_classifier = Some classify /\
     fst (classify w st) = ClsReturns (top :: others) /\
     label top = py "Toxic" /\ float_gt (score top) threshold = true)
  /\ (toxicity_classifier = None -> is_toxic w st = (false, st))
  /\ (forall classify, toxicity_classifier = Some classify ->
        fst (classify w st) = ClsRaises -> fst (is_toxic w st) = false)
  /\ (whitespace_only w -> is_toxic w st = (false, st)).
Proof.
  split; [apply is_toxic_true_iff|].
  split; [apply is_toxic_failure|].
  split; [apply is_toxic_failure|apply is_toxic_blank].
Qed.

(** C4. With the tone available and a transcript string of at least one
    word (lengths as [len] can return them, below 2^63), the division
    succeeds, every boundary is computed, and the result replaces by the
    tone exactly the toxic words' slices
    [floor(i * duration), floor((i + 1) * duration)), keeping the others;
    on "bad cat" over 2000 ms with only "bad" toxic it is
    [tone ++ audio[1000:2000]]. *)
Theorem plain_text_apportioned tone :
  tone_available tone ->
  (forall s audio st,
      0 < Z.of_nat (List.length (split s)) < 2 ^ 63 ->
      len audio < 2 ^ 63 ->
      exists duration bounds,
        int_truediv (len audio) (Z.of_nat (List.length (split s))) = Ok duration /\
        apportioned 0 (List.length (split s)) duration = Ok bounds /\
        List.length bounds = List.length (split s) /\
        List.length (fst (decisions (split s) st)) = List.length (split s) /\
        fst (censor_audio (Text s) audio st)
        = Ok (Some (replaced audio tone
                      (mk_spans (fst (decisions (split s) st)) bounds))))
  /\
  (forall audio st,
      len audio = 2000 ->
      (forall st', fst (is_toxic (py "bad") st') = true) ->
      (forall st', fst (is_toxic (py "cat") st') = false) ->
      fst (censor_audio (Text (py "bad cat")) audio st)
      = Ok (Some (tone ++ slice audio 1000 2000))).
Proof.
  intros Ht. split.
  - intros s audio st Hn Ha.
    destruct (censor_text tone s audio st Ht Hn Ha) as (d & bounds & Hd & Hb & Hrun).
    exists d, bounds. rewrite Hrun, decisions_length.
    now rewrite (apportioned_length d _ _ _ Hb).
  - intros audio st Hlen Hbad Hcat.
    assert (split (py "bad cat") = [py "bad"; py "cat"]) as Hsplit
      by (vm_compute; reflexivity).
    destruct (censor_text tone (py "bad cat") audio st Ht)
      as (d & bounds & Hd & Hb & Hrun).
    + rewrite Hsplit. cbn. lia.
    + rewrite Hlen. lia.
    + rewrite Hrun. rewrite Hsplit, Hlen in *.
      vm_compute in Hd. injection Hd as <-.
      vm_compute in Hb. injection Hb as <-.
      rewrite !decisions_cons. cbn [fst snd decisions].
      rewrite Hbad, Hcat.
      cbn [mk_spans combine List.map fst snd replaced flat_map
           span_toxic span_start span_end].
      now rewrite app_nil_r.
Qed.

(** C5. Without a tone ([beep] is [None]) [censor_audio] returns [None]
    whatever the transcription and the clip, and calls nothing. *)
Theorem no_tone_no_result words_info audio st :
  beep = None -> censor_audio words_info audio st = (Ok None, st).
Proof.
  intros H. unfold censor_audio. now rewrite H.
Qed.

Lemma none_toxic_count spans :
  none_toxic spans = true -> toxic_count spans = 0.
Proof.
  induction spans as [|sp rest IH]; [reflexivity|]. simpl.
  rewrite andb_true_iff, negb_true_iff. intros [Ht Hr].
  rewrite toxic_count_cons, Ht, (IH Hr). reflexivity.
Qed.

Lemma none_toxic_duration audio spans :
  none_toxic spans = true -> toxic_duration audio spans = 0.
Proof.
  induction spans as [|sp rest IH]; [reflexivity|]. simpl.
  rewrite andb_true_iff, negb_true_iff. intros [-> Hr]. now rewrite (IH Hr).
Qed.



(** C8. With spans in range (none of their bounds below
    [-len(audio)], as with the monotone spans the claim is about) and every
    word judged toxic, the output holds the gaps and one tone per word,
    then the trailing audio; when the spans leave no gap and reach the end
    of the clip it is the tones alone. *)
Theorem all_words_toxic tone ws ses audio st :
  tone_available tone ->
  word_spans ws = Ok ses ->
  in_range audio ses = true ->
  all_toxic (mk_spans (fst (decisions (List.map word ws) st)) ses) = true ->
  fst (censor_audio (WordList ws) audio st)
  = Ok (Some (gaps_and_tones audio tone 0
                (mk_spans (fst (decisions (List.map word ws) st)) ses)))
  /\
  (covering audio 0 (mk_spans (fst (decisions (List.map word ws) st)) ses) = true ->
   fst (censor_audio (WordList ws) audio st)
   = Ok (Some (concat (repeat tone (List.length ses))))).
Proof.
  intros Ht Hs Hr Ha.
  rewrite (censor_word_list tone ws ses audio st Ht Hs Hr). cbn [fst].
  rewrite (aligned_all_toxic audio tone _ 0 Ha). split; [reflexivity|].
  intros Hc. rewrite (gaps_and_tones_covering audio tone _ 0 Hc).
  do 3 f_equal. unfold mk_spans. rewrite length_map, length_combine.
  rewrite decisions_length, length_map, (word_spans_length ws ses Hs).
  now rewrite Nat.min_id.
Qed.

(** *** Runs on objects *)

Lemma extends_refl h : extends h h.
Proof. exists []. now rewrite app_nil_r. Qed.

Lemma extends_trans h0 h1 h2 : extends h0 h1 -> extends h1 h2 -> extends h0 h2.
Proof. intros [n1 ->] [n2 ->]. exists (n1 ++ n2). now rewrite app_assoc. Qed.

Lemma extends_length h0 h : extends h0 h -> (List.length h0 <= List.length h)%nat.
Proof. intros [n ->]. rewrite length_app. lia. Qed.

Lemma holds_extends h h' r v : holds h r v -> extends h h' -> holds h' r v.
Proof.
  intros [Hr Hv] [n ->]. split.
  - rewrite length_app. lia.
  - unfold deref in *. now rewrite app_nth1.
Qed.

Lemma fresh_extends h0 h h' r v : fresh h0 h r v -> extends h h' -> fresh h0 h' r v.
Proof. intros [Hr Hv] He. split; [exact Hr|]. now apply (holds_extends h). Qed.

Lemma sim_ret {A B} (R : heap -> A -> B -> Prop) w a b :
  R (fst w) a b -> sim R w (retO a) (ret b).
Proof. intros H. repeat split; [apply extends_refl|exact H]. Qed.

Lemma sim_lift {A} (r : res A) w :
  sim (fun _ a b => a = b) w (liftO r) (lift r).
Proof.
  unfold sim, liftO. destruct r; cbn; repeat split; apply extends_refl.
Qed.

Lemma sim_bind {A A' B B'} (R : heap -> A -> A' -> Prop)
    (R' : heap -> B -> B' -> Prop) c c' k k' w :
  sim R w c c' ->
  (forall a a' w1, extends (fst w) (fst w1) -> R (fst w1) a a' ->
                   sim R' w1 (k a) (k' a')) ->
  sim R' w (bindO c k) (bind c' k').
Proof.
  unfold sim, bindO, bind. intros (He & Hst & Hr) Hk.
  destruct (c w) as [[a|e] w1], (c' (snd w)) as [[a'|e'] st1];
    cbn [fst snd] in *; try contradiction.
  - subst st1. destruct (Hk a a' w1 He Hr) as (He' & Hst' & Hr').
    split; [exact (extends_trans _ _ _ He He')|]. now split.
  - now repeat split.
Qed.

Lemma sim_if {A B} (R : heap -> A -> B -> Prop) (b : bool) w c1 c2 c1' c2' :
  sim R w c1 c1' -> sim R w c2 c2' ->
  sim R w (if b then c1 else c2) (if b then c1' else c2').
Proof. now destruct b. Qed.

Lemma sim_spawn h0 w v :
  extends h0 (fst w) -> sim (fresh h0) w (spawn v) (ret v).
Proof.
  intros He. unfold sim, spawn. cbn [fst snd ret].
  split; [now exists [v]|]. split; [reflexivity|].
  split; [now apply extends_length|]. split.
  - rewrite length_app. cbn. lia.
  - unfold deref. now rewrite nth_middle.
Qed.

Lemma sim_getitem h0 w a va s e :
  extends h0 (fst w) -> holds (fst w) a va ->
  sim (fresh h0) w (getitem_obj a s e) (lift (getitem va s e)).
Proof.
  intros He [_ Ha]. unfold getitem_obj. unfold sim. rewrite Ha.
  destruct (getitem va s e) as [data|x].
  - exact (sim_spawn h0 w data He).
  - cbn. repeat split. apply extends_refl.
Qed.

Lemma sim_add h0 w a b va vb :
  extends h0 (fst w) -> holds (fst w) a va -> holds (fst w) b vb ->
  sim (fresh h0) w (add_obj a b) (ret (va ++ vb)).
Proof.
  intros He [_ Ha] [_ Hb]. unfold add_obj, sim. rewrite Ha, Hb.
  exact (sim_spawn h0 w (va ++ vb) He).
Qed.

Lemma sim_len w a va :
  holds (fst w) a va ->
  sim (fun _ n n' => n = len va /\ n' = len va) w (len_obj a) (ret (len va)).
Proof.
  intros [_ Ha]. unfold sim, len_obj. cbn. rewrite Ha.
  repeat split. apply extends_refl.
Qed.

Lemma sim_is_toxic w word :
  sim (fun _ t t' => t = t') w (is_toxic_obj word) (is_toxicM word).
Proof.
  unfold sim, is_toxic_obj, is_toxicM. destruct w as [h st]. cbn [fst snd].
  destruct (is_toxic word st) as [t st']. cbn.
  repeat split. apply extends_refl.
Qed.

Lemma kept_extends h0 audio tone va vt h h' :
  kept h0 audio tone va vt h -> extends h h' -> kept h0 audio tone va vt h'.
Proof.
  intros (He & Ha & Ht) H. split; [exact (extends_trans _ _ _ He H)|].
  split; now apply (holds_extends h).
Qed.

Lemma sim_piece h0 audio tone va vt (t : bool) s e w :
  kept h0 audio tone va vt (fst w) ->
  sim holds w (if t then retO tone else getitem_obj audio s e)
      (if t then ret vt else lift (getitem va s e)).
Proof.
  intros (He & Ha & Ht). destruct t.
  - now apply sim_ret.
  - destruct (sim_getitem h0 w audio va s e He Ha) as (H1 & H2 & H3).
    split; [exact H1|]. split; [exact H2|].
    destruct (fst (getitem_obj audio s e w)),
      (fst (lift (getitem va s e) (snd w))); try exact H3.
    exact (proj2 H3).
Qed.

Lemma sim_timed_word h0 audio tone va vt w0 rc c l w :
  kept h0 audio tone va vt (fst w) -> fresh h0 (fst w) rc c ->
  sim (fun h (p : nat * Z) (q : AudioSegment * Z) =>
         fresh h0 h (fst p) (fst q) /\ snd p = snd q)
      w (timed_word_obj audio tone (rc, l) w0) (timed_word va vt (c, l) w0).
Proof.
  intros K F. unfold timed_word_obj, timed_word.
  eapply sim_bind; [apply sim_lift|]. intros start ? w1 E1 <-.
  pose proof (kept_extends _ _ _ _ _ _ _ K E1) as K1.
  pose proof (fresh_extends _ _ _ _ _ F E1) as F1.
  eapply sim_bind; [apply sim_lift|]. intros stop ? w2 E2 <-.
  pose proof (kept_extends _ _ _ _ _ _ _ K1 E2) as K2.
  pose proof (fresh_extends _ _ _ _ _ F1 E2) as F2.
  eapply (sim_bind (fresh h0)).
  { apply sim_if; [|now apply sim_ret].
    eapply sim_bind; [apply (sim_getitem h0); apply K2|].
    intros gap vgap w3 E3 G.
    apply (sim_add h0); [exact (extends_trans _ _ _ (proj1 K2) E3)| |apply G].
    exact (holds_extends _ _ _ _ (proj2 F2) E3). }
  intros rc1 c1 w3 E3 F3.
  pose proof (kept_extends _ _ _ _ _ _ _ K2 E3) as K3.
  eapply sim_bind; [apply sim_is_toxic|]. intros t ? w4 E4 <-.
  pose proof (kept_extends _ _ _ _ _ _ _ K3 E4) as K4.
  pose proof (fresh_extends _ _ _ _ _ F3 E4) as F4.
  eapply sim_bind; [exact (sim_piece h0 audio tone va vt t start stop w4 K4)|].
  intros piece vpiece w5 E5 P.
  pose proof (kept_extends _ _ _ _ _ _ _ K4 E5) as K5.
  pose proof (fresh_extends _ _ _ _ _ F4 E5) as F5.
  apply (sim_bind (fresh h0) _ (add_obj rc1 piece) (ret (c1 ++ vpiece))
           (fun censored => retO (censored, stop))
           (fun censored => ret (censored, stop)));
    [exact (sim_add h0 w5 _ _ _ _ (proj1 K5) (proj2 F5) P)|].
  intros rc2 c2 w6 E6 F6. apply sim_ret. now split.
Qed.

Lemma sim_plain_word h0 audio tone va vt d iw rc c w :
  kept h0 audio tone va vt (fst w) -> fresh h0 (fst w) rc c ->
  sim (fresh h0) w (plain_word_obj audio tone d rc iw)
      (plain_word va vt d c iw).
Proof.
  intros K F. destruct iw as [i word]. unfold plain_word_obj, plain_word.
  eapply sim_bind; [apply sim_lift|]. intros start ? w1 E1 <-.
  pose proof (kept_extends _ _ _ _ _ _ _ K E1) as K1.
  pose proof (fresh_extends _ _ _ _ _ F E1) as F1.
  eapply sim_bind; [apply sim_lift|]. intros stop ? w2 E2 <-.
  pose proof (kept_extends _ _ _ _ _ _ _ K1 E2) as K2.
  pose proof (fresh_extends _ _ _ _ _ F1 E2) as F2.
  eapply sim_bind; [apply sim_is_toxic|]. intros t ? w3 E3 <-.
  pose proof (kept_extends _ _ _ _ _ _ _ K2 E3) as K3.
  pose proof (fresh_extends _ _ _ _ _ F2 E3) as F3.
  eapply sim_bind; [exact (sim_piece h0 audio tone va vt t start stop w3 K3)|].
  intros piece vpiece w4 E4 P.
  pose proof (kept_extends _ _ _ _ _ _ _ K3 E4) as K4.
  pose proof (fresh_extends _ _ _ _ _ F3 E4) as F4.
  exact (sim_add h0 w4 _ _ _ _ (proj1 K4) (proj2 F4) P).
Qed.

Lemma sim_for_each {A B B'} (R : heap -> B -> B' -> Prop)
    (K : heap -> Prop) (body : B -> A -> MO B) (body' : B' -> A -> M B') :
  (forall h h', K h -> extends h h' -> K h') ->
  (forall x acc acc' w, K (fst w) -> R (fst w) acc acc' ->
                        sim R w (body acc x) (body' acc' x)) ->
  forall xs acc acc' w,
    K (fst w) -> R (fst w) acc acc' ->
    sim R w (for_each_obj xs acc body) (for_each xs acc' body').
Proof.
  intros HK Hbody. induction xs as [|x xs IH]; intros acc acc' w Kw Rw;
    cbn [for_each_obj for_each].
  - now apply sim_ret.
  - eapply sim_bind; [now apply Hbody|].
    intros a a' w1 E Ra. apply IH; [exact (HK _ _ Kw E)|exact Ra].
Qed.

(** The run on objects does what the run on values does: it leaves the
    objects that existed as they were, the classifier in the same state,
    and returns the same exception, no clip, or a clip object made during
    the run that holds the same samples. *)
Lemma censor_audio_obj_sim h0 beep_obj words_info audio va st :
  holds h0 audio va ->
  (forall tone, beep_obj = Some tone -> (tone < List.length h0)%nat) ->
  beep = option_map (deref h0) beep_obj ->
  sim (fun h (r : option nat) (v : option AudioSegment) =>
         match r, v with
         | Some r, Some v => fresh h0 h r v
         | None, None => True
         | _, _ => False
         end)
      (h0, st) (censor_audio_obj beep_obj words_info audio)
      (censor_audio words_info va).
Proof.
  intros Ha Hvalid Hbeep. unfold censor_audio_obj, censor_audio.
  rewrite Hbeep. destruct beep_obj as [tone|]; cbn [option_map];
    [|now apply sim_ret].
  assert (holds h0 tone (deref h0 tone)) as Ht
    by (split; [now apply Hvalid|reflexivity]).
  set (vt := deref h0 tone) in *.
  assert (kept h0 audio tone va vt h0) as K0
    by (split; [apply extends_refl|now split]).
  change (if len vt =? 0 then ret None else ?k)
    with (bind (ret (len vt)) (fun n => if n =? 0 then ret None else k)).
  eapply sim_bind; [exact (sim_len (h0, st) tone vt Ht)|].
  intros n ? w1 E1 [-> ->].
  pose proof (kept_extends _ _ _ _ _ _ _ K0 E1) as K1.
  destruct (len vt =? 0); [now apply (sim_ret _ w1 None None)|].
  match goal with
  | |- sim _ _ _ ?p =>
      change p with (bind (ret silent0) (fun censored =>
        match words_info with
        | WordList ws =>
            '(censored, last_end) <-
              for_each ws (censored, 0) (timed_word va vt) ;;
            censored <-
              (if last_end <? len va
               then rest <- lift (getitem_from va last_end) ;;
                    ret (censored ++ rest)
               else ret censored) ;;
            ret (Some censored)
        | Text s =>
            duration <- lift (int_truediv (len va)
                                (Z.of_nat (List.length (split s)))) ;;
            censored <-
              for_each (enumerate (split s)) censored
                (plain_word va vt duration) ;;
            ret (Some censored)
        | Other _ => ret (Some censored)
        end))
  end.
  eapply sim_bind; [exact (sim_spawn h0 w1 silent0 (proj1 K1))|].
  intros rc c w2 E2 F2.
  pose proof (kept_extends _ _ _ _ _ _ _ K1 E2) as K2.
  destruct words_info as [ws|s|o].
  - eapply sim_bind.
    { apply (sim_for_each
               (fun h (p : nat * Z) (q : AudioSegment * Z) =>
                  fresh h0 h (fst p) (fst q) /\ snd p = snd q)
               (kept h0 audio tone va vt)).
      - intros h h'. apply kept_extends.
      - intros x [r l] [v l'] w Kw [Fw Hl]. cbn [fst snd] in Fw, Hl. subst l'.
        now apply sim_timed_word.
      - exact K2.
      - now split. }
    intros [r l] [v l'] w3 E3 [F3 Hl]. cbn [fst snd] in F3, Hl. subst l'.
    pose proof (kept_extends _ _ _ _ _ _ _ K2 E3) as K3.
    change (censored <- ?c ;; ret (Some censored))
      with (bind (ret (len va)) (fun n => censored <- c ;; ret (Some censored))).
    eapply sim_bind; [exact (sim_len w3 audio va (proj1 (proj2 K3)))|].
    intros n ? w4 E4 [-> _].
    pose proof (kept_extends _ _ _ _ _ _ _ K3 E4) as K4.
    pose proof (fresh_extends _ _ _ _ _ F3 E4) as F4.
    eapply (sim_bind (fresh h0)).
    { apply sim_if; [|now apply sim_ret].
      eapply sim_bind.
      - unfold getitem_from_obj, getitem_from.
        destruct K4 as (He & [Hr Hv] & _).
        pose proof (sim_getitem h0 w4 audio va l (len va) He (conj Hr Hv)) as H.
        unfold sim in H |- *. now rewrite Hv.
      - intros rest vrest w5 E5 G.
        apply (sim_add h0); [|exact (holds_extends _ _ _ _ (proj2 F4) E5)|apply G].
        exact (extends_trans _ _ _ (proj1 K4) E5). }
    intros r' v' w5 E5 F5. now apply sim_ret.
  - apply (sim_bind (fun _ n n' => n = len va /\ n' = len va) _
             (len_obj audio) (ret (len va)) _
             (fun n =>
                duration <- lift (int_truediv n
                                    (Z.of_nat (List.length (split s)))) ;;
                censored <-
                  for_each (enumerate (split s)) c (plain_word va vt duration) ;;
                ret (Some censored)));
      [exact (sim_len w2 audio va (proj1 (proj2 K2)))|].
    intros n ? w3 E3 [-> ->].
    pose proof (kept_extends _ _ _ _ _ _ _ K2 E3) as K3.
    pose proof (fresh_extends _ _ _ _ _ F2 E3) as F3.
    eapply sim_bind; [apply sim_lift|]. intros d ? w4 E4 <-.
    pose proof (kept_extends _ _ _ _ _ _ _ K3 E4) as K4.
    pose proof (fresh_extends _ _ _ _ _ F3 E4) as F4.
    eapply sim_bind.
    { apply (sim_for_each (fresh h0) (kept h0 audio tone va vt)).
      - intros h h'. apply kept_extends.
      - intros x r v w Kw Fw. now apply sim_plain_word.
      - exact K4.
      - exact F4. }
    intros r' v' w5 E5 F5. now apply sim_ret.
  - now apply sim_ret.
Qed.


(** C10. With the tone available, a transcription that is neither a
    list nor a string gives the empty clip: no failure, and not the input
    clip. *)
Theorem other_transcription_empty tone o audio st :
  tone_available tone ->
  censor_audio (Other o) audio st = (Ok (Some silent0), st) /\
  len silent0 = 0.
Proof.
  intros [Hb Hl]. unfold censor_audio. rewrite Hb.
  apply Z.eqb_neq in Hl. now rewrite Hl.
Qed.

(** ** Further properties of the aligner *)

Lemma chain_le bounds : forall lo hi, chain lo hi bounds -> lo <= hi.
Proof.
  induction bounds as [|se rest IH]; intros lo hi H; cbn [chain] in H.
  - lia.
  - destruct H as (_ & H1 & H2). specialize (IH _ _ H2). lia.
Qed.

Lemma apportioned_chain d :
  small_nonneg 64 d ->
  forall k i bounds,
    0 <= i -> i + Z.of_nat k < 2 ^ 63 ->
    apportioned i k d = Ok bounds ->
    exists lo hi,
      boundary i d = Ok lo /\ boundary (i + Z.of_nat k) d = Ok hi /\
      0 <= lo /\ chain lo hi bounds.
Proof.
  intros Hd. induction k as [|k IH]; intros i bounds Hi Hk H;
    cbn [apportioned] in H.
  - injection H as <-.
    destruct (boundary_floor i d ltac:(cbn in Hk; lia) Hd) as (lo & Hlo & _ & H0).
    exists lo, lo. cbn [Z.of_nat]. rewrite Z.add_0_r. now repeat split.
  - rewrite Nat2Z.inj_succ in Hk |- *.
    destruct (boundary_floor i d ltac:(lia) Hd) as (lo & Hlo & Hflo & H0).
    destruct (boundary_floor (i + 1) d ltac:(lia) Hd) as (mid & Hmid & Hfmid & _).
    rewrite Hflo, Hfmid in H.
    destruct (apportioned (i + 1) k d) as [rest|] eqn:E; [|discriminate].
    injection H as <-.
    destruct (IH (i + 1) rest ltac:(lia) ltac:(lia) E)
      as (mid' & hi & Hmid' & Hhi & _ & Hchain).
    rewrite Hmid in Hmid'. injection Hmid' as <-.
    destruct (boundary_mono i (i + 1) d ltac:(lia) ltac:(lia) Hd)
      as (a & b & Ha & Hb & Hab).
    rewrite Hlo in Ha. injection Ha as <-.
    rewrite Hmid in Hb. injection Hb as <-.
    exists lo, hi. split; [exact Hlo|].
    replace (i + Z.succ (Z.of_nat k)) with (i + 1 + Z.of_nat k) by lia.
    split; [exact Hhi|]. split; [exact H0|].
    cbn [chain fst snd]. now repeat split.
Qed.

Lemma replaced_chain_length audio tone bounds :
  forall flags lo hi,
    0 <= lo -> chain lo hi bounds ->
    List.length flags = List.length bounds ->
    len (replaced audio tone (mk_spans flags bounds))
    + toxic_duration audio (mk_spans flags bounds)
    = Z.min hi (len audio) - Z.min lo (len audio)
      + toxic_count (mk_spans flags bounds) * len tone.
Proof.
  induction bounds as [|[s e] rest IH]; intros flags lo hi Hlo Hc Hlen.
  - destruct flags; [|discriminate]. cbn [chain] in Hc. subst hi.
    unfold mk_spans, toxic_count. cbn. lia.
  - destruct flags as [|t flags]; [discriminate|].
    cbn [chain fst snd] in Hc. destruct Hc as (-> & Hle & Hc).
    pose proof (chain_le _ _ _ Hc) as Hhi.
    specialize (IH flags e hi ltac:(lia) Hc ltac:(cbn in Hlen; lia)).
    unfold mk_spans in *.
    cbn [combine List.map replaced flat_map toxic_duration fst snd
         span_toxic span_start span_end].
    change (flat_map _ ?l) with (replaced audio tone l).
    rewrite toxic_count_cons, len_app. cbn [span_toxic].
    rewrite Z.mul_add_distr_r.
    destruct t; rewrite len_slice by lia; lia.
Qed.

Lemma truediv_zero n : 0 < n -> int_truediv 0 n = Ok (S754_zero false).
Proof.
  intros Hn. unfold int_truediv.
  destruct (Z.eqb_spec n 0); [lia|].
  destruct (Z.ltb_spec n 0); [lia|]. reflexivity.
Qed.

(** The comparison [f1 <= f2] of two valid non-negative floats orders
    their values. *)
Lemma SFleb_val_le k f1 f2 :
  valid_binary prec emax f1 = true -> valid_binary prec emax f2 = true ->
  small_nonneg k f1 -> small_nonneg k f2 ->
  SFleb f1 f2 = true ->
  exists m1 e1 m2 e2,
    represents f1 m1 e1 /\ represents f2 m2 e2 /\ val_le m1 e1 m2 e2.
Proof.
  intros V1 V2 S1 S2 Hle.
  destruct f1 as [s1|s1| |s1 p1 e1]; cbn [small_nonneg] in S1; try tauto;
    destruct f2 as [s2|s2| |s2 p2 e2]; cbn [small_nonneg] in S2; try tauto.
  - exists 0, 0, 0, 0. repeat split; try apply represents_zero.
    apply val_le_zero. lia.
  - destruct s2; [tauto|].
    exists 0, e2, (Zpos p2), e2. split; [apply represents_zero|].
    split; [right; now exists p2|]. apply val_le_zero. lia.
  - destruct s1; [tauto|]. discriminate Hle.
  - destruct s1; [tauto|]. destruct s2; [tauto|].
    exists (Zpos p1), e1, (Zpos p2), e2.
    split; [right; now exists p1|]. split; [right; now exists p2|].
    cbn [valid_binary] in V1, V2. unfold bounded, canonical_mantissa in V1, V2.
    apply andb_prop in V1, V2. destruct V1 as [V1 _], V2 as [V2 _].
    apply Z.eqb_eq in V1, V2. rewrite fexp_eq in V1, V2.
    pose proof (digits2_spec p1) as D1. pose proof (digits2_spec p2) as D2.
    unfold SFleb, SFcompare in Hle.
    destruct (Z.compare_spec e1 e2) as [He|He|He]; [| |discriminate Hle].
    + subst e2. apply (val_le_scale _ _ _ _ e1); [lia|lia|].
      rewrite Z.sub_diag. cbn [Z.pow]. rewrite !Z.mul_1_r.
      change (Pos.compare_cont Eq p1 p2) with (Pos.compare p1 p2) in Hle.
      destruct (Pos.compare_spec p1 p2); [lia|lia|discriminate Hle].
    + apply (val_le_scale _ _ _ _ e1); [lia|lia|].
      rewrite Z.sub_diag. cbn [Z.pow]. rewrite Z.mul_1_r.
      assert (Zpos (digits2_pos p1) <= 53) as L1 by lia.
      assert (Zpos (digits2_pos p2) = 53) as L2 by lia.
      rewrite L2 in D2.
      assert (Zpos p1 < 2 ^ 53) as B1.
      { eapply Z.lt_le_trans; [apply D1|].
        apply Z.pow_le_mono_r; lia. }
      assert (2 ^ 1 <= 2 ^ (e2 - e1)) as B2
        by (apply Z.pow_le_mono_r; lia).
      change (2 ^ (53 - 1)) with (2 ^ 52) in D2.
      change (2 ^ 1) with 2 in B2.
      assert (2 ^ 52 * 2 <= Zpos p2 * 2 ^ (e2 - e1)) as B3
        by (apply Z.mul_le_mono_nonneg; lia).
      change (2 ^ 52 * 2) with (2 ^ 53) in B3. lia.
Qed.

(** X1. On the plain-text path the boundaries [int(i * duration)] start at
    0 and never decrease with the word index, so the slices of successive
    words neither overlap nor run backwards. *)
Theorem plain_boundaries_monotone (L n i j : Z) :
  0 <= L < 2 ^ 63 -> 0 < n < 2 ^ 63 -> 0 <= i <= j -> j <= n ->
  exists duration bi bj,
    int_truediv L n = Ok duration /\
    boundary 0 duration = Ok 0 /\
    boundary i duration = Ok bi /\ boundary j duration = Ok bj /\
    0 <= bi <= bj.
Proof.
  intros HL Hn Hij Hj.
  destruct (int_truediv_small L n HL ltac:(lia)) as (d & Hd & Hsmall).
  destruct (boundary_mono i j d Hij ltac:(lia) Hsmall) as (bi & bj & Hi & Hbj & Hle).
  destruct (boundary_floor i d ltac:(lia) Hsmall) as (z & Hz & _ & H0).
  rewrite Hi in Hz. injection Hz as <-.
  exists d, bi, bj. split; [exact Hd|].
  split; [now apply boundary_zero|]. now repeat split.
Qed.

(** X2. For a clip shorter than 2^50 ms and fewer than 2^53 words the last
    boundary [int(len(words) * (len(audio) / len(words)))] is [len(audio)]
    or one less: binary64 rounding costs at most the final millisecond. *)
Theorem plain_last_boundary (L n : Z) :
  0 <= L < 2 ^ 50 -> 0 < n < 2 ^ 53 ->
  exists duration last,
    int_truediv L n = Ok duration /\ boundary n duration = Ok last /\
    L - 1 <= last <= L /\ 0 <= last.
Proof.
  intros HL Hn. destruct (Z.eq_dec L 0) as [->|HL0].
  - exists (S754_zero false), 0.
    split; [apply truediv_zero; lia|].
    split; [apply boundary_of_zero; lia|lia].
  - destruct (last_boundary_accurate L n ltac:(lia) Hn)
      as (d & last & Hd & Hsmall & Hlast & Hb).
    exists d, last. repeat split; trivial; lia.
Qed.



Lemma timed_loop_raises audio tone w rest e pre :
  forall ses acc st,
    word_spans pre = Ok ses -> in_range audio ses = true ->
    - len audio <= snd acc ->
    word_span w = Raise e ->
    for_each (pre ++ w :: rest) acc (timed_word audio tone) st
    = (Raise e, snd (decisions (List.map word pre) st)).
Proof.
  induction pre as [|v pre IH]; intros ses [censored last_end] st Hs Hr Hl Hw.
  - cbn [app for_each List.map decisions snd].
    unfold timed_word. unfold word_span in Hw.
    destruct (to_ms (start_time w)) as [s|x] eqn:Hst.
    + destruct (to_ms (end_time w)) as [en|x] eqn:Hen; [discriminate|].
      injection Hw as ->. unfold bind. cbn [lift ret throw]. reflexivity.
    + injection Hw as ->. unfold bind. cbn [lift ret throw]. reflexivity.
  - destruct (word_spans_cons _ _ _ Hs) as (s & en & ses' & -> & Hst & Hen & Hrest).
    apply in_range_cons in Hr. destruct Hr as [[Hs0 He0] Hr].
    cbn [snd] in Hl.
    cbn [app for_each List.map decisions].
    unfold bind at 1. unfold timed_word at 1.
    run_bind Hst. run_bind Hen.
    assert (forall c,
              (if last_end <? s
               then gap <- lift (getitem audio last_end s) ;; ret (c ++ gap)
               else ret c) st
              = (Ok (c ++ (if last_end <? s
                           then slice audio last_end s else [])), st))
      as Hgap.
    { intros c. destruct (last_end <? s).
      - unfold bind. now rewrite getitem_in_range by lia.
      - cbn [ret]. now rewrite app_nil_r. }
    unfold bind at 1. rewrite Hgap.
    unfold bind at 1. unfold is_toxicM.
    destruct (is_toxic (word v) st) as [t st1].
    unfold bind at 1.
    rewrite (piece_in_range audio tone s en t st1) by lia.
    cbn [ret].
    match goal with
    | |- context [for_each _ (?c, ?l) _ st1] =>
        rewrite (IH ses' (c, l) st1 Hrest Hr He0 Hw)
    end.
    now destruct (decisions (List.map word pre) st1).
Qed.

(** X5. A word whose start or end time cannot be converted to
    milliseconds aborts the whole call with that exception, when the
    spans of the words before it are in range (none of their bounds below
    [-len(audio)]): no partial clip comes back, whatever the words after
    it, and the classifier has been asked about the words before it
    only. *)
Theorem timing_error_aborts tone pre w rest ses e audio st :
  tone_available tone ->
  word_spans pre = Ok ses ->
  in_range audio ses = true ->
  word_span w = Raise e ->
  censor_audio (WordList (pre ++ w :: rest)) audio st
  = (Raise e, snd (decisions (List.map word pre) st)).
Proof.
  intros [Hb Hl] Hs Hr Hw. unfold censor_audio. rewrite Hb.
  apply Z.eqb_neq in Hl. rewrite Hl.
  unfold bind at 1.
  rewrite (timed_loop_raises audio tone w rest e pre ses (silent0, 0) st Hs Hr);
    [reflexivity|cbn [snd]; unfold len; lia|exact Hw].
Qed.

(** X6. The conversion [int(t * 1000)] keeps the order of the
    recogniser's times: for two valid non-negative floats below 2^64 with
    [t1 <= t2], both conversions succeed and give
    [0 <= int(t1 * 1000) <= int(t2 * 1000)]. *)
Theorem timings_keep_order t1 t2 :
  valid_binary prec emax t1 = true -> valid_binary prec emax t2 = true ->
  small_nonneg 64 t1 -> small_nonneg 64 t2 ->
  SFleb t1 t2 = true ->
  exists z1 z2,
    to_ms (PyFloat t1) = Ok z1 /\ to_ms (PyFloat t2) = Ok z2 /\
    0 <= z1 <= z2.
Proof.
  intros V1 V2 S1 S2 Hle.
  destruct (SFleb_val_le 64 t1 t2 V1 V2 S1 S2 Hle)
    as (m1 & e1 & m2 & e2 & R1 & R2 & Hv).
  destruct (float_of_int_small 1000 ltac:(lia)) as (g & Hg & Sg).
  destruct (SFmul_mono t1 t2 g m1 e1 m2 e2 S1 S2 Sg R1 R2 Hv)
    as (a1 & b1 & a2 & b2 & H1 & H2 & Hab).
  exists (Z.shiftl a1 b1), (Z.shiftl a2 b2).
  unfold to_ms, py_mul. rewrite Hg. cbn [py_int].
  rewrite (int_of_float_represents _ _ _ H1 (SFmul_small t1 g S1 Sg)).
  rewrite (int_of_float_represents _ _ _ H2 (SFmul_small t2 g S2 Sg)).
  repeat split.
  - apply Z.shiftl_nonneg. exact (represents_nonneg _ _ _ H1).
  - now apply shiftl_mono.
Qed.


(** The state in which a loop that ends without an exception leaves the
    classifier. *)
Lemma timed_loop_state audio tone ws :
  forall acc st acc',
    fst (for_each ws acc (timed_word audio tone) st) = Ok acc' ->
    snd (for_each ws acc (timed_word audio tone) st)
    = snd (decisions (List.map word ws) st).
Proof.
  induction ws as [|w ws IH]; intros [censored last_end] st acc' H;
    [reflexivity|].
  cbn [for_each List.map decisions] in H |- *.
  unfold bind at 1 in H. unfold bind at 1.
  unfold timed_word at 1 in H. unfold timed_word at 1.
  unfold bind at 1 in H. unfold bind at 1.
  destruct (to_ms (start_time w)) as [s|x]; cbn [lift ret throw] in H |- *;
    [|discriminate H].
  unfold bind at 1 in H. unfold bind at 1.
  destruct (to_ms (end_time w)) as [e|x]; cbn [lift ret throw] in H |- *;
    [|discriminate H].
  unfold bind at 1 in H. unfold bind at 1.
  assert (exists r,
            (if last_end <? s
             then gap <- lift (getitem audio last_end s) ;;
                  ret (censored ++ gap)
             else ret censored) st = (r, st)) as [r Hgap].
  { destruct (last_end <? s); [|now eexists].
    unfold bind. destruct (getitem audio last_end s); now eexists. }
  rewrite Hgap in H |- *. destruct r as [c|x]; [|discriminate H].
  unfold bind at 1 in H. unfold bind at 1. unfold is_toxicM in H |- *.
  destruct (is_toxic (word w) st) as [t st1].
  unfold bind at 1 in H. unfold bind at 1.
  assert (exists r,
            (if t then ret tone else lift (getitem audio s e)) st1 = (r, st1))
    as [r Hpiece].
  { destruct t; [now eexists|]. destruct (getitem audio s e); now eexists. }
  rewrite Hpiece in H |- *. destruct r as [piece|x]; [|discriminate H].
  cbn [ret] in H |- *.
  rewrite (IH _ st1 acc' H).
  now destruct (decisions (List.map word ws) st1).
Qed.

Lemma plain_loop_state audio tone d words :
  forall i censored st out,
    fst (for_each (enumerate_from i words) censored (plain_word audio tone d) st)
    = Ok out ->
    snd (for_each (enumerate_from i words) censored (plain_word audio tone d) st)
    = snd (decisions words st).
Proof.
  induction words as [|w words IH]; intros i censored st out H;
    [reflexivity|].
  cbn [enumerate_from for_each decisions] in H |- *.
  unfold bind at 1 in H. unfold bind at 1.
  unfold plain_word at 1 in H. unfold plain_word at 1.
  unfold bind at 1 in H. unfold bind at 1.
  destruct (boundary i d) as [lo|x]; cbn [lift ret throw] in H |- *;
    [|discriminate H].
  unfold bind at 1 in H. unfold bind at 1.
  destruct (boundary (i + 1) d) as [hi|x]; cbn [lift ret throw] in H |- *;
    [|discriminate H].
  unfold bind at 1 in H. unfold bind at 1. unfold is_toxicM in H |- *.
  destruct (is_toxic w st) as [t st1].
  unfold bind at 1 in H. unfold bind at 1.
  assert (exists r,
            (if t then ret tone else lift (getitem audio lo hi)) st1 = (r, st1))
    as [r Hpiece].
  { destruct t; [now eexists|]. destruct (getitem audio lo hi); now eexists. }
  rewrite Hpiece in H |- *. destruct r as [piece|x]; [|discriminate H].
  cbn [ret] in H |- *.
  rewrite (IH _ _ st1 out H).
  now destruct (decisions words st1).
Qed.

(** X8. A run that returns a clip has asked the classifier once per
    word, in transcript order, whatever the timings: the pipeline is left
    in the state the decisions on the words, taken one after the other,
    leave it in. *)
Theorem classifier_asked_once_per_word audio st out :
  (forall ws,
      fst (censor_audio (WordList ws) audio st) = Ok (Some out) ->
      snd (censor_audio (WordList ws) audio st)
      = snd (decisions (List.map word ws) st))
  /\
  (forall s,
      fst (censor_audio (Text s) audio st) = Ok (Some out) ->
      snd (censor_audio (Text s) audio st) = snd (decisions (split s) st)).
Proof.
  unfold censor_audio.
  destruct beep as [tone|]; [|split; intros ? H; discriminate H].
  destruct (len tone =? 0); [split; intros ? H; discriminate H|].
  split.
  - intros ws. unfold bind.
    pose proof (timed_loop_state audio tone ws (silent0, 0) st) as Hst.
    destruct (for_each ws (silent0, 0) (timed_word audio tone) st)
      as [[[c l]|x] st1]; [|intros H; discriminate H].
    cbn [fst snd] in Hst. rewrite <- (Hst _ eq_refl).
    destruct (l <? len audio); [|reflexivity].
    destruct (getitem_from audio l); cbn [lift ret throw fst snd];
      [reflexivity|intros H; discriminate H].
  - intros s. unfold bind.
    destruct (int_truediv (len audio) (Z.of_nat (List.length (split s))))
      as [d|x]; cbn [lift ret throw]; [|intros H; discriminate H].
    unfold enumerate.
    pose proof (plain_loop_state audio tone d (split s) 0 silent0 st) as Hst.
    destruct (for_each (enumerate_from 0 (split s)) silent0
                (plain_word audio tone d) st)
      as [[c|x] st1]; [|intros H; discriminate H].
    cbn [fst snd] in Hst. now rewrite <- (Hst _ eq_refl).
Qed.

Lemma whitespace_split s : whitespace_only s -> split s = [].
Proof.
  unfold whitespace_only, split.
  induction s as [|c s IH]; cbn [forallb split_from]; [reflexivity|].
  intros H. apply andb_prop in H. destruct H as [Hc Hs].
  rewrite Hc. now apply IH.
Qed.

Lemma censor_text_no_words tone s audio st :
  tone_available tone -> split s = [] ->
  censor_audio (Text s) audio st = (Raise ZeroDivisionError, st).
Proof.
  intros [Hb Hl] Hs. unfold censor_audio. rewrite Hb.
  apply Z.eqb_neq in Hl. rewrite Hl, Hs. reflexivity.
Qed.

(** X13. Without a usable tone no upload yields a processed file:
    whatever was transcribed, [create_audio_file(censored, "processed_")]
    is not reached, the request ends with one of the two error messages,
    and the classifier is never asked. *)
Theorem no_tone_no_processed_file words_info audio st :
  (forall tone, ~ tone_available tone) ->
  (fst (upload_try words_info audio st) = ErrorProcessing \/
   fst (upload_try words_info audio st) = ErrorGenerating) /\
  snd (upload_try words_info audio st) = st.
Proof.
  intros Hno. unfold upload_try.
  destruct (negb (truthy_info words_info) || negb (truthy_clip audio));
    [now split; [left|]|].
  destruct audio as [a|]; [|now split; [left|]].
  unfold censor_audio.
  destruct beep as [tone|] eqn:Hb; [|now split; [right|]].
  destruct (Z.eqb_spec (len tone) 0) as [Hl|Hl]; [now split; [right|]|].
  exfalso. apply (Hno tone). now split.
Qed.

(** X14. A transcript string that is not empty but holds only
    whitespace passes the gate of [upload_file] and makes the request end
    with the message of the [ZeroDivisionError]; the classifier is not
    asked. *)
Theorem blank_transcript_upload tone s a st :
  tone_available tone ->
  s <> [] -> whitespace_only s -> len a <> 0 ->
  upload_try (Text s) (Some a) st = (ErrorRaised ZeroDivisionError, st).
Proof.
  intros Ht Hs Hw Ha. unfold upload_try.
  cbn [truthy_info truthy_clip].
  destruct s as [|c s]; [congruence|]. cbn [truthy negb orb].
  apply Z.eqb_neq in Ha. rewrite Ha. cbn [negb].
  now rewrite (censor_text_no_words tone _ a st Ht (whitespace_split _ Hw)).
Qed.


(** X16. A transcription that is neither a list nor a string never
    yields a processed file: [None] and the empty dict stop at the first
    gate, any other is turned into an empty clip that the second gate
    rejects; the classifier is not asked. *)
Theorem other_transcription_upload o audio st :
  (fst (upload_try (Other o) audio st) = ErrorProcessing \/
   fst (upload_try (Other o) audio st) = ErrorGenerating) /\
  snd (upload_try (Other o) audio st) = st.
Proof.
  unfold upload_try.
  destruct (negb (truthy_info (Other o)) || negb (truthy_clip audio));
    [now split; [left|]|].
  destruct audio as [a|]; [|now split; [left|]].
  unfold censor_audio.
  destruct beep as [tone|]; [|now split; [right|]].
  destruct (len tone =? 0); now split; [right|].
Qed.

End Aligner.

Arguments len {frame} a.
Arguments slice {frame} a start stop.
Arguments aligned {frame} audio tone last_end spans.
Arguments gaps_and_tones {frame} audio tone last_end spans.
Arguments replaced {frame} audio tone spans.
Arguments covering {frame} audio last_end spans.
Arguments toxic_duration {frame} audio spans.
Arguments tone_available {frame} beep tone.
Arguments censor_audio {frame} silence {cstate} toxicity_classifier beep
  words_info audio _.
Arguments getitem {frame} silence a start stop.
Arguments censor_audio_obj {frame} silence {cstate} toxicity_classifier
  beep_obj words_info audio _.
Arguments extends {frame} h0 h.
Arguments deref {frame} h r.
Arguments in_range {frame} audio ses.
Arguments is_toxic {cstate} toxicity_classifier w _.
Arguments decisions {cstate} toxicity_classifier words st.
Arguments classifier_always_throws {cstate} toxicity_classifier.
Arguments deterministic_predicate {cstate} toxicity_classifier.
Arguments upload_try {frame} silence {cstate} toxicity_classifier beep
  words_info audio _.
Arguments ErrorProcessing {frame}.
Arguments ErrorGenerating {frame}.
Arguments ErrorRaised {frame} e.
Arguments Processed {frame} censored.

(** ** The properties of the file names *)

Lemma contains_app c a b :
  contains c (a ++ b) = contains c a || contains c b.
Proof. apply existsb_app. Qed.

Lemma contains_cons_same c b : contains c (c :: b) = true.
Proof. unfold contains. cbn [existsb]. now rewrite N.eqb_refl. Qed.

Lemma rsplit_last_spec c s :
  match rsplit_last c s with
  | Some (a, b) => s = a ++ c :: b /\ contains c b = false
  | None => contains c s = false
  end.
Proof.
  induction s as [|x r IH]; cbn [rsplit_last]; [reflexivity|].
  destruct (rsplit_last c r) as [[a b]|].
  - destruct IH as [-> Hb]. now split.
  - destruct (N.eqb_spec x c) as [->|Hx]; [now split|].
    unfold contains in *. cbn [existsb]. rewrite IH.
    destruct (N.eqb_spec c x); [congruence|reflexivity].
Qed.

Lemma rsplit_last_none c s : contains c s = false -> rsplit_last c s = None.
Proof.
  intros H. pose proof (rsplit_last_spec c s) as Hs.
  destruct (rsplit_last c s) as [[a b]|]; [|reflexivity].
  destruct Hs as [-> _].
  rewrite contains_app, contains_cons_same, orb_true_r in H. discriminate.
Qed.

Lemma rsplit_last_intro c a b :
  contains c b = false -> rsplit_last c (a ++ c :: b) = Some (a, b).
Proof.
  intros Hb. induction a as [|x a IH]; cbn [app rsplit_last].
  - now rewrite (rsplit_last_none c b Hb), N.eqb_refl.
  - now rewrite IH.
Qed.

Lemma split_first_spec c s :
  match split_first c s with
  | Some (a, b) => s = a ++ c :: b /\ contains c a = false
  | None => contains c s = false
  end.
Proof.
  induction s as [|x r IH]; cbn [split_first]; [reflexivity|].
  destruct (N.eqb_spec x c) as [->|Hx]; [now split|].
  assert (N.eqb c x = false) as Hcx
    by (destruct (N.eqb_spec c x); [congruence|reflexivity]).
  destruct (split_first c r) as [[a b]|].
  - destruct IH as [-> Ha]. split; [reflexivity|].
    unfold contains in *. cbn [existsb]. now rewrite Hcx, Ha.
  - unfold contains in *. cbn [existsb]. now rewrite Hcx, IH.
Qed.

Lemma startswith_spec p : forall s,
  startswith s p = true <-> exists r, s = p ++ r.
Proof.
  induction p as [|x p IH]; intros s.
  - split; [intros _; now exists s|intros _; now destruct s].
  - destruct s as [|c s].
    + cbn [startswith]. split; [discriminate|]. intros [r Hr]. discriminate Hr.
    + cbn [startswith]. rewrite andb_true_iff, N.eqb_eq, IH. split.
      * intros [-> [r ->]]. now exists r.
      * intros [r Hr]. injection Hr as -> ->. split; [reflexivity|now exists r].
Qed.

Lemma counterpart_processed x :
  counterpart (py "processed_" ++ x) = Some (py "original_" ++ x).
Proof. reflexivity. Qed.

Lemma counterpart_original x :
  counterpart (py "original_" ++ x) = Some (py "processed_" ++ x).
Proof. reflexivity. Qed.

(** X9. [allowed_file] never raises, and it accepts a name exactly when
    the part after its last dot lowercases to "wav": a name without a
    dot, or with anything else after the last dot, is refused. *)
Theorem allowed_file_spec (lower : pystr -> pystr) (filename : pystr) :
  exists b,
    allowed_file lower filename = Some b /\
    (b = true <->
     exists base ext,
       filename = base ++ dot :: ext /\ contains dot ext = false /\
       lower ext = py "wav").
Proof.
  unfold allowed_file, rsplit1.
  pose proof (rsplit_last_spec dot filename) as Hs.
  destruct (contains dot filename) eqn:Hc.
  - destruct (rsplit_last dot filename) as [[a b]|]; [|congruence].
    destruct Hs as [-> Hb]. cbn [nth_error ALLOWED_EXTENSIONS existsb].
    eexists. split; [reflexivity|].
    rewrite orb_false_r, pystr_eqb_eq. split.
    + intros H. now exists a, b.
    + intros (base & ext & Hf & He & Hl).
      pose proof (rsplit_last_intro dot a b Hb) as H1.
      rewrite Hf, (rsplit_last_intro dot base ext He) in H1.
      injection H1 as _ ->. exact Hl.
  - exists false. split; [reflexivity|]. split; [discriminate|].
    intros (base & ext & -> & _).
    rewrite contains_app, contains_cons_same, orb_true_r in Hc. discriminate.
Qed.

(** X10. The counterpart name exists exactly for the names that hold an
    underscore (otherwise the index [[1]] raises), and it is never the
    downloaded name itself. *)
Theorem counterpart_defined (filename : pystr) :
  (counterpart filename = None <-> contains underscore filename = false) /\
  counterpart filename <> Some filename.
Proof.
  unfold counterpart, split1. cbv zeta.
  pose proof (split_first_spec underscore filename) as Hs.
  destruct (split_first underscore filename) as [[a b]|];
    cbn [nth_error].
  - destruct Hs as [Hf Ha]. split.
    + split; [discriminate|]. intros H.
      rewrite Hf, contains_app, contains_cons_same, orb_true_r in H.
      discriminate.
    + destruct (startswith filename (py "processed_")) eqn:Hp;
        intros H; apply (f_equal (fun o => match o with
                                           | Some x => x
                                           | None => []
                                           end)) in H;
        rewrite Hf in H;
        change (a ++ underscore :: b) with (a ++ [underscore] ++ b) in H;
        rewrite app_assoc in H.
      * change (py "original_" ++ b)
          with ((py "original" ++ [underscore]) ++ b) in H.
        apply app_inv_tail in H.
        apply app_inj_tail in H. destruct H as [<- _].
        rewrite Hf in Hp. discriminate Hp.
      * change (py "processed_" ++ b)
          with ((py "processed" ++ [underscore]) ++ b) in H.
        apply app_inv_tail in H.
        apply app_inj_tail in H. destruct H as [<- _].
        rewrite Hf in Hp. discriminate Hp.
  - split; [now split|discriminate].
Qed.

(** X11. Taking the counterpart twice gives the name back exactly for
    the names that start with "processed_" or "original_": on those the
    operation swaps the two prefixes. *)
Theorem counterpart_round_trip (filename other : pystr) :
  counterpart filename = Some other ->
  (counterpart other = Some filename <->
   startswith filename (py "processed_")
   || startswith filename (py "original_") = true).
Proof.
  intros H.
  destruct (startswith filename (py "processed_")) eqn:Hp.
  - apply startswith_spec in Hp. destruct Hp as [r ->].
    assert (other = py "original_" ++ r) as ->
      by (rewrite counterpart_processed in H; congruence).
    rewrite counterpart_original. cbn [orb]. tauto.
  - cbn [orb]. split.
    + intros Hback.
      unfold counterpart in H. cbv zeta in H. rewrite Hp in H.
      destruct (nth_error (split1 underscore filename) 1) as [rest|];
        [|discriminate].
      assert (other = py "processed_" ++ rest) as -> by congruence.
      rewrite counterpart_processed in Hback.
      assert (filename = py "original_" ++ rest) as -> by congruence.
      reflexivity.
    + intros Ho. apply startswith_spec in Ho. destruct Ho as [r ->].
      assert (other = py "processed_" ++ r) as ->
        by (rewrite counterpart_original in H; congruence).
      apply counterpart_processed.
Qed.

(** X12. The counterpart of a processed file carries the processed
    file's own identifier: it is the uploaded original's name only when
    [upload_file] drew the same identifier for both files. *)
Theorem counterpart_of_processed (id_original id_processed : pystr) :
  counterpart (generated_name (py "processed_") id_processed)
  = Some (generated_name (py "original_") id_processed) /\
  (counterpart (generated_name (py "processed_") id_processed)
   = Some (generated_name (py "original_") id_original)
   <-> id_original = id_processed).
Proof.
  unfold generated_name. rewrite counterpart_processed.
  split; [reflexivity|]. split.
  - intros H.
    assert (py "original_" ++ id_processed ++ py ".wav"
            = py "original_" ++ id_original ++ py ".wav") as H' by congruence.
    apply app_inv_head in H'. apply app_inv_tail in H'. now symmetry.
  - now intros ->.
Qed.

Lemma unlink_in name d d' other :
  unlink name d = Some d' -> (In other d' <-> In other d /\ other <> name).
Proof.
  unfold unlink. destruct (exists_in name d); [|discriminate].
  intros H. injection H as <-. rewrite filter_In, negb_true_iff.
  split; intros [H1 H2]; (split; [exact H1|]).
  - intros ->. rewrite (proj2 (pystr_eqb_eq name name) eq_refl) in H2.
    discriminate.
  - destruct (PyStr.eqb name other) eqn:E; [|reflexivity].
    apply pystr_eqb_eq in E. congruence.
Qed.

Lemma cleanup_keeps filename d other :
  In other d -> other <> filename -> counterpart filename <> Some other ->
  In other (cleanup filename d).
Proof.
  intros Hin Hne Hc. unfold cleanup.
  destruct (unlink filename d) as [d1|] eqn:E1; [|exact Hin].
  assert (In other d1) as H1
    by (apply (unlink_in filename d d1 other E1); now split).
  destruct (counterpart filename) as [c|]; [|exact H1].
  destruct (exists_in c d1); [|exact H1].
  destruct (unlink c d1) as [d2|] eqn:E2; [|exact H1].
  apply (unlink_in c d1 d2 other E2). split; [exact H1|congruence].
Qed.

(** X17. The cleanup after a download creates no file and removes none
    but the downloaded file and its counterpart: every other file of the
    folder is still there afterwards. *)
Theorem cleanup_touches_pair_only (filename other : pystr) (d : folder) :
  (In other (cleanup filename d) -> In other d) /\
  (In other d -> other <> filename -> counterpart filename <> Some other ->
   In other (cleanup filename d)).
Proof.
  split; [|apply cleanup_keeps].
  unfold cleanup.
  destruct (unlink filename d) as [d1|] eqn:E1; [|tauto].
  pose proof (unlink_in filename d d1 other E1) as H1.
  destruct (counterpart filename) as [c|]; [|tauto].
  destruct (exists_in c d1); [|tauto].
  destruct (unlink c d1) as [d2|] eqn:E2; [|tauto].
  pose proof (unlink_in c d1 d2 other E2) as H2. tauto.
Qed.

(** X18. The uploaded original outlives the download of its processed
    file: unless [upload_file] drew the same identifier for both, the
    cleanup after the download leaves the original in the folder. *)
Theorem original_left_behind (id_original id_processed : pystr) (d : folder) :
  id_original <> id_processed ->
  In (generated_name (py "original_") id_original) d ->
  In (generated_name (py "original_") id_original)
     (cleanup (generated_name (py "processed_") id_processed) d).
Proof.
  intros Hne Hin.
  apply cleanup_keeps; [exact Hin| |].
  - unfold generated_name. discriminate.
  - unfold generated_name. rewrite counterpart_processed. intros H.
    assert (py "original_" ++ id_processed ++ py ".wav"
            = py "original_" ++ id_original ++ py ".wav") as H' by congruence.
    apply app_inv_head in H'. apply app_inv_tail in H'. congruence.
Qed.

(** ** The properties on the sample inputs *)

Lemma sample_tone_available : tone_available (Some Sample.tone) Sample.tone.
Proof. split; [reflexivity|vm_compute; discriminate]. Defined.

Lemma word_timings_alignment_witness :
  tone_available (Some Sample.tone) Sample.tone /\
  in_range (Sample.clip 3000) [(0, 1000); (1000, 2000); (2000, 3000)] = true /\
  fst (censor_audio Sample.silence (Some Sample.classifier) (Some Sample.tone)
         (WordList Sample.words) (Sample.clip 3000) tt)
  = Ok (Some (aligned (Sample.clip 3000) Sample.tone 0
                (mk_spans
                   (fst (decisions (Some Sample.classifier)
                           (List.map word Sample.words) tt))
                   [(0, 1000); (1000, 2000); (2000, 3000)]))) /\
  fst (censor_audio Sample.silence (Some Sample.classifier) (Some Sample.tone)
         (WordList Sample.words) (Sample.clip 3000) tt)
  = Ok (Some (Sample.tone ++ slice (Sample.clip 3000) 1000 2000
                          ++ slice (Sample.clip 3000) 2000 3000)).
Proof.
  split; [exact sample_tone_available|].
  split; [vm_compute; reflexivity|].
  destruct (word_timings_alignment Z Sample.silence unit
              (Some Sample.classifier) (Some Sample.tone) Sample.tone
              sample_tone_available) as [Hspans Hexample].
  split.
  - apply (Hspans Sample.words [(0, 1000); (1000, 2000); (2000, 3000)]
             (Sample.clip 3000) tt).
    + vm_compute; reflexivity.
    + vm_compute; reflexivity.
  - apply Hexample.
    + vm_compute; reflexivity.
    + intros []; vm_compute; reflexivity.
    + intros []; vm_compute; reflexivity.
    + intros []; vm_compute; reflexivity.
Defined.

(** The range condition of C1 is needed: a word that starts 1.5 s before
    the start of a 1 s clip has its slice raise, and the call with it. *)
Example slice_below_start_raises :
  word_spans [Sample.early_word] = Ok [(-1500, 800)] /\
  in_range (Sample.clip 1000) [(-1500, 800)] = false /\
  censor_audio Sample.silence (Some Sample.classifier) (Some Sample.tone)
    (WordList [Sample.early_word]) (Sample.clip 1000) tt
  = (Raise TooManyMissingFrames, tt).
Proof. repeat split; vm_compute; reflexivity. Qed.

Lemma empty_transcript_witness :
  censor_audio Sample.silence (Some Sample.classifier) (Some Sample.tone)
    (Text (py "   ")) (Sample.clip 3) tt
  = (Raise ZeroDivisionError, tt).
Proof.
  apply (proj2 (empty_transcript Z Sample.silence unit (Some Sample.classifier)
                  (Some Sample.tone) Sample.tone (Sample.clip 3) tt
                  sample_tone_available)).
  vm_compute; reflexivity.
Defined.

Lemma is_toxic_decision_witness :
  fst (is_toxic (Some Sample.classifier) (py "bad") tt) = true.
Proof.
  apply (proj1 (is_toxic_decision unit (Some Sample.classifier) (py "bad") tt)).
  split.
  - vm_compute; discriminate.
  - exists Sample.classifier,
      {| label := py "Toxic"; score := Sample.f0_9 |}, [].
    repeat split; vm_compute; reflexivity.
Defined.

Lemma plain_text_apportioned_witness :
  tone_available (Some Sample.tone) Sample.tone /\
  fst (censor_audio Sample.silence (Some Sample.classifier) (Some Sample.tone)
         (Text (py "bad cat")) (Sample.clip 2000) tt)
  = Ok (Some (Sample.tone ++ slice (Sample.clip 2000) 1000 2000)).
Proof.
  split; [exact sample_tone_available|].
  apply (proj2 (plain_text_apportioned Z Sample.silence unit (Some Sample.classifier)
                  (Some Sample.tone) Sample.tone sample_tone_available)).
  - vm_compute; reflexivity.
  - intros []; vm_compute; reflexivity.
  - intros []; vm_compute; reflexivity.
Defined.

Lemma no_tone_no_result_witness :
  censor_audio Sample.silence (Some Sample.classifier) None
    (WordList Sample.words) (Sample.clip 3000) tt
  = (Ok None, tt).
Proof.
  apply (no_tone_no_result Z Sample.silence unit (Some Sample.classifier) None).
  reflexivity.
Defined.




Lemma sample_failing_throws : classifier_always_throws (Some Sample.failing).
Proof. intros classify H w st. injection H as <-. reflexivity. Defined.


Lemma all_words_toxic_witness :
  fst (censor_audio Sample.silence (Some Sample.classifier) (Some Sample.tone)
         (WordList Sample.bad_words) (Sample.clip 2000) tt)
  = Ok (Some (concat (repeat Sample.tone 2))).
Proof.
  apply (proj2 (all_words_toxic Z Sample.silence unit (Some Sample.classifier)
                  (Some Sample.tone) Sample.tone Sample.bad_words
                  [(0, 1000); (1000, 2000)] (Sample.clip 2000) tt
                  sample_tone_available
                  ltac:(vm_compute; reflexivity)
                  ltac:(vm_compute; reflexivity)
                  ltac:(vm_compute; reflexivity))).
  vm_compute; reflexivity.
Defined.

Lemma sample_classifier_deterministic :
  deterministic_predicate (Some Sample.classifier).
Proof. intros w [] []. reflexivity. Defined.


(** The hypothesis of C9 is needed: a classifier that alternates makes two
    consecutive runs differ. *)
Example flipping_runs_differ :
  fst (censor_audio Sample.silence (Some Sample.flipping) (Some Sample.tone)
         (Text (py "bad")) (Sample.clip 5) true)
  <> fst (censor_audio Sample.silence (Some Sample.flipping) (Some Sample.tone)
            (Text (py "bad")) (Sample.clip 5)
            (snd (censor_audio Sample.silence (Some Sample.flipping) (Some Sample.tone)
                    (Text (py "bad")) (Sample.clip 5) true))).
Proof. vm_compute. discriminate. Qed.

Lemma other_transcription_empty_witness :
  censor_audio Sample.silence (Some Sample.classifier) (Some Sample.tone)
    (Other (PyDict [])) (Sample.clip 3) tt
  = (Ok (Some []), tt).
Proof.
  apply (proj1 (other_transcription_empty Z Sample.silence unit (Some Sample.classifier)
                  (Some Sample.tone) Sample.tone (PyDict []) (Sample.clip 3) tt
                  sample_tone_available)).
Defined.

(** The boundaries are those of binary64 arithmetic: over 15 ms and
    eleven words the last one is 14, where exact arithmetic gives 15. *)
Example last_boundary_short_of_exact :
  exists duration,
    int_truediv 15 11 = Ok duration /\
    boundary 11 duration = Ok 14 /\ (11 * 15) / 11 = 15.
Proof. eexists. repeat split; vm_compute; reflexivity. Qed.

(** ** The further properties on the sample inputs *)

Lemma sample_failing_never_toxic :
  forall w st', fst (is_toxic (Some Sample.failing) w st') = false.
Proof.
  intros w []. unfold is_toxic.
  destruct (negb (truthy (strip w))); reflexivity.
Defined.

Lemma plain_boundaries_monotone_witness :
  exists duration bi bj,
    int_truediv 15 11 = Ok duration /\
    boundary 0 duration = Ok 0 /\
    boundary 3 duration = Ok bi /\ boundary 7 duration = Ok bj /\
    0 <= bi <= bj.
Proof. apply (plain_boundaries_monotone 15 11 3 7); lia. Defined.

Lemma plain_last_boundary_witness :
  exists duration last,
    int_truediv 15 11 = Ok duration /\ boundary 11 duration = Ok last /\
    15 - 1 <= last <= 15 /\ 0 <= last.
Proof. apply (plain_last_boundary 15 11); lia. Defined.



Lemma timing_error_aborts_witness :
  censor_audio Sample.silence (Some Sample.flipping) (Some Sample.tone)
    (WordList (Sample.words
               ++ {| word := py "cat"; start_time := PyFloat S754_nan;
                     end_time := PyFloat Sample.f1 |}
               :: Sample.bad_words))
    (Sample.clip 3000) true
  = (Raise ValueError, false).
Proof.
  apply (timing_error_aborts Z Sample.silence bool (Some Sample.flipping)
           (Some Sample.tone) Sample.tone Sample.words _ Sample.bad_words
           [(0, 1000); (1000, 2000); (2000, 3000)] ValueError
           (Sample.clip 3000) true sample_tone_available).
  - vm_compute; reflexivity.
  - vm_compute; reflexivity.
  - vm_compute; reflexivity.
Defined.

Lemma timings_keep_order_witness :
  exists z1 z2,
    to_ms (PyFloat Sample.f0_9) = Ok z1 /\ to_ms (PyFloat Sample.f2) = Ok z2 /\
    0 <= z1 <= z2.
Proof.
  apply (timings_keep_order Sample.f0_9 Sample.f2).
  - vm_compute; reflexivity.
  - vm_compute; reflexivity.
  - simpl; lia.
  - simpl; lia.
  - vm_compute; reflexivity.
Defined.


Lemma classifier_asked_once_per_word_witness :
  snd (censor_audio Sample.silence (Some Sample.flipping) (Some Sample.tone)
         (WordList Sample.words) (Sample.clip 3000) true)
  = snd (decisions (Some Sample.flipping)
           (List.map word Sample.words) true).
Proof.
  apply (proj1 (classifier_asked_once_per_word Z Sample.silence bool
                  (Some Sample.flipping) (Some Sample.tone)
                  (Sample.clip 3000) true
                  (Sample.tone ++ slice (Sample.clip 3000) 1000 2000
                               ++ Sample.tone))
           Sample.words).
  vm_compute; reflexivity.
Defined.

Lemma no_tone_no_processed_file_witness :
  (fst (upload_try Sample.silence (Some Sample.classifier) None
          (WordList Sample.words) (Some (Sample.clip 3000)) tt)
   = ErrorProcessing \/
   fst (upload_try Sample.silence (Some Sample.classifier) None
          (WordList Sample.words) (Some (Sample.clip 3000)) tt)
   = ErrorGenerating) /\
  snd (upload_try Sample.silence (Some Sample.classifier) None
         (WordList Sample.words) (Some (Sample.clip 3000)) tt) = tt.
Proof.
  apply (no_tone_no_processed_file Z Sample.silence unit (Some Sample.classifier) None).
  intros tone [H _]. discriminate H.
Defined.

Lemma blank_transcript_upload_witness :
  upload_try Sample.silence (Some Sample.classifier) (Some Sample.tone)
    (Text (py "   ")) (Some (Sample.clip 3)) tt
  = (ErrorRaised ZeroDivisionError, tt).
Proof.
  apply (blank_transcript_upload Z Sample.silence unit (Some Sample.classifier)
           (Some Sample.tone) Sample.tone (py "   ") (Sample.clip 3) tt
           sample_tone_available).
  - vm_compute; discriminate.
  - vm_compute; reflexivity.
  - vm_compute; discriminate.
Defined.


Lemma counterpart_round_trip_witness :
  counterpart (py "original_abc.wav") = Some (py "processed_abc.wav").
Proof.
  apply (proj2 (counterpart_round_trip (py "processed_abc.wav")
                  (py "original_abc.wav") ltac:(vm_compute; reflexivity))).
  vm_compute; reflexivity.
Defined.

Lemma cleanup_touches_pair_only_witness :
  In (py "original_b.wav")
     (cleanup (py "processed_a.wav")
        [py "original_a.wav"; py "processed_a.wav"; py "original_b.wav"]).
Proof.
  apply (proj2 (cleanup_touches_pair_only (py "processed_a.wav")
                  (py "original_b.wav")
                  [py "original_a.wav"; py "processed_a.wav";
                   py "original_b.wav"])).
  - right. right. left. reflexivity.
  - vm_compute; discriminate.
  - vm_compute; discriminate.
Defined.

Lemma original_left_behind_witness :
  In (generated_name (py "original_") (py "1f0e"))
     (cleanup (generated_name (py "processed_") (py "9c2d"))
        [generated_name (py "original_") (py "1f0e");
         generated_name (py "processed_") (py "9c2d")]).
Proof.
  apply (original_left_behind (py "1f0e") (py "9c2d")).
  - vm_compute; discriminate.
  - left. reflexivity.
Defined.
